(** * SPAKE2 over Ed25519: field and group layer of [ed25519.c]

    A shallow embedding of the field-element and group-element code of
    [src/main/cpp/ed25519.c], and of [hexify] of [src/main/cpp/test.c],
    together with the properties stated for them.

    Machine integers are integers of [Z] with their wrap-around written
    out ([u32], [u64]); a [uint32_t v[10]] limb array is a record of ten
    limbs; a [uint8_t s[32]] buffer is a list of byte values.  The field
    GF(p) is [Zmod p25519] of the Standard Library. *)

From Stdlib Require Import String Ascii.
From Stdlib Require Import ZArith List Lia Bool Znumtheory.
From Stdlib Require Import Zmod Zstar Ring Field.
Import ListNotations.

Local Open Scope Z_scope.

(* ------------------------------------------------------------------ *)
(** ** Machine integers *)

Definition u32 (x : Z) : Z := x mod 2 ^ 32.
Definition u64 (x : Z) : Z := x mod 2 ^ 64.
Definition u8 (x : Z) : Z := x mod 2 ^ 8.
(** [fiat_25519_uint1]: a one-bit unsigned value. *)
Definition u1 (x : Z) : Z := x mod 2.

(** The prime of the field, [p = 2^255 - 19]. *)
Definition p25519 : Z := 2 ^ 255 - 19.

(* ------------------------------------------------------------------ *)
(** ** Limb arrays

    [typedef struct fe { uint32_t v[10]; } fe;] and
    [typedef struct fe_loose { uint32_t v[10]; } fe_loose;] have the same
    layout (the code [memmove]s one onto the other in [fe_copy_lt]), so
    both are the one record of ten limbs. *)

Record limbs : Set := Limbs {
  v0 : Z; v1 : Z; v2 : Z; v3 : Z; v4 : Z;
  v5 : Z; v6 : Z; v7 : Z; v8 : Z; v9 : Z
}.

Definition fe : Set := limbs.
Definition fe_loose : Set := limbs.

(** Value of a limb array: limb [i] has weight [2^ceil(25.5 i)]. *)
Definition eval (f : limbs) : Z :=
  v0 f + 2 ^ 26 * v1 f + 2 ^ 51 * v2 f + 2 ^ 77 * v3 f + 2 ^ 102 * v4 f
  + 2 ^ 128 * v5 f + 2 ^ 153 * v6 f + 2 ^ 179 * v7 f + 2 ^ 204 * v8 f
  + 2 ^ 230 * v9 f.

(** The element of GF(p) a limb array represents. *)
Definition feval (f : limbs) : Z := eval f mod p25519.

(** Bounds of a limb array: even limbs at most [be], odd limbs at most [bo]. *)
Definition bounded (be bo : Z) (f : limbs) : Prop :=
  (0 <= v0 f <= be) /\ (0 <= v1 f <= bo) /\ (0 <= v2 f <= be) /\
  (0 <= v3 f <= bo) /\ (0 <= v4 f <= be) /\ (0 <= v5 f <= bo) /\
  (0 <= v6 f <= be) /\ (0 <= v7 f <= bo) /\ (0 <= v8 f <= be) /\
  (0 <= v9 f <= bo).

(** Limbs within their canonical bit ranges: 26 and 25 bits. *)
Definition canonical_limbs : limbs -> Prop := bounded (2 ^ 26 - 1) (2 ^ 25 - 1).
(** Tight limbs: the canonical range with the slack a carry leaves. *)
Definition tight : limbs -> Prop := bounded 0x4666666 0x2333333.
(** Loose limbs: what an addition or subtraction of tight limbs yields. *)
Definition loose : limbs -> Prop := bounded 0xd333332 0x6999999.

Definition boundedb (be bo : Z) (f : limbs) : bool :=
  (0 <=? v0 f) && (v0 f <=? be) && (0 <=? v1 f) && (v1 f <=? bo) &&
  (0 <=? v2 f) && (v2 f <=? be) && (0 <=? v3 f) && (v3 f <=? bo) &&
  (0 <=? v4 f) && (v4 f <=? be) && (0 <=? v5 f) && (v5 f <=? bo) &&
  (0 <=? v6 f) && (v6 f <=? be) && (0 <=? v7 f) && (v7 f <=? bo) &&
  (0 <=? v8 f) && (v8 f <=? be) && (0 <=? v9 f) && (v9 f <=? bo).

Definition tightb : limbs -> bool := boundedb 0x4666666 0x2333333.
Definition looseb : limbs -> bool := boundedb 0xd333332 0x6999999.

(* ------------------------------------------------------------------ *)
(** ** Byte buffers *)

Definition is_byte (b : Z) : Prop := 0 <= b < 256.
Definition bytes32 (s : list Z) : Prop := length s = 32%nat /\ Forall is_byte s.

(** Little-endian value of a byte buffer. *)
Fixpoint le_decode (s : list Z) : Z :=
  match s with
  | [] => 0
  | b :: s' => b + 256 * le_decode s'
  end.

(** The [n] little-endian bytes of a number. *)
Fixpoint le_encode (n : nat) (x : Z) : list Z :=
  match n with
  | O => []
  | S n' => x mod 256 :: le_encode n' (x / 256)
  end.

(** [s[i] = f(s[i])] on a buffer. *)
Fixpoint map_nth (i : nat) (f : Z -> Z) (s : list Z) : list Z :=
  match s, i with
  | [], _ => []
  | b :: s', O => f b :: s'
  | b :: s', S i' => b :: map_nth i' f s'
  end.

(* ------------------------------------------------------------------ *)
(** ** The primitives of [curve25519_32.h]

    The header with the [fiat_25519_*] primitives is not part of the
    sources at hand; each primitive is modelled from its row in the
    specification's table of field operations. *)

(** Modelled from the spec: [fiat_25519_from_bytes] (header
    [curve25519_32.h] is missing).  "from_bytes_strict: 32 bytes, top bit
    zero -> tight": the ten limbs of the little-endian value, 26 and 25
    bits alternating. *)
Definition fiat_25519_from_bytes (s : list Z) : limbs :=
  let n := le_decode s in
  Limbs (Z.land n (Z.ones 26))
        (Z.land (Z.shiftr n 26) (Z.ones 25))
        (Z.land (Z.shiftr n 51) (Z.ones 26))
        (Z.land (Z.shiftr n 77) (Z.ones 25))
        (Z.land (Z.shiftr n 102) (Z.ones 26))
        (Z.land (Z.shiftr n 128) (Z.ones 25))
        (Z.land (Z.shiftr n 153) (Z.ones 26))
        (Z.land (Z.shiftr n 179) (Z.ones 25))
        (Z.land (Z.shiftr n 204) (Z.ones 26))
        (Z.shiftr n 230).

(** Modelled from the spec: [fiat_25519_to_bytes] (header
    [curve25519_32.h] is missing).  "to_bytes: tight -> 32 bytes,
    little-endian canonical, fully reduced mod p". *)
Definition fiat_25519_to_bytes (f : limbs) : list Z :=
  le_encode 32 (eval f mod p25519).

(** Modelled from the spec: [fiat_25519_add] (header [curve25519_32.h] is
    missing).  "add: tight, tight -> loose; limb-wise". *)
Definition fiat_25519_add (f g : limbs) : limbs :=
  Limbs (u32 (v0 f + v0 g)) (u32 (v1 f + v1 g)) (u32 (v2 f + v2 g))
        (u32 (v3 f + v3 g)) (u32 (v4 f + v4 g)) (u32 (v5 f + v5 g))
        (u32 (v6 f + v6 g)) (u32 (v7 f + v7 g)) (u32 (v8 f + v8 g))
        (u32 (v9 f + v9 g)).

(** Modelled from the spec: [fiat_25519_sub] (header [curve25519_32.h] is
    missing).  "sub: tight, tight -> loose; limb-wise; sub adds 2p first to
    stay non-negative".  The limbs of [2p] are [0x7ffffda] for limb 0,
    [0x3fffffe] for odd limbs and [0x7fffffe] for the other even limbs. *)
Definition fiat_25519_sub (f g : limbs) : limbs :=
  Limbs (u32 (0x7ffffda + v0 f - v0 g)) (u32 (0x3fffffe + v1 f - v1 g))
        (u32 (0x7fffffe + v2 f - v2 g)) (u32 (0x3fffffe + v3 f - v3 g))
        (u32 (0x7fffffe + v4 f - v4 g)) (u32 (0x3fffffe + v5 f - v5 g))
        (u32 (0x7fffffe + v6 f - v6 g)) (u32 (0x3fffffe + v7 f - v7 g))
        (u32 (0x7fffffe + v8 f - v8 g)) (u32 (0x3fffffe + v9 f - v9 g)).

(** Modelled from the spec: [fiat_25519_opp] (header [curve25519_32.h] is
    missing).  "negate: tight -> loose; 2p - x". *)
Definition fiat_25519_opp (f : limbs) : limbs :=
  Limbs (u32 (0x7ffffda - v0 f)) (u32 (0x3fffffe - v1 f))
        (u32 (0x7fffffe - v2 f)) (u32 (0x3fffffe - v3 f))
        (u32 (0x7fffffe - v4 f)) (u32 (0x3fffffe - v5 f))
        (u32 (0x7fffffe - v6 f)) (u32 (0x3fffffe - v7 f))
        (u32 (0x7fffffe - v8 f)) (u32 (0x3fffffe - v9 f)).

(** Modelled from the spec: [fiat_25519_carry] (header [curve25519_32.h]
    is missing).  "carry: loose -> tight; propagates and reduces mod p":
    one pass of carries from limb 0 up to limb 9, the carry out of limb 9
    folded into limb 0 with the factor 19 ([2^255 = 19 mod p]), and two
    more carries out of limbs 0 and 1. *)
Definition fiat_25519_carry (f : limbs) : limbs :=
  let x1 := v0 f in
  let x2 := u32 (Z.shiftr x1 26 + v1 f) in
  let x3 := u32 (Z.shiftr x2 25 + v2 f) in
  let x4 := u32 (Z.shiftr x3 26 + v3 f) in
  let x5 := u32 (Z.shiftr x4 25 + v4 f) in
  let x6 := u32 (Z.shiftr x5 26 + v5 f) in
  let x7 := u32 (Z.shiftr x6 25 + v6 f) in
  let x8 := u32 (Z.shiftr x7 26 + v7 f) in
  let x9 := u32 (Z.shiftr x8 25 + v8 f) in
  let x10 := u32 (Z.shiftr x9 26 + v9 f) in
  let x11 := u32 (Z.land x1 0x3ffffff + u32 (Z.shiftr x10 25 * 19)) in
  let x12 := u32 (u1 (Z.shiftr x11 26) + Z.land x2 0x1ffffff) in
  let x13 := Z.land x11 0x3ffffff in
  let x14 := Z.land x12 0x1ffffff in
  let x15 := u32 (u1 (Z.shiftr x12 25) + Z.land x3 0x3ffffff) in
  Limbs x13 x14 x15
        (Z.land x4 0x1ffffff) (Z.land x5 0x3ffffff) (Z.land x6 0x1ffffff)
        (Z.land x7 0x3ffffff) (Z.land x8 0x1ffffff) (Z.land x9 0x3ffffff)
        (Z.land x10 0x1ffffff).

(** *** Multiplication

    Modelled from the spec: [fiat_25519_carry_mul] and
    [fiat_25519_carry_square] (header [curve25519_32.h] is missing).
    "mul, square: schoolbook with radix-reduction interleaved": the
    hundred limb products are gathered in ten 64-bit accumulators, a
    product that lands past limb 9 wrapping around with the factor 19 and
    a product of two odd limbs taking the factor 2 of the mixed radix;
    the accumulators are then carried into ten 32-bit limbs. *)

Definition mul_acc0 (f g : limbs) : Z :=
  u64 (
    v0 f * v0 g + v1 f * u32 (v9 g * 38) + v2 f * u32 (v8 g * 19)
    + v3 f * u32 (v7 g * 38) + v4 f * u32 (v6 g * 19)
    + v5 f * u32 (v5 g * 38) + v6 f * u32 (v4 g * 19)
    + v7 f * u32 (v3 g * 38) + v8 f * u32 (v2 g * 19)
    + v9 f * u32 (v1 g * 38)).

Definition mul_acc1 (f g : limbs) : Z :=
  u64 (
    v0 f * v1 g + v1 f * v0 g + v2 f * u32 (v9 g * 19)
    + v3 f * u32 (v8 g * 19) + v4 f * u32 (v7 g * 19)
    + v5 f * u32 (v6 g * 19) + v6 f * u32 (v5 g * 19)
    + v7 f * u32 (v4 g * 19) + v8 f * u32 (v3 g * 19)
    + v9 f * u32 (v2 g * 19)).

Definition mul_acc2 (f g : limbs) : Z :=
  u64 (
    v0 f * v2 g + v1 f * u32 (v1 g * 2) + v2 f * v0 g
    + v3 f * u32 (v9 g * 38) + v4 f * u32 (v8 g * 19)
    + v5 f * u32 (v7 g * 38) + v6 f * u32 (v6 g * 19)
    + v7 f * u32 (v5 g * 38) + v8 f * u32 (v4 g * 19)
    + v9 f * u32 (v3 g * 38)).

Definition mul_acc3 (f g : limbs) : Z :=
  u64 (
    v0 f * v3 g + v1 f * v2 g + v2 f * v1 g + v3 f * v0 g
    + v4 f * u32 (v9 g * 19) + v5 f * u32 (v8 g * 19)
    + v6 f * u32 (v7 g * 19) + v7 f * u32 (v6 g * 19)
    + v8 f * u32 (v5 g * 19) + v9 f * u32 (v4 g * 19)).

Definition mul_acc4 (f g : limbs) : Z :=
  u64 (
    v0 f * v4 g + v1 f * u32 (v3 g * 2) + v2 f * v2 g
    + v3 f * u32 (v1 g * 2) + v4 f * v0 g + v5 f * u32 (v9 g * 38)
    + v6 f * u32 (v8 g * 19) + v7 f * u32 (v7 g * 38)
    + v8 f * u32 (v6 g * 19) + v9 f * u32 (v5 g * 38)).

Definition mul_acc5 (f g : limbs) : Z :=
  u64 (
    v0 f * v5 g + v1 f * v4 g + v2 f * v3 g + v3 f * v2 g + v4 f * v1 g
    + v5 f * v0 g + v6 f * u32 (v9 g * 19) + v7 f * u32 (v8 g * 19)
    + v8 f * u32 (v7 g * 19) + v9 f * u32 (v6 g * 19)).

Definition mul_acc6 (f g : limbs) : Z :=
  u64 (
    v0 f * v6 g + v1 f * u32 (v5 g * 2) + v2 f * v4 g
    + v3 f * u32 (v3 g * 2) + v4 f * v2 g + v5 f * u32 (v1 g * 2)
    + v6 f * v0 g + v7 f * u32 (v9 g * 38) + v8 f * u32 (v8 g * 19)
    + v9 f * u32 (v7 g * 38)).

Definition mul_acc7 (f g : limbs) : Z :=
  u64 (
    v0 f * v7 g + v1 f * v6 g + v2 f * v5 g + v3 f * v4 g + v4 f * v3 g
    + v5 f * v2 g + v6 f * v1 g + v7 f * v0 g + v8 f * u32 (v9 g * 19)
    + v9 f * u32 (v8 g * 19)).

Definition mul_acc8 (f g : limbs) : Z :=
  u64 (
    v0 f * v8 g + v1 f * u32 (v7 g * 2) + v2 f * v6 g
    + v3 f * u32 (v5 g * 2) + v4 f * v4 g + v5 f * u32 (v3 g * 2)
    + v6 f * v2 g + v7 f * u32 (v1 g * 2) + v8 f * v0 g
    + v9 f * u32 (v9 g * 38)).

Definition mul_acc9 (f g : limbs) : Z :=
  u64 (
    v0 f * v9 g + v1 f * v8 g + v2 f * v7 g + v3 f * v6 g + v4 f * v5 g
    + v5 f * v4 g + v6 f * v3 g + v7 f * v2 g + v8 f * v1 g + v9 f * v0 g).

(** The carry chain at the end of a multiplication, on the ten 64-bit
    accumulators. *)
Definition carry_reduce64 (a0 a1 a2 a3 a4 a5 a6 a7 a8 a9 : Z) : limbs :=
  let c0 := Z.shiftr a0 26 in
  let r0 := u32 (Z.land a0 0x3ffffff) in
  let t1 := u64 (c0 + a1) in
  let c1 := Z.shiftr t1 25 in
  let r1 := u32 (Z.land t1 0x1ffffff) in
  let t2 := u64 (c1 + a2) in
  let c2 := Z.shiftr t2 26 in
  let r2 := u32 (Z.land t2 0x3ffffff) in
  let t3 := u64 (c2 + a3) in
  let c3 := Z.shiftr t3 25 in
  let r3 := u32 (Z.land t3 0x1ffffff) in
  let t4 := u64 (c3 + a4) in
  let c4 := Z.shiftr t4 26 in
  let r4 := u32 (Z.land t4 0x3ffffff) in
  let t5 := u64 (c4 + a5) in
  let c5 := Z.shiftr t5 25 in
  let r5 := u32 (Z.land t5 0x1ffffff) in
  let t6 := u64 (c5 + a6) in
  let c6 := Z.shiftr t6 26 in
  let r6 := u32 (Z.land t6 0x3ffffff) in
  let t7 := u64 (c6 + a7) in
  let c7 := Z.shiftr t7 25 in
  let r7 := u32 (Z.land t7 0x1ffffff) in
  let t8 := u64 (c7 + a8) in
  let c8 := Z.shiftr t8 26 in
  let r8 := u32 (Z.land t8 0x3ffffff) in
  let t9 := u64 (c8 + a9) in
  let c9 := Z.shiftr t9 25 in
  let r9 := u32 (Z.land t9 0x1ffffff) in
  let w := u64 (c9 * 19) in
  let s0 := u64 (r0 + w) in
  let d0 := u32 (Z.shiftr s0 26) in
  let o0 := u32 (Z.land s0 0x3ffffff) in
  let s1 := u32 (d0 + r1) in
  let d1 := u1 (Z.shiftr s1 25) in
  let o1 := Z.land s1 0x1ffffff in
  let o2 := u32 (d1 + r2) in
  Limbs o0 o1 o2 r3 r4 r5 r6 r7 r8 r9.

Definition fiat_25519_carry_mul (f g : limbs) : limbs :=
  carry_reduce64 (mul_acc0 f g) (mul_acc1 f g) (mul_acc2 f g) (mul_acc3 f g)
                 (mul_acc4 f g) (mul_acc5 f g) (mul_acc6 f g) (mul_acc7 f g)
                 (mul_acc8 f g) (mul_acc9 f g).

Definition fiat_25519_carry_square (f : limbs) : limbs :=
  fiat_25519_carry_mul f f.

(* ------------------------------------------------------------------ *)
(** ** Field constants of [ed25519.c] *)

Definition d : fe :=
  Limbs 56195235 13857412 51736253 6949390 114729 24766616 60832955 30306712
        48412415 21499315.

Definition sqrtm1 : fe :=
  Limbs 34513072 25610706 9377949 3500415 12389472 33281959 41962654
        31548777 326685 11406482.

Definition d2 : fe :=
  Limbs 45281625 27714825 36363642 13898781 229458 15978800 54557047
        27058993 29715967 9444199.

(* ------------------------------------------------------------------ *)
(** ** Field functions of [ed25519.c] *)

Definition limbs_0 : limbs := Limbs 0 0 0 0 0 0 0 0 0 0.

(** [fe_0], [fe_loose_0]: [memset(h, 0, sizeof(fe))]. *)
Definition fe_0 : fe := limbs_0.
Definition fe_loose_0 : fe_loose := limbs_0.

(** [fe_1], [fe_loose_1]: zero the limbs, then [h->v[0] = 1]. *)
Definition fe_1 : fe := Limbs 1 0 0 0 0 0 0 0 0 0.
Definition fe_loose_1 : fe_loose := Limbs 1 0 0 0 0 0 0 0 0 0.

Definition fe_copy (f : fe) : fe := f.
Definition fe_copy_lt (f : fe) : fe_loose := f.
Definition fe_copy_ll (f : fe_loose) : fe_loose := f.

(** [fe_frombytes_strict]: the assertion [(s[31] & 0x80) == 0] aborts the
    program when it fails, which is the result [None]. *)
Definition fe_frombytes_strict (s : list Z) : option fe :=
  if Z.land (nth 31 s 0) 0x80 =? 0 then Some (fiat_25519_from_bytes s)
  else None.

(** [fe_frombytes]: copy the buffer, [s_copy[31] &= 0x7f], decode. *)
Definition fe_frombytes (s : list Z) : option fe :=
  let s_copy := s in
  let s_copy := map_nth 31 (fun b => Z.land b 0x7f) s_copy in
  fe_frombytes_strict s_copy.

Definition fe_tobytes (f : fe) : list Z := fiat_25519_to_bytes f.

Definition fe_add (f g : fe) : fe_loose := fiat_25519_add f g.
Definition fe_sub (f g : fe) : fe_loose := fiat_25519_sub f g.
Definition fe_carry (f : fe_loose) : fe := fiat_25519_carry f.

Definition fe_mul_impl (in1 in2 : limbs) : limbs := fiat_25519_carry_mul in1 in2.
Definition fe_mul_ltt (f g : fe) : fe_loose := fe_mul_impl f g.
Definition fe_mul_llt (f : fe_loose) (g : fe) : fe_loose := fe_mul_impl f g.
Definition fe_mul_ttt (f g : fe) : fe := fe_mul_impl f g.
Definition fe_mul_tlt (f : fe_loose) (g : fe) : fe := fe_mul_impl f g.
Definition fe_mul_ttl (f : fe) (g : fe_loose) : fe := fe_mul_impl f g.
Definition fe_mul_tll (f g : fe_loose) : fe := fe_mul_impl f g.
Definition fe_sq_tl (f : fe_loose) : fe := fiat_25519_carry_square f.
Definition fe_sq_tt (f : fe) : fe := fiat_25519_carry_square f.

Definition fe_neg (f : fe) : fe_loose := fiat_25519_opp f.

(** [fe_cmov]: [b = 0 - b], then [f->v[i] ^= (f->v[i] ^ g->v[i]) & b] for
    each limb. *)
Definition fe_cmov (f g : fe_loose) (b : Z) : fe_loose :=
  let b := u32 (0 - b) in
  let mv x y := Z.lxor x (Z.land (Z.lxor x y) b) in
  Limbs (mv (v0 f) (v0 g)) (mv (v1 f) (v1 g)) (mv (v2 f) (v2 g))
        (mv (v3 f) (v3 g)) (mv (v4 f) (v4 g)) (mv (v5 f) (v5 g))
        (mv (v6 f) (v6 g)) (mv (v7 f) (v7 g)) (mv (v8 f) (v8 g))
        (mv (v9 f) (v9 g)).

(** [for (i = 1; i < n; ++i) fe_sq_tt(&t, &t);] runs [n - 1] squarings. *)
Definition sq_loop (n : nat) (t : fe) : fe := Nat.iter (n - 1) fe_sq_tt t.

Definition fe_loose_invert (z : fe_loose) : fe :=
  let t0 := fe_sq_tl z in
  let t1 := fe_sq_tt t0 in
  let t1 := sq_loop 2 t1 in
  let t1 := fe_mul_tlt z t1 in
  let t0 := fe_mul_ttt t0 t1 in
  let t2 := fe_sq_tt t0 in
  let t1 := fe_mul_ttt t1 t2 in
  let t2 := fe_sq_tt t1 in
  let t2 := sq_loop 5 t2 in
  let t1 := fe_mul_ttt t2 t1 in
  let t2 := fe_sq_tt t1 in
  let t2 := sq_loop 10 t2 in
  let t2 := fe_mul_ttt t2 t1 in
  let t3 := fe_sq_tt t2 in
  let t3 := sq_loop 20 t3 in
  let t2 := fe_mul_ttt t3 t2 in
  let t2 := fe_sq_tt t2 in
  let t2 := sq_loop 10 t2 in
  let t1 := fe_mul_ttt t2 t1 in
  let t2 := fe_sq_tt t1 in
  let t2 := sq_loop 50 t2 in
  let t2 := fe_mul_ttt t2 t1 in
  let t3 := fe_sq_tt t2 in
  let t3 := sq_loop 100 t3 in
  let t2 := fe_mul_ttt t3 t2 in
  let t2 := fe_sq_tt t2 in
  let t2 := sq_loop 50 t2 in
  let t1 := fe_mul_ttt t2 t1 in
  let t1 := fe_sq_tt t1 in
  let t1 := sq_loop 5 t1 in
  fe_mul_ttt t1 t0.

Definition fe_invert (z : fe) : fe :=
  let l := fe_copy_lt z in
  fe_loose_invert l.

(** [memcmp(s, zero, sizeof(zero)) != 0] over 32 bytes. *)
Definition memcmp_zero32 (s : list Z) : bool :=
  forallb (fun b => b =? 0) (firstn 32 s).

(** [fe_isnonzero]: 0 if [f == 0], 1 if [f != 0]. *)
Definition fe_isnonzero (f : fe_loose) : Z :=
  let tight := fe_carry f in
  let s := fe_tobytes tight in
  if memcmp_zero32 s then 0 else 1.

(** [fe_isnegative]: [s[0] & 1] of the encoding. *)
Definition fe_isnegative (f : fe) : Z :=
  let s := fe_tobytes f in
  Z.land (nth 0 s 0) 1.

Definition fe_sq2_tt (f : fe) : fe :=
  let h := fe_sq_tt f in
  let tmp := fe_add h h in
  fe_carry tmp.

Definition fe_pow22523 (z : fe) : fe :=
  let t0 := fe_sq_tt z in
  let t1 := fe_sq_tt t0 in
  let t1 := sq_loop 2 t1 in
  let t1 := fe_mul_ttt z t1 in
  let t0 := fe_mul_ttt t0 t1 in
  let t0 := fe_sq_tt t0 in
  let t0 := fe_mul_ttt t1 t0 in
  let t1 := fe_sq_tt t0 in
  let t1 := sq_loop 5 t1 in
  let t0 := fe_mul_ttt t1 t0 in
  let t1 := fe_sq_tt t0 in
  let t1 := sq_loop 10 t1 in
  let t1 := fe_mul_ttt t1 t0 in
  let t2 := fe_sq_tt t1 in
  let t2 := sq_loop 20 t2 in
  let t1 := fe_mul_ttt t2 t1 in
  let t1 := fe_sq_tt t1 in
  let t1 := sq_loop 10 t1 in
  let t0 := fe_mul_ttt t1 t0 in
  let t1 := fe_sq_tt t0 in
  let t1 := sq_loop 50 t1 in
  let t1 := fe_mul_ttt t1 t0 in
  let t2 := fe_sq_tt t1 in
  let t2 := sq_loop 100 t2 in
  let t1 := fe_mul_ttt t2 t1 in
  let t1 := fe_sq_tt t1 in
  let t1 := sq_loop 50 t1 in
  let t0 := fe_mul_ttt t1 t0 in
  let t0 := fe_sq_tt t0 in
  let t0 := sq_loop 2 t0 in
  fe_mul_ttt t0 z.

(* ------------------------------------------------------------------ *)
(** ** Group elements of [ed25519.c]

    [ge_p2] (projective): [(X:Y:Z)] with [x = X/Z], [y = Y/Z];
    [ge_p3] (extended): [(X:Y:Z:T)] with [XY = ZT];
    [ge_p1p1] (completed): [((X:Z),(Y:T))] with [x = X/Z], [y = Y/T];
    [ge_precomp]: [(y+x, y-x, 2dxy)];
    [ge_cached]: [(Y+X, Y-X, Z, 2dT)]. *)

Record ge_p2 : Set := Ge_p2 { p2_X : fe; p2_Y : fe; p2_Z : fe }.

Record ge_p3 : Set := Ge_p3 { p3_X : fe; p3_Y : fe; p3_Z : fe; p3_T : fe }.

Record ge_p1p1 : Set :=
  Ge_p1p1 { p1p1_X : fe_loose; p1p1_Y : fe_loose; p1p1_Z : fe_loose;
            p1p1_T : fe_loose }.

Record ge_precomp : Set :=
  Ge_precomp { yplusx : fe_loose; yminusx : fe_loose; xy2d : fe_loose }.

Record ge_cached : Set :=
  Ge_cached { YplusX : fe_loose; YminusX : fe_loose; cached_Z : fe_loose;
              T2d : fe_loose }.

Definition ge_p2_0 : ge_p2 := Ge_p2 fe_0 fe_1 fe_1.

Definition ge_p3_0 : ge_p3 := Ge_p3 fe_0 fe_1 fe_1 fe_0.

Definition ge_cached_0 : ge_cached :=
  Ge_cached fe_loose_1 fe_loose_1 fe_loose_1 fe_loose_0.

Definition ge_precomp_0 : ge_precomp :=
  Ge_precomp fe_loose_1 fe_loose_1 fe_loose_0.

Definition ge_p3_to_p2 (p : ge_p3) : ge_p2 :=
  Ge_p2 (fe_copy (p3_X p)) (fe_copy (p3_Y p)) (fe_copy (p3_Z p)).

Definition x25519_ge_p3_to_cached (p : ge_p3) : ge_cached :=
  Ge_cached (fe_add (p3_Y p) (p3_X p))
            (fe_sub (p3_Y p) (p3_X p))
            (fe_copy_lt (p3_Z p))
            (fe_mul_ltt (p3_T p) d2).

Definition x25519_ge_p1p1_to_p2 (p : ge_p1p1) : ge_p2 :=
  Ge_p2 (fe_mul_tll (p1p1_X p) (p1p1_T p))
        (fe_mul_tll (p1p1_Y p) (p1p1_Z p))
        (fe_mul_tll (p1p1_Z p) (p1p1_T p)).

Definition x25519_ge_p1p1_to_p3 (p : ge_p1p1) : ge_p3 :=
  Ge_p3 (fe_mul_tll (p1p1_X p) (p1p1_T p))
        (fe_mul_tll (p1p1_Y p) (p1p1_Z p))
        (fe_mul_tll (p1p1_Z p) (p1p1_T p))
        (fe_mul_tll (p1p1_X p) (p1p1_Y p)).

Definition ge_p1p1_to_cached (p : ge_p1p1) : ge_cached :=
  let t := x25519_ge_p1p1_to_p3 p in
  x25519_ge_p3_to_cached t.

Definition ge_p2_dbl (p : ge_p2) : ge_p1p1 :=
  let trX := fe_sq_tt (p2_X p) in
  let trZ := fe_sq_tt (p2_Y p) in
  let trT := fe_sq2_tt (p2_Z p) in
  let rY := fe_add (p2_X p) (p2_Y p) in
  let t0 := fe_sq_tl rY in
  let rY := fe_add trZ trX in
  let rZ := fe_sub trZ trX in
  let trZ := fe_carry rY in
  let rX := fe_sub t0 trZ in
  let trZ := fe_carry rZ in
  let rT := fe_sub trT trZ in
  Ge_p1p1 rX rY rZ rT.

(** [s[31] ^= fe_isnegative(&x) << 7] on a [uint8_t] buffer. *)
Definition xor_sign (s : list Z) (neg : Z) : list Z :=
  map_nth 31 (fun b => u8 (Z.lxor b (Z.shiftl neg 7))) s.

Definition x25519_ge_tobytes (h : ge_p2) : list Z :=
  let recip := fe_invert (p2_Z h) in
  let x := fe_mul_ttt (p2_X h) recip in
  let y := fe_mul_ttt (p2_Y h) recip in
  let s := fe_tobytes y in
  xor_sign s (fe_isnegative x).

Definition ge_p3_tobytes (h : ge_p3) : list Z :=
  let recip := fe_invert (p3_Z h) in
  let x := fe_mul_ttt (p3_X h) recip in
  let y := fe_mul_ttt (p3_Y h) recip in
  let s := fe_tobytes y in
  xor_sign s (fe_isnegative x).

Definition ge_madd (p : ge_p3) (q : ge_precomp) : ge_p1p1 :=
  let rX := fe_add (p3_Y p) (p3_X p) in
  let rY := fe_sub (p3_Y p) (p3_X p) in
  let trZ := fe_mul_tll rX (yplusx q) in
  let trY := fe_mul_tll rY (yminusx q) in
  let trT := fe_mul_tlt (xy2d q) (p3_T p) in
  let rT := fe_add (p3_Z p) (p3_Z p) in
  let rX := fe_sub trZ trY in
  let rY := fe_add trZ trY in
  let trZ := fe_carry rT in
  let rZ := fe_add trZ trT in
  let rT := fe_sub trZ trT in
  Ge_p1p1 rX rY rZ rT.

Definition ge_msub (p : ge_p3) (q : ge_precomp) : ge_p1p1 :=
  let rX := fe_add (p3_Y p) (p3_X p) in
  let rY := fe_sub (p3_Y p) (p3_X p) in
  let trZ := fe_mul_tll rX (yminusx q) in
  let trY := fe_mul_tll rY (yplusx q) in
  let trT := fe_mul_tlt (xy2d q) (p3_T p) in
  let rT := fe_add (p3_Z p) (p3_Z p) in
  let rX := fe_sub trZ trY in
  let rY := fe_add trZ trY in
  let trZ := fe_carry rT in
  let rZ := fe_sub trZ trT in
  let rT := fe_add trZ trT in
  Ge_p1p1 rX rY rZ rT.

Definition x25519_ge_add (p : ge_p3) (q : ge_cached) : ge_p1p1 :=
  let rX := fe_add (p3_Y p) (p3_X p) in
  let rY := fe_sub (p3_Y p) (p3_X p) in
  let trZ := fe_mul_tll rX (YplusX q) in
  let trY := fe_mul_tll rY (YminusX q) in
  let trT := fe_mul_tlt (T2d q) (p3_T p) in
  let trX := fe_mul_ttl (p3_Z p) (cached_Z q) in
  let rT := fe_add trX trX in
  let rX := fe_sub trZ trY in
  let rY := fe_add trZ trY in
  let trZ := fe_carry rT in
  let rZ := fe_add trZ trT in
  let rT := fe_sub trZ trT in
  Ge_p1p1 rX rY rZ rT.

(** *** Standard output

    What [printf] writes: string literals and integers printed by [%d]. *)
Inductive out_item : Set :=
| OutStr (s : string)
| OutInt (n : Z).

(** The string ["\n"]. *)
Definition newline : string := String (Ascii.ascii_of_nat 10) EmptyString.

(** A [uint32_t] handed to [%d] is read as an [int]. *)
Definition as_int (x : Z) : Z :=
  if x mod 2 ^ 32 <? 2 ^ 31 then x mod 2 ^ 32 else x mod 2 ^ 32 - 2 ^ 32.

(** [for (int i = 0; i < 10; ++i) printf("%d ", f.v[i]);] *)
Definition print_limbs (f : limbs) : list out_item :=
  flat_map (fun x => [OutInt (as_int x); OutStr " "])
    [v0 f; v1 f; v2 f; v3 f; v4 f; v5 f; v6 f; v7 f; v8 f; v9 f].

(** [x25519_ge_sub]: the result and what the call writes to standard
    output. *)
Definition x25519_ge_sub (p : ge_p3) (q : ge_cached) : ge_p1p1 * list out_item :=
  let rX := fe_add (p3_Y p) (p3_X p) in
  let rY := fe_sub (p3_Y p) (p3_X p) in
  let trZ := fe_mul_tll rX (YminusX q) in
  let trY := fe_mul_tll rY (YplusX q) in
  let trT := fe_mul_tlt (T2d q) (p3_T p) in
  let trX := fe_mul_ttl (p3_Z p) (cached_Z q) in
  let rT := fe_add trX trX in
  let rX := fe_sub trZ trY in
  let rY := fe_add trZ trY in
  let out := [OutStr "BEFORE: "] ++ print_limbs rT ++ [OutStr newline] in
  let trZ := fe_carry rT in
  let out := out ++ [OutStr "AFTER: "] ++ print_limbs trZ
                 ++ [OutStr newline] in
  let rZ := fe_sub trZ trT in
  let rT := fe_add trZ trT in
  (Ge_p1p1 rX rY rZ rT, out).

(** [x25519_ge_sub] with the two blocks of [printf] calls taken out. *)
Definition x25519_ge_sub_quiet (p : ge_p3) (q : ge_cached) : ge_p1p1 :=
  let rX := fe_add (p3_Y p) (p3_X p) in
  let rY := fe_sub (p3_Y p) (p3_X p) in
  let trZ := fe_mul_tll rX (YminusX q) in
  let trY := fe_mul_tll rY (YplusX q) in
  let trT := fe_mul_tlt (T2d q) (p3_T p) in
  let trX := fe_mul_ttl (p3_Z p) (cached_Z q) in
  let rT := fe_add trX trX in
  let rX := fe_sub trZ trY in
  let rY := fe_add trZ trY in
  let trZ := fe_carry rT in
  let rZ := fe_sub trZ trT in
  let rT := fe_add trZ trT in
  Ge_p1p1 rX rY rZ rT.

(** [x25519_ge_frombytes_vartime]: the return value and the contents of
    [*h] on return; [h] is [*h] on entry.  [None] is an aborted run (the
    assertion under [fe_frombytes]). *)
Definition x25519_ge_frombytes_vartime (h : ge_p3) (s : list Z)
  : option (Z * ge_p3) :=
  match fe_frombytes s with
  | None => None
  | Some hY =>
      let hZ := fe_1 in
      let v3 := fe_sq_tt hY in
      let vxx := fe_mul_ttt v3 d in
      let v := fe_sub v3 hZ in
      let u := fe_carry v in
      let v := fe_add vxx hZ in
      let v3 := fe_sq_tl v in
      let v3 := fe_mul_ttl v3 v in
      let hX := fe_sq_tt v3 in
      let hX := fe_mul_ttl hX v in
      let hX := fe_mul_ttt hX u in
      let hX := fe_pow22523 hX in
      let hX := fe_mul_ttt hX v3 in
      let hX := fe_mul_ttt hX u in
      let vxx := fe_sq_tt hX in
      let vxx := fe_mul_ttl vxx v in
      let check := fe_sub vxx u in
      let fixup (hX : fe) : Z * ge_p3 :=
        let hX :=
          if negb (fe_isnegative hX =? Z.shiftr (nth 31 s 0) 7) then
            let t := fe_neg hX in
            fe_carry t
          else hX in
        let hT := fe_mul_ttt hX hY in
        (1, Ge_p3 hX hY hZ hT) in
      if negb (fe_isnonzero check =? 0) then
        let check := fe_add vxx u in
        if negb (fe_isnonzero check =? 0) then
          Some (0, Ge_p3 hX hY hZ (p3_T h))
        else
          let hX := fe_mul_ttt hX sqrtm1 in
          Some (fixup hX)
      else Some (fixup hX)
  end.

(* ------------------------------------------------------------------ *)
(** ** The field GF(p) and the curve *)

(** The field of integers modulo [p = 2^255 - 19]. *)
Notation GF := (Zmod p25519).

(** The field element a limb array represents. *)
Definition fval (f : limbs) : GF := Zmod.of_Z p25519 (eval f).

(** The curve constant [d = -121665/121666], as the code has it. *)
Definition curve_d : GF := fval d.

(** The curve [-x^2 + y^2 = 1 + d x^2 y^2]. *)
Definition on_curve (x y : GF) : Prop :=
  Zmod.add (Zmod.opp (Zmod.mul x x)) (Zmod.mul y y)
  = Zmod.add Zmod.one (Zmod.mul curve_d (Zmod.mul (Zmod.mul x x) (Zmod.mul y y))).

(** Sign of a field element: the low bit of its canonical encoding. *)
Definition fsign (x : GF) : Z := Zmod.to_Z x mod 2.

(** The square root of [-1] of the code. *)
Definition sqrt_m1 : GF := fval sqrtm1.

(** *** Point decoding, as specified

    Parse [y] from the low 255 bits and the sign of [x] from bit 7 of byte
    31; [u = y^2 - 1], [v = d y^2 + 1]; candidate
    [x = (u v^3) (u v^7)^((p-5)/8)]; accept when [v x^2] is [u] or [-u],
    multiplying [x] by the square root of [-1] in the latter case; negate
    [x] when its low bit disagrees with the sign bit. *)

Definition decode_y (s : list Z) : GF := Zmod.of_Z p25519 (le_decode s mod 2 ^ 255).

Definition decode_sign (s : list Z) : Z := Z.shiftr (nth 31 s 0) 7.

Definition decode_u (y : GF) : GF := Zmod.sub (Zmod.mul y y) Zmod.one.

Definition decode_v (y : GF) : GF :=
  Zmod.add (Zmod.mul curve_d (Zmod.mul y y)) Zmod.one.

Definition decode_candidate (y : GF) : GF :=
  let u := decode_u y in
  let v := decode_v y in
  let v3 := Zmod.mul (Zmod.mul v v) v in
  let v7 := Zmod.mul (Zmod.mul v3 v3) v in
  Zmod.mul (Zmod.mul u v3) (Zmod.pow (Zmod.mul u v7) ((p25519 - 5) / 8)).

Definition fix_sign (x : GF) (sign : Z) : GF :=
  if fsign x =? sign then x else Zmod.opp x.

Definition decode_spec (s : list Z) : option (GF * GF) :=
  let y := decode_y s in
  let u := decode_u y in
  let v := decode_v y in
  let x := decode_candidate y in
  let vxx := Zmod.mul v (Zmod.mul x x) in
  if Zmod.eqb vxx u then Some (fix_sign x (decode_sign s), y)
  else if Zmod.eqb vxx (Zmod.opp u) then
    Some (fix_sign (Zmod.mul x sqrt_m1) (decode_sign s), y)
  else None.

(** *** Point encoding, as specified

    The canonical little-endian serialization of [y] with the top bit of
    the last byte set to the sign of [x]. *)
Definition encode_spec (x y : GF) : list Z :=
  map_nth 31 (fun b => b mod 128 + 128 * fsign x) (le_encode 32 (Zmod.to_Z y)).

(** *** The group law on affine points

    Addition on [-x^2 + y^2 = 1 + d x^2 y^2]:
    [(x1,y1) + (x2,y2)
     = ((x1 y2 + y1 x2)/(1 + d x1 x2 y1 y2),
        (y1 y2 + x1 x2)/(1 - d x1 x2 y1 y2))],
    with neutral element [(0,1)] and [-(x,y) = (-x,y)]. *)

Definition ed_add (P Q : GF * GF) : GF * GF :=
  let (x1, y1) := P in
  let (x2, y2) := Q in
  let e := Zmod.mul curve_d (Zmod.mul (Zmod.mul x1 x2) (Zmod.mul y1 y2)) in
  (Zmod.mdiv (Zmod.add (Zmod.mul x1 y2) (Zmod.mul y1 x2)) (Zmod.add Zmod.one e),
   Zmod.mdiv (Zmod.add (Zmod.mul y1 y2) (Zmod.mul x1 x2)) (Zmod.sub Zmod.one e)).

Definition ed_neg (P : GF * GF) : GF * GF := (Zmod.opp (fst P), snd P).

Definition ed_sub (P Q : GF * GF) : GF * GF := ed_add P (ed_neg Q).

Definition ed_zero : GF * GF := (Zmod.zero, Zmod.one).

(** A projective point [(X:Y:Z)] represents [(x,y)]: [Z <> 0], [x = X/Z],
    [y = Y/Z]. *)
Definition p2_repr (h : ge_p2) (P : GF * GF) : Prop :=
  fval (p2_Z h) <> Zmod.zero /\
  fval (p2_X h) = Zmod.mul (fval (p2_Z h)) (fst P) /\
  fval (p2_Y h) = Zmod.mul (fval (p2_Z h)) (snd P).

(** An extended point [(X:Y:Z:T)] represents [(x,y)]: as a projective
    point, and [XY = ZT]. *)
Definition p3_repr (h : ge_p3) (P : GF * GF) : Prop :=
  fval (p3_Z h) <> Zmod.zero /\
  fval (p3_X h) = Zmod.mul (fval (p3_Z h)) (fst P) /\
  fval (p3_Y h) = Zmod.mul (fval (p3_Z h)) (snd P) /\
  Zmod.mul (fval (p3_X h)) (fval (p3_Y h))
  = Zmod.mul (fval (p3_Z h)) (fval (p3_T h)).

(** A completed point [((X:Z),(Y:T))] represents [(x,y)]: [x = X/Z],
    [y = Y/T]. *)
Definition p1p1_repr (r : ge_p1p1) (P : GF * GF) : Prop :=
  fval (p1p1_Z r) <> Zmod.zero /\ fval (p1p1_T r) <> Zmod.zero /\
  fval (p1p1_X r) = Zmod.mul (fval (p1p1_Z r)) (fst P) /\
  fval (p1p1_Y r) = Zmod.mul (fval (p1p1_T r)) (snd P).

(** A cached point [(Y+X, Y-X, Z, 2dT)] represents [(x,y)]: it is the
    cached form of an extended point [(X:Y:Z:T)] that does. *)
Definition cached_repr (q : ge_cached) (P : GF * GF) : Prop :=
  let z := fval (cached_Z q) in
  z <> Zmod.zero /\
  fval (YplusX q) = Zmod.mul z (Zmod.add (snd P) (fst P)) /\
  fval (YminusX q) = Zmod.mul z (Zmod.sub (snd P) (fst P)) /\
  fval (T2d q)
  = Zmod.mul (Zmod.add curve_d curve_d) (Zmod.mul z (Zmod.mul (fst P) (snd P))).

(** Bounds of the group elements: the limbs of [fe] fields are tight,
    those of [fe_loose] fields loose. *)
Definition p2_bounded (h : ge_p2) : Prop :=
  tight (p2_X h) /\ tight (p2_Y h) /\ tight (p2_Z h).

Definition p3_bounded (h : ge_p3) : Prop :=
  tight (p3_X h) /\ tight (p3_Y h) /\ tight (p3_Z h) /\ tight (p3_T h).

Definition p1p1_bounded (r : ge_p1p1) : Prop :=
  loose (p1p1_X r) /\ loose (p1p1_Y r) /\ loose (p1p1_Z r) /\ loose (p1p1_T r).

Definition cached_bounded (q : ge_cached) : Prop :=
  loose (YplusX q) /\ loose (YminusX q) /\ loose (cached_Z q) /\ loose (T2d q).

(** Two completed points with the same four field elements. *)
Definition p1p1_same (r r' : ge_p1p1) : Prop :=
  fval (p1p1_X r) = fval (p1p1_X r') /\ fval (p1p1_Y r) = fval (p1p1_Y r') /\
  fval (p1p1_Z r) = fval (p1p1_Z r') /\ fval (p1p1_T r) = fval (p1p1_T r').

(* ------------------------------------------------------------------ *)
(** ** Checking primality *)

(** Modular exponentiation by squaring. *)
Fixpoint powmod_pos (a : Z) (e : positive) (n : Z) : Z :=
  match e with
  | xH => a mod n
  | xO e' => let t := powmod_pos a e' n in (t * t) mod n
  | xI e' => let t := powmod_pos a e' n in (a * ((t * t) mod n)) mod n
  end.

Definition powmod (a e n : Z) : Z :=
  match e with
  | Zpos e' => powmod_pos a e' n
  | _ => 1 mod n
  end.

(** Trial division from [d] upwards: no divisor [k] of [n] with
    [d <= k] and [k * k <= n]. *)
Fixpoint no_divisor (fuel : nat) (d n : Z) : bool :=
  if n <? d * d then true
  else
    match fuel with
    | O => false
    | S fuel' => if n mod d =? 0 then false else no_divisor fuel' (d + 1) n
    end.

Definition small_prime (n : Z) : bool := (1 <? n) && no_divisor 2000 2 n.

(** One line of a Pocklington certificate for [n]: a prime power [q^e]
    dividing [n - 1] and a witness [a]. *)
Definition pock_line (n : Z) (c : Z * Z * Z) : bool :=
  let '(q, e, a) := c in
  (0 <? e) && ((n - 1) mod q ^ e =? 0) && (powmod a (n - 1) n =? 1)
  && (Z.gcd (powmod a ((n - 1) / q) n - 1) n =? 1).

Definition pock_factor (cs : list (Z * Z * Z)) : Z :=
  fold_right (fun c acc => let '(q, e, _) := c in Z.lcm (q ^ e) acc) 1 cs.

Definition pock_check (n : Z) (cs : list (Z * Z * Z)) : bool :=
  (1 <? n) && forallb (pock_line n) cs
  && (n <? pock_factor cs * pock_factor cs).

(** The residue of [a] as a unit modulo [r]. *)
Definition pock_x (r a : Z) : Zstar r := Zstar.of_Zmod (Zmod.of_Z r a).

(** The value of ten accumulators at the ten limb weights. *)
Definition eval10 (a0 a1 a2 a3 a4 a5 a6 a7 a8 a9 : Z) : Z :=
  a0 + 2 ^ 26 * a1 + 2 ^ 51 * a2 + 2 ^ 77 * a3 + 2 ^ 102 * a4
  + 2 ^ 128 * a5 + 2 ^ 153 * a6 + 2 ^ 179 * a7 + 2 ^ 204 * a8
  + 2 ^ 230 * a9.

(** [f] is a loose representation of [x^e]. *)
Definition repr (f : limbs) (x e : Z) : Prop :=
  loose f /\ 0 <= e /\ feval f = x ^ e mod p25519.

(** Peel one [let] of an addition chain: establish what the bound value
    represents, with its exponent computed, and carry on with the body. *)
(** A tight representation of [x^e]. *)
Definition trepr (f : limbs) (x e : Z) : Prop := tight f /\ repr f x e.

(** The result of decoding, against the specified decoding. *)
Definition decode_ok (s : list Z) (r : option (Z * ge_p3)) : Prop :=
  match decode_spec s with
  | Some (x, y) =>
      exists h', r = Some (1, h') /\ fval (p3_X h') = x /\ fval (p3_Y h') = y /\
                 p3_Z h' = fe_1 /\ fval (p3_T h') = Zmod.mul x y /\
                 tight (p3_X h') /\ tight (p3_Y h') /\ tight (p3_T h')
  | None => exists h', r = Some (0, h')
  end.

#[local] Notation GF1 := (Zmod.one : GF).

(** What [x25519_ge_add] computes, on field elements. *)
Definition add_values (p : ge_p3) (q : ge_cached) (r : ge_p1p1) : Prop :=
  let X := fval (p3_X p) in let Y := fval (p3_Y p) in
  let Z := fval (p3_Z p) in let T := fval (p3_T p) in
  p1p1_bounded r /\
  (fval (p1p1_X r) = (Y + X) * fval (YplusX q) - (Y - X) * fval (YminusX q) /\
   fval (p1p1_Y r) = (Y + X) * fval (YplusX q) + (Y - X) * fval (YminusX q) /\
   fval (p1p1_Z r) = (Z * fval (cached_Z q) + Z * fval (cached_Z q)) + fval (T2d q) * T /\
   fval (p1p1_T r) = (Z * fval (cached_Z q) + Z * fval (cached_Z q)) - fval (T2d q) * T)%Zmod.

(** What [x25519_ge_sub] computes, on field elements. *)
Definition sub_values (p : ge_p3) (q : ge_cached) (r : ge_p1p1) : Prop :=
  let X := fval (p3_X p) in let Y := fval (p3_Y p) in
  let Z := fval (p3_Z p) in let T := fval (p3_T p) in
  p1p1_bounded r /\
  (fval (p1p1_X r) = (Y + X) * fval (YminusX q) - (Y - X) * fval (YplusX q) /\
   fval (p1p1_Y r) = (Y + X) * fval (YminusX q) + (Y - X) * fval (YplusX q) /\
   fval (p1p1_Z r) = (Z * fval (cached_Z q) + Z * fval (cached_Z q)) - fval (T2d q) * T /\
   fval (p1p1_T r) = (Z * fval (cached_Z q) + Z * fval (cached_Z q)) + fval (T2d q) * T)%Zmod.

(** The encoding of the prime itself: [ed ff ... ff 7f]. *)
Definition bytes_of_p : list Z :=
  [237; 255; 255; 255; 255; 255; 255; 255; 255; 255; 255; 255; 255; 255; 255; 255;
   255; 255; 255; 255; 255; 255; 255; 255; 255; 255; 255; 255; 255; 255; 255; 127].

(** A buffer of 32 small bytes: [01 02 ... 20]. *)
Definition sample_bytes : list Z :=
  [1; 2; 3; 4; 5; 6; 7; 8; 9; 10; 11; 12; 13; 14; 15; 16;
   17; 18; 19; 20; 21; 22; 23; 24; 25; 26; 27; 28; 29; 30; 31; 32].

(** The all-[ff] buffer. *)
Definition ff_bytes : list Z := repeat 255 32.

(** A loose representation of zero: [1 - 1] computed by [fe_sub]. *)
Definition zero_by_sub : fe_loose := fe_sub fe_1 fe_1.

(** The encoding of the base point of Ed25519: [58 66 66 ... 66]. *)
Definition base_bytes : list Z := 0x58 :: repeat 0x66 31.

(** The all-[0x02] buffer, which encodes no point. *)
Definition junk_bytes : list Z := repeat 2 32.

(** The extended point the code decodes the base point to. *)
Definition decoded_base : ge_p3 :=
  Ge_p3
    (Limbs 52811034 25909283 16144682 17082669 27570973 30858332 40966398
           8378388 20764389 8758491)
    (Limbs 40265304 26843545 13421772 20132659 26843545 6710886 53687091
           13421772 40265318 26843545)
    (Limbs 1 0 0 0 0 0 0 0 0 0)
    (Limbs 28827043 27438313 39759291 244362 8635006 11264893 19351346
           13413597 16611511 27139452).

(** Limbs that fit their [uint32_t] cells. *)
Definition limbs_u32 (f : limbs) : Prop := bounded (2 ^ 32 - 1) (2 ^ 32 - 1) f.

(** Limbs used as inputs of the examples. *)
Definition sample_limbs : fe_loose :=
  Limbs 4294967295 1 2 3 4 5 6 7 8 221459250.

(** A precomputed point [(y+x, y-x, 2dxy)] represents the affine point
    [(x,y)]. *)
Definition precomp_repr (q : ge_precomp) (P : GF * GF) : Prop :=
  fval (yplusx q) = Zmod.add (snd P) (fst P) /\
  fval (yminusx q) = Zmod.sub (snd P) (fst P) /\
  fval (xy2d q) = Zmod.mul (Zmod.add curve_d curve_d) (Zmod.mul (fst P) (snd P)).

Definition precomp_bounded (q : ge_precomp) : Prop :=
  loose (yplusx q) /\ loose (yminusx q) /\ loose (xy2d q).

(** The affine point the base point decodes to. *)
Definition base_point : GF * GF :=
  (fval (p3_X decoded_base), fval (p3_Y decoded_base)).

(** The precomputed form [(y+x, y-x, 2dxy)] of the base point. *)
Definition base_precomp : ge_precomp :=
  Ge_precomp
    (fe_add (p3_Y decoded_base) (p3_X decoded_base))
    (fe_sub (p3_Y decoded_base) (p3_X decoded_base))
    (fe_mul_ltt (p3_T decoded_base) d2).

(** What [ge_p2_dbl] computes, on field elements. *)
Definition dbl_values (p : ge_p2) (r : ge_p1p1) : Prop :=
  let X := fval (p2_X p) in let Y := fval (p2_Y p) in let Z := fval (p2_Z p) in
  p1p1_bounded r /\
  (fval (p1p1_X r) = (X + Y) * (X + Y) - (Y * Y + X * X) /\
   fval (p1p1_Y r) = Y * Y + X * X /\
   fval (p1p1_Z r) = Y * Y - X * X /\
   fval (p1p1_T r) = (Z * Z + Z * Z) - (Y * Y - X * X))%Zmod.

(** The completed point [2 B] of the base point, as the examples use it. *)
Definition dbl_base : ge_p1p1 := ge_p2_dbl (ge_p3_to_p2 decoded_base).

Definition dbl_base_point : GF * GF :=
  (Zmod.mdiv (fval (p1p1_X dbl_base)) (fval (p1p1_Z dbl_base)),
   Zmod.mdiv (fval (p1p1_Y dbl_base)) (fval (p1p1_T dbl_base))).

(** What [ge_madd] computes, on field elements. *)
Definition madd_values (p : ge_p3) (q : ge_precomp) (r : ge_p1p1) : Prop :=
  let X := fval (p3_X p) in let Y := fval (p3_Y p) in
  let Z := fval (p3_Z p) in let T := fval (p3_T p) in
  p1p1_bounded r /\
  (fval (p1p1_X r) = (Y + X) * fval (yplusx q) - (Y - X) * fval (yminusx q) /\
   fval (p1p1_Y r) = (Y + X) * fval (yplusx q) + (Y - X) * fval (yminusx q) /\
   fval (p1p1_Z r) = (Z + Z) + fval (xy2d q) * T /\
   fval (p1p1_T r) = (Z + Z) - fval (xy2d q) * T)%Zmod.

(** What [ge_msub] computes, on field elements. *)
Definition msub_values (p : ge_p3) (q : ge_precomp) (r : ge_p1p1) : Prop :=
  let X := fval (p3_X p) in let Y := fval (p3_Y p) in
  let Z := fval (p3_Z p) in let T := fval (p3_T p) in
  p1p1_bounded r /\
  (fval (p1p1_X r) = (Y + X) * fval (yminusx q) - (Y - X) * fval (yplusx q) /\
   fval (p1p1_Y r) = (Y + X) * fval (yminusx q) + (Y - X) * fval (yplusx q) /\
   fval (p1p1_Z r) = (Z + Z) - fval (xy2d q) * T /\
   fval (p1p1_T r) = (Z + Z) + fval (xy2d q) * T)%Zmod.

(** The neutral element with the sign bit set: [01 00 ... 00 80]. *)
Definition signed_zero_bytes : list Z := 1 :: repeat 0 30 ++ [128].

(** What the code decodes [signed_zero_bytes] to: [X] holds the limbs of
    [p], which represent 0. *)
Definition decoded_signed_zero : ge_p3 :=
  Ge_p3
    (Limbs 67108845 33554431 67108863 33554431 67108863 33554431 67108863
           33554431 67108863 33554431)
    (Limbs 1 0 0 0 0 0 0 0 0 0)
    (Limbs 1 0 0 0 0 0 0 0 0 0)
    (Limbs 67108845 33554431 67108863 33554431 67108863 33554431 67108863
           33554431 67108863 33554431).

(** [size_t] arithmetic wraps around; 64 bits on the host of the test
    program. *)
Definition size_t (x : Z) : Z := x mod 2 ^ 64.

(** [char map[16+1] = "0123456789ABCDEF"], with its terminator. *)
Definition hex_map : list ascii :=
  (list_ascii_of_string "0123456789ABCDEF" ++ [Ascii.zero])%list.

(** [*out = c; out++]: [out] walks the buffer [buf] from its start, and
    [w] is what has been stored through it so far, so that the buffer
    holds [w ++ skipn (length w) buf]; a store at or beyond the end of the
    buffer is the result [None]. *)
Definition put (buf w : list ascii) (c : ascii) : option (list ascii) :=
  if (length w <? length buf)%nat then Some (w ++ [c])%list else None.

(** The loop of [hexify]: the characters stored and [bytes_written] (an
    [int], which the sizes considered below do not overflow).  A load
    outside of [inp] is the result [None]; the loop runs at most [in_size]
    times, which is what [fuel] counts. *)
Fixpoint hexify_loop (fuel : nat) (inp : list Z) (in_size : Z)
    (buf : list ascii) (out_size : Z) (i : Z) (w : list ascii)
    (bytes_written : Z) : option (list ascii * Z) :=
  if (i <? in_size) && (size_t (size_t (i * 2) + (2 + 1)) <=? out_size) then
    match fuel with
    | O => None
    | S fuel' =>
        match nth_error inp (Z.to_nat i) with
        | None => None
        | Some b =>
            let high_nibble := u8 (Z.shiftr (Z.land b 0xF0) 4) in
            match put buf w (nth (Z.to_nat high_nibble) hex_map Ascii.zero) with
            | None => None
            | Some w =>
                let low_nibble := u8 (Z.land b 0x0F) in
                match put buf w (nth (Z.to_nat low_nibble) hex_map Ascii.zero) with
                | None => None
                | Some w =>
                    let i := size_t (i + 1) in
                    let bytes_written := bytes_written + 2 in
                    hexify_loop fuel' inp in_size buf out_size i w bytes_written
                end
            end
        end
    end
  else Some (w, bytes_written).

(** [hexify]: the return value and the contents of the buffer [out] on
    return; [buf] is the buffer on entry. *)
Definition hexify (inp : list Z) (in_size : Z) (buf : list ascii) (out_size : Z)
  : option (Z * list ascii) :=
  if (in_size =? 0) || (out_size =? 0) then Some (0, buf)
  else
    match hexify_loop (Z.to_nat in_size) inp in_size buf out_size 0 [] 0 with
    | None => None
    | Some (w, bytes_written) =>
        match put buf w Ascii.zero with
        | None => None
        | Some w => Some (bytes_written, (w ++ skipn (length w) buf)%list)
        end
    end.

(** The two hexadecimal digits of a byte, and those of a list of bytes. *)
Definition hex_byte (b : Z) : list ascii :=
  [nth (Z.to_nat (b / 16)) hex_map Ascii.zero;
   nth (Z.to_nat (b mod 16)) hex_map Ascii.zero].

Definition hexes (l : list Z) : list ascii := flat_map hex_byte l.

(** The position of a character in [hex_map], and the byte two digits
    stand for. *)
Fixpoint index_of (c : ascii) (l : list ascii) : Z :=
  match l with
  | [] => 0
  | a :: l' => if Ascii.eqb a c then 0 else 1 + index_of c l'
  end.

Definition byte_of_hex (cs : list ascii) : Z :=
  match cs with
  | [c1; c2] => 16 * index_of c1 hex_map + index_of c2 hex_map
  | _ => 0
  end.

(** How many bytes [hexify] converts. *)
Definition hexify_count (in_size out_size : Z) : Z :=
  Z.min in_size ((out_size - 1) / 2).

(** Sample input of the examples: the first bytes of [kPassword]. *)
Definition sample_input : list Z := [0x35; 0x39; 0x32; 0xe6; 0x3d].

Definition sample_buffer : list ascii := repeat "x"%char 8.

(** The two lines of output: the limbs of [a] before the carry and of
    [b] after it, both representing [2 Z_p Z_q]. *)
Definition sub_output (p : ge_p3) (q : ge_cached)
    (r : ge_p1p1 * list out_item) : Prop :=
  exists a b : limbs,
    snd r = (([OutStr "BEFORE: "] ++ print_limbs a ++ [OutStr newline])
             ++ [OutStr "AFTER: "] ++ print_limbs b ++ [OutStr newline])%list /\
    loose a /\ tight b /\ b = fe_carry a /\ fval b = fval a /\
    fval a = Zmod.add (Zmod.mul (fval (p3_Z p)) (fval (cached_Z q)))
                      (Zmod.mul (fval (p3_Z p)) (fval (cached_Z q))).

(** The cached form of [2 B], and the same with [YplusX] and [YminusX]
    swapped and [T2d] negated. *)
Definition double_base_cached : ge_cached := ge_p1p1_to_cached dbl_base.

Definition double_base_cached_neg : ge_cached :=
  Ge_cached (YminusX double_base_cached) (YplusX double_base_cached)
            (cached_Z double_base_cached) (fe_neg (T2d double_base_cached)).

(* ================================================================== *)
(** * Properties *)

(* ------------------------------------------------------------------ *)
(** ** Machine integers: wrap-around vanishes within range *)

Lemma u32_small (x : Z) : 0 <= x < 2 ^ 32 -> u32 x = x.
Proof. intros H. unfold u32. apply Z.mod_small. exact H. Qed.

Lemma u64_small (x : Z) : 0 <= x < 2 ^ 64 -> u64 x = x.
Proof. intros H. unfold u64. apply Z.mod_small. exact H. Qed.

Lemma shiftr_26 (x : Z) : Z.shiftr x 26 = x / 2 ^ 26.
Proof. apply Z.shiftr_div_pow2. lia. Qed.

Lemma shiftr_25 (x : Z) : Z.shiftr x 25 = x / 2 ^ 25.
Proof. apply Z.shiftr_div_pow2. lia. Qed.

Lemma land_26 (x : Z) : Z.land x 0x3ffffff = x mod 2 ^ 26.
Proof. change 0x3ffffff with (Z.ones 26). apply Z.land_ones. lia. Qed.

Lemma land_25 (x : Z) : Z.land x 0x1ffffff = x mod 2 ^ 25.
Proof. change 0x1ffffff with (Z.ones 25). apply Z.land_ones. lia. Qed.

Lemma boundedb_spec (be bo : Z) (f : limbs) :
  boundedb be bo f = true <-> bounded be bo f.
Proof.
  unfold boundedb, bounded.
  rewrite !andb_true_iff, !Z.leb_le. tauto.
Qed.

Lemma tightb_spec (f : limbs) : tightb f = true <-> tight f.
Proof. apply boundedb_spec. Qed.

Lemma looseb_spec (f : limbs) : looseb f = true <-> loose f.
Proof. apply boundedb_spec. Qed.

Lemma bounded_weaken (be bo be' bo' : Z) (f : limbs) :
  be <= be' -> bo <= bo' -> bounded be bo f -> bounded be' bo' f.
Proof. unfold bounded. intros. intuition lia. Qed.

Lemma canonical_tight (f : limbs) : canonical_limbs f -> tight f.
Proof. apply bounded_weaken; lia. Qed.

Lemma tight_loose (f : limbs) : tight f -> loose f.
Proof. apply bounded_weaken; lia. Qed.

Ltac limbs_cases :=
  repeat match goal with
         | f : limbs |- _ => destruct f
         | f : fe |- _ => destruct f
         | f : fe_loose |- _ => destruct f
         end.

Ltac unfold_bounds :=
  unfold canonical_limbs, tight, loose, bounded in *; cbn [v0 v1 v2 v3 v4 v5 v6 v7 v8 v9] in *.

(* ------------------------------------------------------------------ *)
(** ** Addition, subtraction, negation *)

Lemma fiat_25519_add_spec (f g : limbs) :
  tight f -> tight g ->
  loose (fiat_25519_add f g) /\ eval (fiat_25519_add f g) = eval f + eval g.
Proof.
  intros Hf Hg. limbs_cases. unfold fiat_25519_add, eval. unfold_bounds.
  rewrite !u32_small by lia. split; [ repeat split; lia | ring ].
Qed.

Lemma fiat_25519_sub_spec (f g : limbs) :
  tight f -> tight g ->
  loose (fiat_25519_sub f g) /\
  eval (fiat_25519_sub f g) = 2 * p25519 + eval f - eval g.
Proof.
  intros Hf Hg. limbs_cases. unfold fiat_25519_sub, eval, p25519. unfold_bounds.
  rewrite !u32_small by lia. split; [ repeat split; lia | lia ].
Qed.

Lemma fiat_25519_opp_spec (f : limbs) :
  tight f ->
  loose (fiat_25519_opp f) /\ eval (fiat_25519_opp f) = 2 * p25519 - eval f.
Proof.
  intros Hf. limbs_cases. unfold fiat_25519_opp, eval, p25519. unfold_bounds.
  rewrite !u32_small by lia. split; [ repeat split; lia | lia ].
Qed.

Lemma u1_small (x : Z) : 0 <= x < 2 -> u1 x = x.
Proof. intros H. unfold u1. apply Z.mod_small. exact H. Qed.

(** One carry step: split [x] at bit [k]. *)
Lemma carry_step (x k : Z) :
  0 < k -> 0 <= x ->
  x = 2 ^ k * (x / 2 ^ k) + x mod 2 ^ k /\
  0 <= x mod 2 ^ k < 2 ^ k /\ 0 <= x / 2 ^ k /\ 2 ^ k * (x / 2 ^ k) <= x.
Proof.
  intros Hk Hx.
  assert (Hp : 0 < 2 ^ k) by (apply Z.pow_pos_nonneg; lia).
  pose proof (Z.div_mod x (2 ^ k) ltac:(lia)) as E.
  pose proof (Z.mod_pos_bound x (2 ^ k) Hp) as B.
  pose proof (Z.div_pos x (2 ^ k) Hx Hp) as Q.
  repeat split; try lia.
Qed.

Ltac carry_at x k :=
  let E := fresh "E" in
  let q := fresh "q" in
  let r := fresh "r" in
  destruct (carry_step x k ltac:(lia) ltac:(lia)) as (E & ? & ? & ?);
  set (q := x / 2 ^ k) in *; set (r := x mod 2 ^ k) in *;
  clearbody q r.

Lemma fiat_25519_carry_spec (f : limbs) :
  loose f ->
  tight (fiat_25519_carry f) /\
  exists k, eval f = eval (fiat_25519_carry f) + k * p25519.
Proof.
  intros Hf. destruct f as [a0 a1 a2 a3 a4 a5 a6 a7 a8 a9]. unfold fiat_25519_carry, eval, p25519. unfold_bounds.
  cbv zeta. rewrite !shiftr_26, !shiftr_25, !land_26, !land_25.
  carry_at a0 26.
  rewrite (u32_small (q + a1)) by lia.
  carry_at (q + a1) 25.
  rewrite (u32_small (q0 + a2)) by lia.
  carry_at (q0 + a2) 26.
  rewrite (u32_small (q1 + a3)) by lia.
  carry_at (q1 + a3) 25.
  rewrite (u32_small (q2 + a4)) by lia.
  carry_at (q2 + a4) 26.
  rewrite (u32_small (q3 + a5)) by lia.
  carry_at (q3 + a5) 25.
  rewrite (u32_small (q4 + a6)) by lia.
  carry_at (q4 + a6) 26.
  rewrite (u32_small (q5 + a7)) by lia.
  carry_at (q5 + a7) 25.
  rewrite (u32_small (q6 + a8)) by lia.
  carry_at (q6 + a8) 26.
  rewrite (u32_small (q7 + a9)) by lia.
  carry_at (q7 + a9) 25.
  rewrite (u32_small (q8 * 19)) by lia.
  rewrite (u32_small (r + q8 * 19)) by lia.
  carry_at (r + q8 * 19) 26.
  rewrite (u1_small q9) by lia.
  rewrite (u32_small (q9 + r0)) by lia.
  carry_at (q9 + r0) 25.
  rewrite (u1_small q10) by lia.
  rewrite (u32_small (q10 + r1)) by lia.
  split; [ repeat split; lia | exists q8; lia ].
Qed.

Lemma mul_bound (a b A B : Z) :
  0 <= a <= A -> 0 <= b <= B -> 0 <= a * b <= A * B.
Proof.
  intros Ha Hb. split.
  - apply Z.mul_nonneg_nonneg; lia.
  - apply Z.mul_le_mono_nonneg; lia.
Qed.

Lemma carry_reduce64_spec (a0 a1 a2 a3 a4 a5 a6 a7 a8 a9 : Z) :
  0 <= a0 <= 2 ^ 63 -> 0 <= a1 <= 2 ^ 63 -> 0 <= a2 <= 2 ^ 63 ->
  0 <= a3 <= 2 ^ 63 -> 0 <= a4 <= 2 ^ 63 -> 0 <= a5 <= 2 ^ 63 ->
  0 <= a6 <= 2 ^ 63 -> 0 <= a7 <= 2 ^ 63 -> 0 <= a8 <= 2 ^ 63 ->
  0 <= a9 <= 2 ^ 63 ->
  tight (carry_reduce64 a0 a1 a2 a3 a4 a5 a6 a7 a8 a9) /\
  exists k, eval10 a0 a1 a2 a3 a4 a5 a6 a7 a8 a9
            = eval (carry_reduce64 a0 a1 a2 a3 a4 a5 a6 a7 a8 a9) + k * p25519.
Proof.
  intros H0 H1 H2 H3 H4 H5 H6 H7 H8 H9.
  unfold carry_reduce64, eval10, eval, p25519. unfold_bounds.
  cbv zeta. rewrite !shiftr_26, !shiftr_25, !land_26, !land_25.
  carry_at a0 26. rewrite (u32_small r) by lia.
  rewrite (u64_small (q + a1)) by lia.
  carry_at (q + a1) 25. rewrite (u32_small r0) by lia.
  rewrite (u64_small (q0 + a2)) by lia.
  carry_at (q0 + a2) 26. rewrite (u32_small r1) by lia.
  rewrite (u64_small (q1 + a3)) by lia.
  carry_at (q1 + a3) 25. rewrite (u32_small r2) by lia.
  rewrite (u64_small (q2 + a4)) by lia.
  carry_at (q2 + a4) 26. rewrite (u32_small r3) by lia.
  rewrite (u64_small (q3 + a5)) by lia.
  carry_at (q3 + a5) 25. rewrite (u32_small r4) by lia.
  rewrite (u64_small (q4 + a6)) by lia.
  carry_at (q4 + a6) 26. rewrite (u32_small r5) by lia.
  rewrite (u64_small (q5 + a7)) by lia.
  carry_at (q5 + a7) 25. rewrite (u32_small r6) by lia.
  rewrite (u64_small (q6 + a8)) by lia.
  carry_at (q6 + a8) 26. rewrite (u32_small r7) by lia.
  rewrite (u64_small (q7 + a9)) by lia.
  carry_at (q7 + a9) 25. rewrite (u32_small r8) by lia.
  rewrite (u64_small (q8 * 19)) by lia.
  rewrite (u64_small (r + q8 * 19)) by lia.
  carry_at (r + q8 * 19) 26.
  rewrite (u32_small q9) by lia. rewrite (u32_small r9) by lia.
  rewrite (u32_small (q9 + r0)) by lia.
  carry_at (q9 + r0) 25.
  rewrite (u1_small q10) by lia.
  rewrite (u32_small (q10 + r1)) by lia.
  split; [ repeat split; lia | exists q8; lia ].
Qed.

Lemma mul_acc0_nowrap (f g : limbs) :
  loose f -> loose g ->
  0 <= mul_acc0 f g <= 2 ^ 63 /\
  mul_acc0 f g =
    v0 f * v0 g + v1 f * (v9 g * 38) + v2 f * (v8 g * 19)
    + v3 f * (v7 g * 38) + v4 f * (v6 g * 19) + v5 f * (v5 g * 38)
    + v6 f * (v4 g * 19) + v7 f * (v3 g * 38) + v8 f * (v2 g * 19)
    + v9 f * (v1 g * 38).
Proof.
  intros Hf Hg. unfold mul_acc0. unfold loose, bounded in Hf, Hg.
  destruct Hf as (F0 & F1 & F2 & F3 & F4 & F5 & F6 & F7 & F8 & F9).
  destruct Hg as (G0 & G1 & G2 & G3 & G4 & G5 & G6 & G7 & G8 & G9).
  rewrite ?u32_small by lia.
  pose proof (mul_bound _ _ _ _ F0 G0).
  pose proof (mul_bound _ _ _ _ F1 G9).
  pose proof (mul_bound _ _ _ _ F2 G8).
  pose proof (mul_bound _ _ _ _ F3 G7).
  pose proof (mul_bound _ _ _ _ F4 G6).
  pose proof (mul_bound _ _ _ _ F5 G5).
  pose proof (mul_bound _ _ _ _ F6 G4).
  pose proof (mul_bound _ _ _ _ F7 G3).
  pose proof (mul_bound _ _ _ _ F8 G2).
  pose proof (mul_bound _ _ _ _ F9 G1).
  rewrite u64_small by lia. split; [ lia | reflexivity ].
Qed.

Lemma mul_acc1_nowrap (f g : limbs) :
  loose f -> loose g ->
  0 <= mul_acc1 f g <= 2 ^ 63 /\
  mul_acc1 f g =
    v0 f * v1 g + v1 f * v0 g + v2 f * (v9 g * 19) + v3 f * (v8 g * 19)
    + v4 f * (v7 g * 19) + v5 f * (v6 g * 19) + v6 f * (v5 g * 19)
    + v7 f * (v4 g * 19) + v8 f * (v3 g * 19) + v9 f * (v2 g * 19).
Proof.
  intros Hf Hg. unfold mul_acc1. unfold loose, bounded in Hf, Hg.
  destruct Hf as (F0 & F1 & F2 & F3 & F4 & F5 & F6 & F7 & F8 & F9).
  destruct Hg as (G0 & G1 & G2 & G3 & G4 & G5 & G6 & G7 & G8 & G9).
  rewrite ?u32_small by lia.
  pose proof (mul_bound _ _ _ _ F0 G1).
  pose proof (mul_bound _ _ _ _ F1 G0).
  pose proof (mul_bound _ _ _ _ F2 G9).
  pose proof (mul_bound _ _ _ _ F3 G8).
  pose proof (mul_bound _ _ _ _ F4 G7).
  pose proof (mul_bound _ _ _ _ F5 G6).
  pose proof (mul_bound _ _ _ _ F6 G5).
  pose proof (mul_bound _ _ _ _ F7 G4).
  pose proof (mul_bound _ _ _ _ F8 G3).
  pose proof (mul_bound _ _ _ _ F9 G2).
  rewrite u64_small by lia. split; [ lia | reflexivity ].
Qed.

Lemma mul_acc2_nowrap (f g : limbs) :
  loose f -> loose g ->
  0 <= mul_acc2 f g <= 2 ^ 63 /\
  mul_acc2 f g =
    v0 f * v2 g + v1 f * (v1 g * 2) + v2 f * v0 g + v3 f * (v9 g * 38)
    + v4 f * (v8 g * 19) + v5 f * (v7 g * 38) + v6 f * (v6 g * 19)
    + v7 f * (v5 g * 38) + v8 f * (v4 g * 19) + v9 f * (v3 g * 38).
Proof.
  intros Hf Hg. unfold mul_acc2. unfold loose, bounded in Hf, Hg.
  destruct Hf as (F0 & F1 & F2 & F3 & F4 & F5 & F6 & F7 & F8 & F9).
  destruct Hg as (G0 & G1 & G2 & G3 & G4 & G5 & G6 & G7 & G8 & G9).
  rewrite ?u32_small by lia.
  pose proof (mul_bound _ _ _ _ F0 G2).
  pose proof (mul_bound _ _ _ _ F1 G1).
  pose proof (mul_bound _ _ _ _ F2 G0).
  pose proof (mul_bound _ _ _ _ F3 G9).
  pose proof (mul_bound _ _ _ _ F4 G8).
  pose proof (mul_bound _ _ _ _ F5 G7).
  pose proof (mul_bound _ _ _ _ F6 G6).
  pose proof (mul_bound _ _ _ _ F7 G5).
  pose proof (mul_bound _ _ _ _ F8 G4).
  pose proof (mul_bound _ _ _ _ F9 G3).
  rewrite u64_small by lia. split; [ lia | reflexivity ].
Qed.

Lemma mul_acc3_nowrap (f g : limbs) :
  loose f -> loose g ->
  0 <= mul_acc3 f g <= 2 ^ 63 /\
  mul_acc3 f g =
    v0 f * v3 g + v1 f * v2 g + v2 f * v1 g + v3 f * v0 g
    + v4 f * (v9 g * 19) + v5 f * (v8 g * 19) + v6 f * (v7 g * 19)
    + v7 f * (v6 g * 19) + v8 f * (v5 g * 19) + v9 f * (v4 g * 19).
Proof.
  intros Hf Hg. unfold mul_acc3. unfold loose, bounded in Hf, Hg.
  destruct Hf as (F0 & F1 & F2 & F3 & F4 & F5 & F6 & F7 & F8 & F9).
  destruct Hg as (G0 & G1 & G2 & G3 & G4 & G5 & G6 & G7 & G8 & G9).
  rewrite ?u32_small by lia.
  pose proof (mul_bound _ _ _ _ F0 G3).
  pose proof (mul_bound _ _ _ _ F1 G2).
  pose proof (mul_bound _ _ _ _ F2 G1).
  pose proof (mul_bound _ _ _ _ F3 G0).
  pose proof (mul_bound _ _ _ _ F4 G9).
  pose proof (mul_bound _ _ _ _ F5 G8).
  pose proof (mul_bound _ _ _ _ F6 G7).
  pose proof (mul_bound _ _ _ _ F7 G6).
  pose proof (mul_bound _ _ _ _ F8 G5).
  pose proof (mul_bound _ _ _ _ F9 G4).
  rewrite u64_small by lia. split; [ lia | reflexivity ].
Qed.

Lemma mul_acc4_nowrap (f g : limbs) :
  loose f -> loose g ->
  0 <= mul_acc4 f g <= 2 ^ 63 /\
  mul_acc4 f g =
    v0 f * v4 g + v1 f * (v3 g * 2) + v2 f * v2 g + v3 f * (v1 g * 2)
    + v4 f * v0 g + v5 f * (v9 g * 38) + v6 f * (v8 g * 19)
    + v7 f * (v7 g * 38) + v8 f * (v6 g * 19) + v9 f * (v5 g * 38).
Proof.
  intros Hf Hg. unfold mul_acc4. unfold loose, bounded in Hf, Hg.
  destruct Hf as (F0 & F1 & F2 & F3 & F4 & F5 & F6 & F7 & F8 & F9).
  destruct Hg as (G0 & G1 & G2 & G3 & G4 & G5 & G6 & G7 & G8 & G9).
  rewrite ?u32_small by lia.
  pose proof (mul_bound _ _ _ _ F0 G4).
  pose proof (mul_bound _ _ _ _ F1 G3).
  pose proof (mul_bound _ _ _ _ F2 G2).
  pose proof (mul_bound _ _ _ _ F3 G1).
  pose proof (mul_bound _ _ _ _ F4 G0).
  pose proof (mul_bound _ _ _ _ F5 G9).
  pose proof (mul_bound _ _ _ _ F6 G8).
  pose proof (mul_bound _ _ _ _ F7 G7).
  pose proof (mul_bound _ _ _ _ F8 G6).
  pose proof (mul_bound _ _ _ _ F9 G5).
  rewrite u64_small by lia. split; [ lia | reflexivity ].
Qed.

Lemma mul_acc5_nowrap (f g : limbs) :
  loose f -> loose g ->
  0 <= mul_acc5 f g <= 2 ^ 63 /\
  mul_acc5 f g =
    v0 f * v5 g + v1 f * v4 g + v2 f * v3 g + v3 f * v2 g + v4 f * v1 g
    + v5 f * v0 g + v6 f * (v9 g * 19) + v7 f * (v8 g * 19)
    + v8 f * (v7 g * 19) + v9 f * (v6 g * 19).
Proof.
  intros Hf Hg. unfold mul_acc5. unfold loose, bounded in Hf, Hg.
  destruct Hf as (F0 & F1 & F2 & F3 & F4 & F5 & F6 & F7 & F8 & F9).
  destruct Hg as (G0 & G1 & G2 & G3 & G4 & G5 & G6 & G7 & G8 & G9).
  rewrite ?u32_small by lia.
  pose proof (mul_bound _ _ _ _ F0 G5).
  pose proof (mul_bound _ _ _ _ F1 G4).
  pose proof (mul_bound _ _ _ _ F2 G3).
  pose proof (mul_bound _ _ _ _ F3 G2).
  pose proof (mul_bound _ _ _ _ F4 G1).
  pose proof (mul_bound _ _ _ _ F5 G0).
  pose proof (mul_bound _ _ _ _ F6 G9).
  pose proof (mul_bound _ _ _ _ F7 G8).
  pose proof (mul_bound _ _ _ _ F8 G7).
  pose proof (mul_bound _ _ _ _ F9 G6).
  rewrite u64_small by lia. split; [ lia | reflexivity ].
Qed.

Lemma mul_acc6_nowrap (f g : limbs) :
  loose f -> loose g ->
  0 <= mul_acc6 f g <= 2 ^ 63 /\
  mul_acc6 f g =
    v0 f * v6 g + v1 f * (v5 g * 2) + v2 f * v4 g + v3 f * (v3 g * 2)
    + v4 f * v2 g + v5 f * (v1 g * 2) + v6 f * v0 g + v7 f * (v9 g * 38)
    + v8 f * (v8 g * 19) + v9 f * (v7 g * 38).
Proof.
  intros Hf Hg. unfold mul_acc6. unfold loose, bounded in Hf, Hg.
  destruct Hf as (F0 & F1 & F2 & F3 & F4 & F5 & F6 & F7 & F8 & F9).
  destruct Hg as (G0 & G1 & G2 & G3 & G4 & G5 & G6 & G7 & G8 & G9).
  rewrite ?u32_small by lia.
  pose proof (mul_bound _ _ _ _ F0 G6).
  pose proof (mul_bound _ _ _ _ F1 G5).
  pose proof (mul_bound _ _ _ _ F2 G4).
  pose proof (mul_bound _ _ _ _ F3 G3).
  pose proof (mul_bound _ _ _ _ F4 G2).
  pose proof (mul_bound _ _ _ _ F5 G1).
  pose proof (mul_bound _ _ _ _ F6 G0).
  pose proof (mul_bound _ _ _ _ F7 G9).
  pose proof (mul_bound _ _ _ _ F8 G8).
  pose proof (mul_bound _ _ _ _ F9 G7).
  rewrite u64_small by lia. split; [ lia | reflexivity ].
Qed.

Lemma mul_acc7_nowrap (f g : limbs) :
  loose f -> loose g ->
  0 <= mul_acc7 f g <= 2 ^ 63 /\
  mul_acc7 f g =
    v0 f * v7 g + v1 f * v6 g + v2 f * v5 g + v3 f * v4 g + v4 f * v3 g
    + v5 f * v2 g + v6 f * v1 g + v7 f * v0 g + v8 f * (v9 g * 19)
    + v9 f * (v8 g * 19).
Proof.
  intros Hf Hg. unfold mul_acc7. unfold loose, bounded in Hf, Hg.
  destruct Hf as (F0 & F1 & F2 & F3 & F4 & F5 & F6 & F7 & F8 & F9).
  destruct Hg as (G0 & G1 & G2 & G3 & G4 & G5 & G6 & G7 & G8 & G9).
  rewrite ?u32_small by lia.
  pose proof (mul_bound _ _ _ _ F0 G7).
  pose proof (mul_bound _ _ _ _ F1 G6).
  pose proof (mul_bound _ _ _ _ F2 G5).
  pose proof (mul_bound _ _ _ _ F3 G4).
  pose proof (mul_bound _ _ _ _ F4 G3).
  pose proof (mul_bound _ _ _ _ F5 G2).
  pose proof (mul_bound _ _ _ _ F6 G1).
  pose proof (mul_bound _ _ _ _ F7 G0).
  pose proof (mul_bound _ _ _ _ F8 G9).
  pose proof (mul_bound _ _ _ _ F9 G8).
  rewrite u64_small by lia. split; [ lia | reflexivity ].
Qed.

Lemma mul_acc8_nowrap (f g : limbs) :
  loose f -> loose g ->
  0 <= mul_acc8 f g <= 2 ^ 63 /\
  mul_acc8 f g =
    v0 f * v8 g + v1 f * (v7 g * 2) + v2 f * v6 g + v3 f * (v5 g * 2)
    + v4 f * v4 g + v5 f * (v3 g * 2) + v6 f * v2 g + v7 f * (v1 g * 2)
    + v8 f * v0 g + v9 f * (v9 g * 38).
Proof.
  intros Hf Hg. unfold mul_acc8. unfold loose, bounded in Hf, Hg.
  destruct Hf as (F0 & F1 & F2 & F3 & F4 & F5 & F6 & F7 & F8 & F9).
  destruct Hg as (G0 & G1 & G2 & G3 & G4 & G5 & G6 & G7 & G8 & G9).
  rewrite ?u32_small by lia.
  pose proof (mul_bound _ _ _ _ F0 G8).
  pose proof (mul_bound _ _ _ _ F1 G7).
  pose proof (mul_bound _ _ _ _ F2 G6).
  pose proof (mul_bound _ _ _ _ F3 G5).
  pose proof (mul_bound _ _ _ _ F4 G4).
  pose proof (mul_bound _ _ _ _ F5 G3).
  pose proof (mul_bound _ _ _ _ F6 G2).
  pose proof (mul_bound _ _ _ _ F7 G1).
  pose proof (mul_bound _ _ _ _ F8 G0).
  pose proof (mul_bound _ _ _ _ F9 G9).
  rewrite u64_small by lia. split; [ lia | reflexivity ].
Qed.

Lemma mul_acc9_nowrap (f g : limbs) :
  loose f -> loose g ->
  0 <= mul_acc9 f g <= 2 ^ 63 /\
  mul_acc9 f g =
    v0 f * v9 g + v1 f * v8 g + v2 f * v7 g + v3 f * v6 g + v4 f * v5 g
    + v5 f * v4 g + v6 f * v3 g + v7 f * v2 g + v8 f * v1 g + v9 f * v0 g.
Proof.
  intros Hf Hg. unfold mul_acc9. unfold loose, bounded in Hf, Hg.
  destruct Hf as (F0 & F1 & F2 & F3 & F4 & F5 & F6 & F7 & F8 & F9).
  destruct Hg as (G0 & G1 & G2 & G3 & G4 & G5 & G6 & G7 & G8 & G9).
  rewrite ?u32_small by lia.
  pose proof (mul_bound _ _ _ _ F0 G9).
  pose proof (mul_bound _ _ _ _ F1 G8).
  pose proof (mul_bound _ _ _ _ F2 G7).
  pose proof (mul_bound _ _ _ _ F3 G6).
  pose proof (mul_bound _ _ _ _ F4 G5).
  pose proof (mul_bound _ _ _ _ F5 G4).
  pose proof (mul_bound _ _ _ _ F6 G3).
  pose proof (mul_bound _ _ _ _ F7 G2).
  pose proof (mul_bound _ _ _ _ F8 G1).
  pose proof (mul_bound _ _ _ _ F9 G0).
  rewrite u64_small by lia. split; [ lia | reflexivity ].
Qed.

Lemma mul_acc_eval (f g : limbs) :
  loose f -> loose g ->
  exists k,
    eval f * eval g
    = eval10 (mul_acc0 f g) (mul_acc1 f g) (mul_acc2 f g) (mul_acc3 f g)
             (mul_acc4 f g) (mul_acc5 f g) (mul_acc6 f g) (mul_acc7 f g)
             (mul_acc8 f g) (mul_acc9 f g) + k * p25519.
Proof.
  intros Hf Hg.
  rewrite (proj2 (mul_acc0_nowrap f g Hf Hg)), (proj2 (mul_acc1_nowrap f g Hf Hg)),
    (proj2 (mul_acc2_nowrap f g Hf Hg)), (proj2 (mul_acc3_nowrap f g Hf Hg)),
    (proj2 (mul_acc4_nowrap f g Hf Hg)), (proj2 (mul_acc5_nowrap f g Hf Hg)),
    (proj2 (mul_acc6_nowrap f g Hf Hg)), (proj2 (mul_acc7_nowrap f g Hf Hg)),
    (proj2 (mul_acc8_nowrap f g Hf Hg)), (proj2 (mul_acc9_nowrap f g Hf Hg)).
  clear Hf Hg.
  destruct f as [a0 a1 a2 a3 a4 a5 a6 a7 a8 a9].
  destruct g as [b0 b1 b2 b3 b4 b5 b6 b7 b8 b9].
  unfold eval10, eval, p25519. cbn [v0 v1 v2 v3 v4 v5 v6 v7 v8 v9].
  exists (
     (2 * a1 * b9) + (a2 * b8) + 2 ^ 26 * (a2 * b9) + (2 * a3 * b7)
     + 2 ^ 26 * (a3 * b8) + 2 ^ 51 * (2 * a3 * b9) + (a4 * b6)
     + 2 ^ 26 * (a4 * b7) + 2 ^ 51 * (a4 * b8) + 2 ^ 77 * (a4 * b9)
     + (2 * a5 * b5) + 2 ^ 26 * (a5 * b6) + 2 ^ 51 * (2 * a5 * b7)
     + 2 ^ 77 * (a5 * b8) + 2 ^ 102 * (2 * a5 * b9) + (a6 * b4)
     + 2 ^ 26 * (a6 * b5) + 2 ^ 51 * (a6 * b6) + 2 ^ 77 * (a6 * b7)
     + 2 ^ 102 * (a6 * b8) + 2 ^ 128 * (a6 * b9) + (2 * a7 * b3)
     + 2 ^ 26 * (a7 * b4) + 2 ^ 51 * (2 * a7 * b5) + 2 ^ 77 * (a7 * b6)
     + 2 ^ 102 * (2 * a7 * b7) + 2 ^ 128 * (a7 * b8)
     + 2 ^ 153 * (2 * a7 * b9) + (a8 * b2) + 2 ^ 26 * (a8 * b3)
     + 2 ^ 51 * (a8 * b4) + 2 ^ 77 * (a8 * b5) + 2 ^ 102 * (a8 * b6)
     + 2 ^ 128 * (a8 * b7) + 2 ^ 153 * (a8 * b8) + 2 ^ 179 * (a8 * b9)
     + (2 * a9 * b1) + 2 ^ 26 * (a9 * b2) + 2 ^ 51 * (2 * a9 * b3)
     + 2 ^ 77 * (a9 * b4) + 2 ^ 102 * (2 * a9 * b5) + 2 ^ 128 * (a9 * b6)
     + 2 ^ 153 * (2 * a9 * b7) + 2 ^ 179 * (a9 * b8)
     + 2 ^ 204 * (2 * a9 * b9)).
  ring.
Qed.

Lemma fiat_25519_carry_mul_spec (f g : limbs) :
  loose f -> loose g ->
  tight (fiat_25519_carry_mul f g) /\
  exists k, eval f * eval g = eval (fiat_25519_carry_mul f g) + k * p25519.
Proof.
  intros Hf Hg. unfold fiat_25519_carry_mul.
  destruct (carry_reduce64_spec
              (mul_acc0 f g) (mul_acc1 f g) (mul_acc2 f g) (mul_acc3 f g)
              (mul_acc4 f g) (mul_acc5 f g) (mul_acc6 f g) (mul_acc7 f g)
              (mul_acc8 f g) (mul_acc9 f g)
              (proj1 (mul_acc0_nowrap f g Hf Hg)) (proj1 (mul_acc1_nowrap f g Hf Hg))
              (proj1 (mul_acc2_nowrap f g Hf Hg)) (proj1 (mul_acc3_nowrap f g Hf Hg))
              (proj1 (mul_acc4_nowrap f g Hf Hg)) (proj1 (mul_acc5_nowrap f g Hf Hg))
              (proj1 (mul_acc6_nowrap f g Hf Hg)) (proj1 (mul_acc7_nowrap f g Hf Hg))
              (proj1 (mul_acc8_nowrap f g Hf Hg)) (proj1 (mul_acc9_nowrap f g Hf Hg)))
    as (Ht & k1 & E1).
  destruct (mul_acc_eval f g Hf Hg) as (k2 & E2).
  split; [ exact Ht | ].
  exists (k1 + k2). rewrite E2, E1, Z.mul_add_distr_r, Z.add_assoc. reflexivity.
Qed.

(* ------------------------------------------------------------------ *)
(** ** Field values of the operations *)

Lemma p25519_pos : 0 < p25519.
Proof. reflexivity. Qed.

Lemma feval_range (f : limbs) : 0 <= feval f < p25519.
Proof. unfold feval. apply Z.mod_pos_bound. exact p25519_pos. Qed.

Lemma feval_mod (f : limbs) : feval f mod p25519 = feval f.
Proof. unfold feval. apply Z.mod_mod. discriminate. Qed.

Lemma mod_shift (a b k : Z) : a = b + k * p25519 -> a mod p25519 = b mod p25519.
Proof. intros ->. apply Z.mod_add. discriminate. Qed.

Lemma feval_mul (f g : limbs) :
  loose f -> loose g ->
  feval (fiat_25519_carry_mul f g) = (feval f * feval g) mod p25519.
Proof.
  intros Hf Hg. destruct (fiat_25519_carry_mul_spec f g Hf Hg) as (_ & k & E).
  unfold feval. rewrite <- Z.mul_mod by discriminate.
  symmetry. eapply mod_shift. exact E.
Qed.

Lemma tight_mul (f g : limbs) :
  loose f -> loose g -> tight (fiat_25519_carry_mul f g).
Proof. intros Hf Hg. apply (fiat_25519_carry_mul_spec f g Hf Hg). Qed.

Lemma feval_square (f : limbs) :
  loose f -> feval (fiat_25519_carry_square f) = (feval f * feval f) mod p25519.
Proof. intros Hf. unfold fiat_25519_carry_square. apply feval_mul; exact Hf. Qed.

Lemma tight_square (f : limbs) : loose f -> tight (fiat_25519_carry_square f).
Proof. intros Hf. unfold fiat_25519_carry_square. apply tight_mul; exact Hf. Qed.

Lemma feval_add (f g : limbs) :
  tight f -> tight g ->
  feval (fiat_25519_add f g) = (feval f + feval g) mod p25519.
Proof.
  intros Hf Hg. destruct (fiat_25519_add_spec f g Hf Hg) as (_ & E).
  unfold feval. rewrite E. apply Z.add_mod. discriminate.
Qed.

Lemma loose_add (f g : limbs) : tight f -> tight g -> loose (fiat_25519_add f g).
Proof. intros Hf Hg. apply (fiat_25519_add_spec f g Hf Hg). Qed.

Lemma feval_sub (f g : limbs) :
  tight f -> tight g ->
  feval (fiat_25519_sub f g) = (feval f - feval g) mod p25519.
Proof.
  intros Hf Hg. destruct (fiat_25519_sub_spec f g Hf Hg) as (_ & E).
  unfold feval. rewrite E. rewrite <- Zminus_mod.
  apply (mod_shift _ _ 2). ring.
Qed.

Lemma loose_sub (f g : limbs) : tight f -> tight g -> loose (fiat_25519_sub f g).
Proof. intros Hf Hg. apply (fiat_25519_sub_spec f g Hf Hg). Qed.

Lemma feval_opp (f : limbs) :
  tight f -> feval (fiat_25519_opp f) = (- feval f) mod p25519.
Proof.
  intros Hf. destruct (fiat_25519_opp_spec f Hf) as (_ & E).
  unfold feval. rewrite E.
  transitivity ((- eval f) mod p25519).
  - apply (mod_shift _ _ 2). ring.
  - rewrite <- (Z.sub_0_l (eval f)), <- (Z.sub_0_l (eval f mod p25519)).
    rewrite Zminus_mod_idemp_r. reflexivity.
Qed.

Lemma loose_opp (f : limbs) : tight f -> loose (fiat_25519_opp f).
Proof. intros Hf. apply (fiat_25519_opp_spec f Hf). Qed.

Lemma feval_carry (f : limbs) : loose f -> feval (fiat_25519_carry f) = feval f.
Proof.
  intros Hf. destruct (fiat_25519_carry_spec f Hf) as (_ & k & E).
  unfold feval. symmetry. eapply mod_shift. exact E.
Qed.

Lemma tight_carry (f : limbs) : loose f -> tight (fiat_25519_carry f).
Proof. intros Hf. apply (fiat_25519_carry_spec f Hf). Qed.

Lemma tight_fe_1 : tight fe_1.
Proof. apply tightb_spec. reflexivity. Qed.

Lemma tight_fe_0 : tight fe_0.
Proof. apply tightb_spec. reflexivity. Qed.

Lemma tight_d : tight d.
Proof. apply tightb_spec. reflexivity. Qed.

Lemma tight_d2 : tight d2.
Proof. apply tightb_spec. reflexivity. Qed.

Lemma tight_sqrtm1 : tight sqrtm1.
Proof. apply tightb_spec. reflexivity. Qed.

(* ------------------------------------------------------------------ *)
(** ** Powers: the addition chains *)

Lemma repr_base (f : limbs) : loose f -> repr f (feval f) 1.
Proof.
  intros Hf. split; [ exact Hf | split; [ lia | ] ].
  rewrite Z.pow_1_r. symmetry. apply feval_mod.
Qed.

Lemma repr_mul (f g : limbs) (x a b : Z) :
  repr f x a -> repr g x b -> repr (fe_mul_ttt f g) x (a + b).
Proof.
  intros (Lf & Ha & Ef) (Lg & Hb & Eg). unfold fe_mul_ttt, fe_mul_impl.
  split; [ apply tight_loose, tight_mul; assumption | split; [ lia | ] ].
  rewrite feval_mul, Ef, Eg by assumption.
  rewrite <- Z.mul_mod by discriminate.
  rewrite Z.pow_add_r by assumption. reflexivity.
Qed.

Lemma repr_sq (f : limbs) (x a : Z) : repr f x a -> repr (fe_sq_tt f) x (a * 2).
Proof.
  intros H. replace (a * 2) with (a + a) by ring.
  exact (repr_mul f f x a a H H).
Qed.

Lemma repr_sq_loop (n : nat) (f : limbs) (x a : Z) :
  repr f x a -> repr (sq_loop n f) x (a * 2 ^ Z.of_nat (n - 1)).
Proof.
  unfold sq_loop. intros H. induction (n - 1)%nat as [| m IH].
  - cbn [Nat.iter]. change (2 ^ Z.of_nat 0) with 1. rewrite Z.mul_1_r. exact H.
  - cbn [Nat.iter]. rewrite Nat2Z.inj_succ, Z.pow_succ_r by lia.
    replace (a * (2 * 2 ^ Z.of_nat m)) with (a * 2 ^ Z.of_nat m * 2) by ring.
    apply repr_sq. exact IH.
Qed.

Lemma repr_tight_mul (f g : limbs) (x a b : Z) :
  repr f x a -> repr g x b -> tight (fe_mul_ttt f g).
Proof. intros (Lf & _) (Lg & _). apply tight_mul; assumption. Qed.

Lemma repr_exp (f : limbs) (x a b : Z) : a = b -> repr f x a -> repr f x b.
Proof. intros ->. exact (fun H => H). Qed.

Lemma repr_mul_tlt (f g : limbs) (x a b : Z) :
  repr f x a -> repr g x b -> repr (fe_mul_tlt f g) x (a + b).
Proof. exact (repr_mul f g x a b). Qed.

Lemma repr_sq_tl (f : limbs) (x a : Z) : repr f x a -> repr (fe_sq_tl f) x (a * 2).
Proof. exact (repr_sq f x a). Qed.

Ltac repr_solve :=
  lazymatch goal with
  | |- repr (fe_sq_tt _) _ _ => eapply repr_sq; repr_solve
  | |- repr (fe_sq_tl _) _ _ => eapply repr_sq_tl; repr_solve
  | |- repr (sq_loop _ _) _ _ => eapply repr_sq_loop; repr_solve
  | |- repr (fe_mul_ttt _ _) _ _ => eapply repr_mul; repr_solve
  | |- repr (fe_mul_tlt _ _) _ _ => eapply repr_mul_tlt; repr_solve
  | |- _ => eassumption
  end.

Lemma trepr_mul (f g : limbs) (x a b c : Z) :
  repr f x a -> repr g x b -> a + b = c -> trepr (fe_mul_ttt f g) x c.
Proof.
  intros Hf Hg <-. split.
  - eapply repr_tight_mul; eassumption.
  - apply repr_mul; assumption.
Qed.

Ltac chain_bind R A B x E :=
  let t' := fresh "t" in
  let H := fresh "R" in
  let e := fresh "e" in
  evar (e : Z);
  assert (H : repr A x e) by (subst e; repr_solve);
  subst e;
  lazymatch type of H with
  | repr _ _ ?e0 =>
      let e1 := eval vm_compute in e0 in
      apply (repr_exp A x e0 e1 (eq_refl e1)) in H
  end;
  pose (t' := A); change (R (B t') x E); cbv beta;
  change A with t' in H; clearbody t'.

Ltac chain_step :=
  lazymatch goal with
  | |- repr (let t := ?A in @?B t) ?x ?E => chain_bind repr A B x E
  | |- trepr (let t := ?A in @?B t) ?x ?E => chain_bind trepr A B x E
  end.

Lemma fe_loose_invert_repr (z : fe_loose) :
  loose z -> trepr (fe_loose_invert z) (feval z) (p25519 - 2).
Proof.
  intros Hz. pose proof (repr_base z Hz) as R0.
  cbv beta delta [fe_loose_invert].
  repeat chain_step.
  eapply trepr_mul; [ eassumption | eassumption | reflexivity ].
Qed.

Lemma fe_invert_spec (z : fe) :
  tight z ->
  tight (fe_invert z) /\
  feval (fe_invert z) = feval z ^ (p25519 - 2) mod p25519.
Proof.
  intros Hz. unfold fe_invert, fe_copy_lt.
  destruct (fe_loose_invert_repr z (tight_loose z Hz)) as (Ht & _ & _ & E).
  split; assumption.
Qed.

Lemma fe_pow22523_repr (z : fe) :
  loose z -> trepr (fe_pow22523 z) (feval z) ((p25519 - 5) / 8).
Proof.
  intros Hz. pose proof (repr_base z Hz) as R0.
  cbv beta delta [fe_pow22523].
  repeat chain_step.
  eapply trepr_mul; [ eassumption | eassumption | reflexivity ].
Qed.

Lemma fe_pow22523_spec (z : fe) :
  loose z ->
  tight (fe_pow22523 z) /\
  feval (fe_pow22523 z) = feval z ^ ((p25519 - 5) / 8) mod p25519.
Proof.
  intros Hz. destruct (fe_pow22523_repr z Hz) as (Ht & _ & _ & E).
  split; assumption.
Qed.

(* ------------------------------------------------------------------ *)
(** ** Byte buffers *)

Lemma le_encode_length (n : nat) (x : Z) : length (le_encode n x) = n.
Proof. revert x. induction n as [| n IH]; intros x; cbn; [ | rewrite IH ]; reflexivity. Qed.

Lemma le_encode_bytes (n : nat) (x : Z) : Forall is_byte (le_encode n x).
Proof.
  revert x. induction n as [| n IH]; intros x; cbn; constructor.
  - unfold is_byte. apply Z.mod_pos_bound. lia.
  - apply IH.
Qed.

Lemma le_decode_encode (n : nat) (x : Z) :
  le_decode (le_encode n x) = x mod 256 ^ Z.of_nat n.
Proof.
  revert x. induction n as [| n IH]; intros x.
  - cbn. rewrite Z.mod_1_r. reflexivity.
  - cbn [le_encode le_decode]. rewrite IH.
    rewrite Nat2Z.inj_succ, Z.pow_succ_r by lia.
    rewrite Z.rem_mul_r by (try apply Z.pow_pos_nonneg; lia).
    reflexivity.
Qed.

Lemma le_decode_range (s : list Z) :
  Forall is_byte s -> 0 <= le_decode s < 256 ^ Z.of_nat (length s).
Proof.
  induction 1 as [| b s Hb Hs IH].
  - cbn. lia.
  - cbn [le_decode length]. rewrite Nat2Z.inj_succ, Z.pow_succ_r by lia.
    unfold is_byte in Hb. lia.
Qed.

Lemma le_encode_decode (s : list Z) :
  Forall is_byte s -> le_encode (length s) (le_decode s) = s.
Proof.
  induction 1 as [| b s Hb Hs IH].
  - reflexivity.
  - cbn [le_decode length le_encode]. unfold is_byte in Hb.
    assert (E : (b + 256 * le_decode s) mod 256 = b /\
                (b + 256 * le_decode s) / 256 = le_decode s)
      by (generalize (le_decode s); intros n; Z.div_mod_to_equations; lia).
    destruct E as [E1 E2]. rewrite E1, E2, IH. reflexivity.
Qed.

Lemma le_encode_inj (n : nat) (x y : Z) :
  0 <= x < 256 ^ Z.of_nat n -> 0 <= y < 256 ^ Z.of_nat n ->
  le_encode n x = le_encode n y -> x = y.
Proof.
  intros Hx Hy E. apply (f_equal le_decode) in E.
  rewrite !le_decode_encode, !Z.mod_small in E by assumption. exact E.
Qed.

(** The all-zero test on an encoding. *)
Lemma memcmp_zero32_encode (x : Z) :
  0 <= x < 2 ^ 256 -> memcmp_zero32 (le_encode 32 x) = (x =? 0).
Proof.
  intros Hx. unfold memcmp_zero32.
  rewrite firstn_all2 by (rewrite le_encode_length; lia).
  destruct (Z.eqb_spec x 0) as [-> | Hne].
  - reflexivity.
  - apply not_true_is_false. intros Hall. apply Hne.
    apply (le_encode_inj 32 x 0); [ exact Hx | cbn; lia | ].
    rewrite forallb_forall in Hall.
    assert (G : forall (n : nat) (y : Z),
               (forall b, In b (le_encode n y) -> (b =? 0) = true) ->
               le_encode n y = le_encode n 0).
    { induction n as [| n IH]; intros y Hy; [ reflexivity | ].
      cbn [le_encode] in *. f_equal.
      - apply Z.eqb_eq. apply Hy. left. reflexivity.
      - rewrite IH by (intros b Hb; apply Hy; right; exact Hb).
        reflexivity. }
    apply G. exact Hall.
Qed.

Lemma nth_0_le_encode (n : nat) (x : Z) :
  nth 0 (le_encode (S n) x) 0 = x mod 256.
Proof. reflexivity. Qed.

Lemma land_1_mod (x : Z) : Z.land x 1 = x mod 2.
Proof. change 1 with (Z.ones 1). rewrite Z.land_ones by lia. reflexivity. Qed.

(** [map_nth] on position [i] of a buffer. *)
Lemma map_nth_length (i : nat) (f : Z -> Z) (s : list Z) :
  length (map_nth i f s) = length s.
Proof.
  revert i. induction s as [| b s IH]; intros [| i]; cbn; try reflexivity.
  rewrite IH. reflexivity.
Qed.

Lemma map_nth_nth (i : nat) (f : Z -> Z) (s : list Z) :
  (i < length s)%nat -> nth i (map_nth i f s) 0 = f (nth i s 0).
Proof.
  revert i. induction s as [| b s IH]; intros [| i] H; cbn in *; try lia.
  apply IH. lia.
Qed.

Lemma map_nth_decode (i : nat) (f : Z -> Z) (s : list Z) :
  (i < length s)%nat ->
  le_decode (map_nth i f s)
  = le_decode s + 256 ^ Z.of_nat i * (f (nth i s 0) - nth i s 0).
Proof.
  revert i. induction s as [| b s IH]; intros [| i] H; cbn [length] in *; try lia.
  - cbn [map_nth le_decode nth]. change (256 ^ Z.of_nat 0) with 1. ring.
  - cbn [map_nth le_decode nth]. rewrite IH by lia.
    rewrite Nat2Z.inj_succ, Z.pow_succ_r by lia. ring.
Qed.

Lemma map_nth_bytes (i : nat) (f : Z -> Z) (s : list Z) :
  (forall b, is_byte b -> is_byte (f b)) ->
  Forall is_byte s -> Forall is_byte (map_nth i f s).
Proof.
  intros Hf Hs. revert i. induction Hs as [| b s Hb Hs IH]; intros [| i]; cbn;
    constructor; auto.
Qed.

(** A buffer splits into its bytes below position [i] and the rest. *)
Lemma le_decode_split (i : nat) (s : list Z) :
  le_decode s
  = le_decode (firstn i s) + 256 ^ Z.of_nat (length (firstn i s)) * le_decode (skipn i s).
Proof.
  revert i. induction s as [| b s IH]; intros [| i]; cbn [firstn skipn le_decode length].
  - reflexivity.
  - reflexivity.
  - change (256 ^ Z.of_nat 0) with 1. lia.
  - rewrite (IH i) at 1. rewrite Nat2Z.inj_succ, Z.pow_succ_r by lia. ring.
Qed.

Lemma Forall_firstn_bytes (n : nat) (s : list Z) :
  Forall is_byte s -> Forall is_byte (firstn n s).
Proof.
  intros H. revert n. induction H as [| b s Hb Hs IH]; intros [| n]; cbn;
    constructor; auto.
Qed.

Lemma le_decode_top (s : list Z) :
  bytes32 s ->
  exists lo, 0 <= lo < 2 ^ 248 /\ le_decode s = lo + 2 ^ 248 * nth 31 s 0 /\
             0 <= nth 31 s 0 < 256.
Proof.
  intros [Hlen Hb].
  exists (le_decode (firstn 31 s)).
  assert (Hl : length (firstn 31 s) = 31%nat) by (rewrite length_firstn; lia).
  pose proof (le_decode_range (firstn 31 s) (Forall_firstn_bytes 31 s Hb)) as R.
  rewrite Hl in R. change (256 ^ Z.of_nat 31) with (2 ^ 248) in R.
  split; [ exact R | ].
  rewrite (le_decode_split 31 s), Hl. change (256 ^ Z.of_nat 31) with (2 ^ 248).
  assert (Hs : skipn 31 s = [nth 31 s 0]).
  { do 32 (destruct s as [| ? s]; [ discriminate Hlen | ]).
    destruct s; [ reflexivity | discriminate Hlen ]. }
  rewrite Hs. cbn [le_decode]. split; [ lia | ].
  assert (Hin : In (nth 31 s 0) s) by (apply nth_In; lia).
  rewrite Forall_forall in Hb. apply Hb. exact Hin.
Qed.

Lemma land_7f (b : Z) : Z.land b 0x7f = b mod 128.
Proof. change 0x7f with (Z.ones 7). apply Z.land_ones. lia. Qed.

Lemma land_80_zero (b : Z) : 0 <= b < 256 -> (Z.land b 0x80 = 0 <-> b < 128).
Proof.
  intros Hb.
  assert (E : Z.land b 0x80 = 2 ^ 7 * Z.b2z (Z.testbit b 7)).
  { apply Z.bits_inj'. intros n Hn. rewrite Z.land_spec.
    destruct (Z.eq_dec n 7) as [-> | Hne].
    - change 0x80 with (2 ^ 7). rewrite Z.pow2_bits_true by lia.
      rewrite andb_true_r. rewrite Z.mul_comm, Z.mul_pow2_bits by lia.
      replace (7 - 7) with 0 by lia. rewrite Z.b2z_bit0. reflexivity.
    - change 0x80 with (2 ^ 7). rewrite Z.pow2_bits_false by lia.
      rewrite andb_false_r. rewrite Z.mul_comm.
      destruct (Z.ltb_spec n 7).
      + rewrite Z.mul_pow2_bits_low by lia. reflexivity.
      + rewrite Z.mul_pow2_bits by lia.
        destruct (Z.testbit b 7); cbn [Z.b2z].
        * rewrite Z.bits_above_log2; [ reflexivity | lia | cbn; lia ].
        * rewrite Z.bits_0. reflexivity. }
  rewrite E. rewrite Z.testbit_eqb by lia.
  change (2 ^ 7) with 128.
  assert (Hq : b / 128 = 0 \/ b / 128 = 1).
  { assert (0 <= b / 128 < 2) by (split; [ apply Z.div_pos | apply Z.div_lt_upper_bound ]; lia).
    lia. }
  destruct Hq as [Hq | Hq]; rewrite Hq; cbn.
  - split; [ intros _ | reflexivity ].
    apply Z.div_small_iff in Hq; lia.
  - split; [ discriminate | intros Hlt ].
    rewrite Z.div_small in Hq by lia. discriminate.
Qed.

(* ------------------------------------------------------------------ *)
(** ** Decoding a buffer into limbs *)

Lemma split_limbs (n : Z) :
  0 <= n ->
  let l0 := n mod 2 ^ 26 in
  let l1 := (n / 2 ^ 26) mod 2 ^ 25 in
  let l2 := (n / 2 ^ 51) mod 2 ^ 26 in
  let l3 := (n / 2 ^ 77) mod 2 ^ 25 in
  let l4 := (n / 2 ^ 102) mod 2 ^ 26 in
  let l5 := (n / 2 ^ 128) mod 2 ^ 25 in
  let l6 := (n / 2 ^ 153) mod 2 ^ 26 in
  let l7 := (n / 2 ^ 179) mod 2 ^ 25 in
  let l8 := (n / 2 ^ 204) mod 2 ^ 26 in
  let l9 := n / 2 ^ 230 in
  n = l0 + 2 ^ 26 * l1 + 2 ^ 51 * l2 + 2 ^ 77 * l3 + 2 ^ 102 * l4
      + 2 ^ 128 * l5 + 2 ^ 153 * l6 + 2 ^ 179 * l7 + 2 ^ 204 * l8
      + 2 ^ 230 * l9.
Proof.
  intros Hn. cbv zeta.
  set (q0 := n / 2 ^ 26).
  set (q1 := q0 / 2 ^ 25). set (q2 := q1 / 2 ^ 26). set (q3 := q2 / 2 ^ 25).
  set (q4 := q3 / 2 ^ 26). set (q5 := q4 / 2 ^ 25). set (q6 := q5 / 2 ^ 26).
  set (q7 := q6 / 2 ^ 25). set (q8 := q7 / 2 ^ 26).
  assert (D1 : n / 2 ^ 51 = q1) by (unfold q1, q0; rewrite Z.div_div by lia; reflexivity).
  assert (D2 : n / 2 ^ 77 = q2) by (unfold q2; rewrite <- D1, Z.div_div by lia; reflexivity).
  assert (D3 : n / 2 ^ 102 = q3) by (unfold q3; rewrite <- D2, Z.div_div by lia; reflexivity).
  assert (D4 : n / 2 ^ 128 = q4) by (unfold q4; rewrite <- D3, Z.div_div by lia; reflexivity).
  assert (D5 : n / 2 ^ 153 = q5) by (unfold q5; rewrite <- D4, Z.div_div by lia; reflexivity).
  assert (D6 : n / 2 ^ 179 = q6) by (unfold q6; rewrite <- D5, Z.div_div by lia; reflexivity).
  assert (D7 : n / 2 ^ 204 = q7) by (unfold q7; rewrite <- D6, Z.div_div by lia; reflexivity).
  assert (D8 : n / 2 ^ 230 = q8) by (unfold q8; rewrite <- D7, Z.div_div by lia; reflexivity).
  rewrite D1, D2, D3, D4, D5, D6, D7, D8.
  pose proof (Z.div_mod n (2 ^ 26) ltac:(lia)).
  pose proof (Z.div_mod q0 (2 ^ 25) ltac:(lia)).
  pose proof (Z.div_mod q1 (2 ^ 26) ltac:(lia)).
  pose proof (Z.div_mod q2 (2 ^ 25) ltac:(lia)).
  pose proof (Z.div_mod q3 (2 ^ 26) ltac:(lia)).
  pose proof (Z.div_mod q4 (2 ^ 25) ltac:(lia)).
  pose proof (Z.div_mod q5 (2 ^ 26) ltac:(lia)).
  pose proof (Z.div_mod q6 (2 ^ 25) ltac:(lia)).
  pose proof (Z.div_mod q7 (2 ^ 26) ltac:(lia)).
  fold q0 in H. fold q1 in H0. fold q2 in H1. fold q3 in H2. fold q4 in H3.
  fold q5 in H4. fold q6 in H5. fold q7 in H6. fold q8 in H7.
  lia.
Qed.

Lemma fiat_25519_from_bytes_eval (s : list Z) :
  0 <= le_decode s -> eval (fiat_25519_from_bytes s) = le_decode s.
Proof.
  intros Hn. unfold fiat_25519_from_bytes, eval. cbv zeta.
  cbn [v0 v1 v2 v3 v4 v5 v6 v7 v8 v9].
  rewrite !Z.land_ones, !Z.shiftr_div_pow2 by lia.
  symmetry. apply (split_limbs (le_decode s) Hn).
Qed.

Lemma fiat_25519_from_bytes_canonical (s : list Z) :
  0 <= le_decode s < 2 ^ 255 -> canonical_limbs (fiat_25519_from_bytes s).
Proof.
  intros Hn. unfold fiat_25519_from_bytes, canonical_limbs, bounded. cbv zeta.
  cbn [v0 v1 v2 v3 v4 v5 v6 v7 v8 v9].
  rewrite !Z.land_ones, !Z.shiftr_div_pow2 by lia.
  assert (M26 : forall x, 0 <= x mod 2 ^ 26 <= 2 ^ 26 - 1)
    by (intros x; pose proof (Z.mod_pos_bound x (2 ^ 26) ltac:(lia)); lia).
  assert (M25 : forall x, 0 <= x mod 2 ^ 25 <= 2 ^ 25 - 1)
    by (intros x; pose proof (Z.mod_pos_bound x (2 ^ 25) ltac:(lia)); lia).
  repeat split; try apply M26; try apply M25.
  - apply Z.div_pos; lia.
  - assert (le_decode s / 2 ^ 230 < 2 ^ 25)
      by (apply Z.div_lt_upper_bound; lia).
    lia.
Qed.

(* ------------------------------------------------------------------ *)
(** ** [fe_frombytes] and [fe_frombytes_strict] *)

Lemma mask_top_is_byte (b : Z) : is_byte b -> is_byte (Z.land b 0x7f).
Proof.
  unfold is_byte. intros Hb. rewrite land_7f.
  pose proof (Z.mod_pos_bound b 128 ltac:(lia)). lia.
Qed.

(** Clearing bit 7 of byte 31 reduces the value modulo [2^255]. *)
Lemma le_decode_mask_top (s : list Z) :
  bytes32 s ->
  le_decode (map_nth 31 (fun b => Z.land b 0x7f) s) = le_decode s mod 2 ^ 255.
Proof.
  intros Hs. destruct (le_decode_top s Hs) as (lo & Hlo & E & Hb).
  destruct Hs as [Hlen _].
  rewrite map_nth_decode by lia. rewrite land_7f, E.
  change (256 ^ Z.of_nat 31) with (2 ^ 248).
  generalize dependent (nth 31 s 0). intros b _ Hb.
  Z.div_mod_to_equations. lia.
Qed.

Lemma strict_assert_iff (s : list Z) :
  bytes32 s ->
  (Z.land (nth 31 s 0) 0x80 = 0 <-> le_decode s < 2 ^ 255).
Proof.
  intros Hs. destruct (le_decode_top s Hs) as (lo & Hlo & E & Hb).
  rewrite (land_80_zero _ Hb), E. lia.
Qed.

Lemma fe_frombytes_strict_some (s : list Z) :
  bytes32 s -> le_decode s < 2 ^ 255 ->
  fe_frombytes_strict s = Some (fiat_25519_from_bytes s).
Proof.
  intros Hs Hlt. unfold fe_frombytes_strict.
  apply (strict_assert_iff s Hs) in Hlt. rewrite Hlt. reflexivity.
Qed.

Lemma fe_frombytes_strict_none (s : list Z) :
  bytes32 s -> 2 ^ 255 <= le_decode s -> fe_frombytes_strict s = None.
Proof.
  intros Hs Hge. unfold fe_frombytes_strict.
  destruct (Z.eqb_spec (Z.land (nth 31 s 0) 0x80) 0) as [E | _]; [ | reflexivity ].
  apply (strict_assert_iff s Hs) in E. lia.
Qed.

Lemma masked_bytes32 (s : list Z) :
  bytes32 s -> bytes32 (map_nth 31 (fun b => Z.land b 0x7f) s).
Proof.
  intros [Hlen Hb]. split.
  - rewrite map_nth_length. exact Hlen.
  - apply map_nth_bytes; [ exact mask_top_is_byte | exact Hb ].
Qed.

Lemma fe_frombytes_some (s : list Z) :
  bytes32 s ->
  exists h, fe_frombytes s = Some h /\ canonical_limbs h /\
            eval h = le_decode s mod 2 ^ 255.
Proof.
  intros Hs. unfold fe_frombytes. cbv zeta.
  set (m := map_nth 31 (fun b => Z.land b 0x7f) s).
  pose proof (le_decode_mask_top s Hs) as E. fold m in E.
  pose proof (masked_bytes32 s Hs) as Hm. fold m in Hm.
  pose proof (Z.mod_pos_bound (le_decode s) (2 ^ 255) ltac:(lia)) as R.
  exists (fiat_25519_from_bytes m). split; [ | split ].
  - apply fe_frombytes_strict_some; [ exact Hm | lia ].
  - apply fiat_25519_from_bytes_canonical. lia.
  - rewrite fiat_25519_from_bytes_eval by lia. exact E.
Qed.

(* ------------------------------------------------------------------ *)
(** ** Primality of [2^255 - 19] *)

Lemma powmod_pos_spec (a : Z) (e : positive) (n : Z) :
  powmod_pos a e n = a ^ Zpos e mod n.
Proof.
  induction e as [e IH | e IH |]; cbn [powmod_pos].
  - rewrite IH. rewrite Pos2Z.inj_xI.
    replace (2 * Z.pos e + 1) with (1 + (Z.pos e + Z.pos e)) by lia.
    rewrite Z.pow_add_r, Z.pow_1_r, Z.pow_add_r by lia.
    rewrite <- Zmult_mod, Zmult_mod_idemp_r. reflexivity.
  - rewrite IH. rewrite Pos2Z.inj_xO.
    replace (2 * Z.pos e) with (Z.pos e + Z.pos e) by lia.
    rewrite Z.pow_add_r by lia. rewrite <- Zmult_mod. reflexivity.
  - rewrite Z.pow_1_r. reflexivity.
Qed.

Lemma powmod_spec (a e n : Z) : 0 <= e -> powmod a e n = a ^ e mod n.
Proof.
  intros He. destruct e as [| e | e]; cbn [powmod].
  - reflexivity.
  - apply powmod_pos_spec.
  - lia.
Qed.

(** Every number above 1 has a prime divisor. *)
Lemma prime_divisor (n : Z) : 1 < n -> exists r, Z.prime r /\ (r | n).
Proof.
  intros Hn. assert (H0 : 0 <= n) by lia. revert Hn.
  pattern n. apply (Z_lt_induction); [ | exact H0 ]. clear n H0.
  intros n IH Hn.
  destruct (prime_dec n) as [Hp | Hnp].
  - exists n. split; [ apply prime_alt; exact Hp | apply Z.divide_refl ].
  - destruct (not_prime_divide n Hn Hnp) as (m & Hm & Hd).
    destruct (IH m ltac:(lia) ltac:(lia)) as (r & Hr & Hrm).
    exists r. split; [ exact Hr | ]. eapply Z.divide_trans; eassumption.
Qed.

(** A composite number has a prime divisor at most its square root. *)
Lemma composite_small_divisor (n m : Z) :
  1 < m < n -> (m | n) -> exists r, Z.prime r /\ (r | n) /\ r * r <= n.
Proof.
  intros Hm [k Hk].
  assert (Hk1 : 1 < k) by nia.
  assert (Hs : exists s, 1 < s /\ (s | n) /\ s * s <= n).
  { destruct (Z_le_gt_dec m k).
    - exists m. split; [ lia | split; [ exists k; exact Hk | nia ] ].
    - exists k. split; [ lia | split; [ exists m; lia | nia ] ]. }
  destruct Hs as (s & Hs1 & Hsn & Hss).
  destruct (prime_divisor s Hs1) as (r & Hr & Hrs).
  exists r. split; [ exact Hr | split ].
  - eapply Z.divide_trans; eassumption.
  - pose proof (Z.prime_ge_2 r Hr).
    assert (r <= s) by (apply Z.divide_pos_le; [ lia | exact Hrs ]).
    nia.
Qed.

Section PocklingtonStep.

Variables (N r q e a : Z).
Hypothesis HN : 1 < N.
Hypothesis Hr : Z.prime r.
Hypothesis HrN : (r | N).
Hypothesis Hq : Z.prime q.
Hypothesis He : 0 < e.
Hypothesis Hqe : (q ^ e | N - 1).
Hypothesis Ha1 : a ^ (N - 1) mod N = 1.
Hypothesis Ha2 : Z.gcd (a ^ ((N - 1) / q) mod N - 1) N = 1.

Let r_ge_2 : 2 <= r := Z.prime_ge_2 r Hr.

Lemma pock_mod_r (x : Z) : (x mod N) mod r = x mod r.
Proof. apply Z.mod_mod_divide. exact HrN. Qed.

Lemma pock_a_pow_r : a ^ (N - 1) mod r = 1.
Proof.
  rewrite <- pock_mod_r, Ha1. apply Z.mod_small. lia.
Qed.

Lemma pock_a_coprime : Z.coprime (a mod r) r.
Proof.
  apply Z.coprime_mod_l_iff. symmetry.
  apply Z.coprime_prime_l; [ exact Hr | ].
  intros Hd.
  assert (Hz : a ^ (N - 1) mod r = 0).
  { apply Z.mod_divide; [ lia | ].
    eapply Z.divide_trans; [ exact Hd | ].
    apply Z.divide_pow_same_r. lia. }
  rewrite pock_a_pow_r in Hz. discriminate.
Qed.

Lemma pock_x_pow (k : Z) :
  0 <= k -> Zmod.to_Z (Zstar.to_Zmod (Zstar.pow (pock_x r a) k)) = a ^ k mod r.
Proof.
  intros Hk. unfold pock_x.
  rewrite Zstar.to_Zmod_pow, Zstar.to_Zmod_of_Zmod.
  - rewrite Zmod.to_Z_pow_nonneg_r, Zmod.to_Z_of_Z, Z.mod_pow_l by lia.
    reflexivity.
  - rewrite Zmod.to_Z_of_Z. exact pock_a_coprime.
Qed.

Lemma pock_x_one (k : Z) :
  0 <= k -> (Zstar.pow (pock_x r a) k = Zstar.one <-> a ^ k mod r = 1).
Proof.
  intros Hk. rewrite <- (pock_x_pow k Hk). split.
  - intros ->. rewrite Zstar.to_Zmod_1. apply Zmod.to_Z_1_pos. lia.
  - intros E. apply Zstar.to_Zmod_inj, Zmod.to_Z_inj.
    rewrite E, Zstar.to_Zmod_1. symmetry. apply Zmod.to_Z_1_pos. lia.
Qed.

Lemma pock_x_gcd : Zstar.pow (pock_x r a) (Z.gcd (N - 1) (r - 1)) = Zstar.one.
Proof.
  destruct (Z.gcd_bezout (N - 1) (r - 1) _ eq_refl) as (u & v & E).
  rewrite <- E.
  rewrite Zstar.pow_add_r.
  rewrite (Z.mul_comm u), (Z.mul_comm v), !Zstar.pow_mul_r.
  assert (E1 : Zstar.pow (pock_x r a) (N - 1) = Zstar.one)
    by (apply pock_x_one; [ lia | exact pock_a_pow_r ]).
  assert (E2 : Zstar.pow (pock_x r a) (r - 1) = Zstar.one)
    by (replace (r - 1) with (Z.pred r) by lia; apply (Zstar.fermat (pock_x r a) Hr)).
  rewrite E1, E2, !Zstar.pow_1_l. apply Zstar.mul_1_l.
Qed.

Lemma pock_step : (q ^ e | r - 1).
Proof.
  set (g := Z.gcd (N - 1) (r - 1)).
  assert (Hg1 : (g | N - 1)) by apply Z.gcd_divide_l.
  assert (Hg2 : (g | r - 1)) by apply Z.gcd_divide_r.
  assert (Hgpos : 0 < g).
  { pose proof (Z.gcd_nonneg (N - 1) (r - 1)).
    assert (g <> 0) by (unfold g; intros E; apply Z.gcd_eq_0_l in E; lia).
    unfold g in *. lia. }
  destruct Hg1 as [h Hh].
  destruct (Z.BoolSpec_divide q h) as [Hqh | Hqh].
  - (* q divides h: then a^((N-1)/q) = 1 mod r, against the gcd *)
    exfalso. destruct Hqh as [h' Hh'].
    pose proof (Z.prime_ge_2 q Hq) as Hq2.
    assert (Hdiv : (N - 1) / q = g * h').
    { rewrite Hh, Hh'. replace (h' * q * g) with (g * h' * q) by ring.
      apply Z.div_mul. lia. }
    assert (Hh'pos : 0 <= h') by nia.
    assert (E : a ^ ((N - 1) / q) mod r = 1).
    { apply pock_x_one; [ rewrite Hdiv; nia | ].
      rewrite Hdiv, Zstar.pow_mul_r. unfold g.
      rewrite pock_x_gcd. apply Zstar.pow_1_l. }
    assert (D : (r | a ^ ((N - 1) / q) mod N - 1)).
    { apply Z.mod_divide; [ lia | ].
      rewrite <- Zminus_mod_idemp_l, pock_mod_r, E. reflexivity. }
    assert (D1 : (r | 1)).
    { rewrite <- Ha2. apply Z.gcd_greatest; assumption. }
    apply Z.divide_1_r_nonneg in D1; lia.
  - (* q does not divide h: q^e divides g *)
    assert (C : Z.coprime (q ^ e) h).
    { apply Z.coprime_pow_l; [ lia | ]. apply Z.coprime_prime_l; assumption. }
    eapply Z.divide_trans; [ | exact Hg2 ].
    apply (Z.gauss (q ^ e) h g); [ | exact C ].
    rewrite <- Hh. exact Hqe.
Qed.

End PocklingtonStep.

Lemma pock_factor_divides (N r : Z) (cs : list (Z * Z * Z)) :
  1 < N -> Z.prime r -> (r | N) ->
  Forall (fun c => Z.prime (fst (fst c))) cs ->
  forallb (pock_line N) cs = true ->
  (pock_factor cs | r - 1).
Proof.
  intros HN Hr HrN Hps Hcs. induction cs as [| [[q e] a] cs IH].
  - cbn. apply Z.divide_1_l.
  - cbn [pock_factor fold_right]. fold (pock_factor cs).
    cbn [forallb] in Hcs. apply andb_true_iff in Hcs. destruct Hcs as [Hl Hcs].
    inversion Hps as [| ? ? Hq Hps']; subst. cbn [fst] in Hq.
    apply Z.lcm_least; [ | apply IH; assumption ].
    unfold pock_line in Hl.
    rewrite !andb_true_iff, Z.ltb_lt, !Z.eqb_eq in Hl.
    destruct Hl as (((He & Hd) & H1) & H2).
    assert (Hq2 := Z.prime_ge_2 q Hq).
    assert (0 <= (N - 1) / q) by (apply Z.div_pos; lia).
    rewrite powmod_spec in H1, H2 by lia.
    apply (pock_step N r q e a HN Hr HrN Hq He); try assumption.
    apply Z.mod_divide; [ | exact Hd ].
    apply Z.pow_nonzero; lia.
Qed.

(** Pocklington's criterion, as a check on a certificate. *)
Theorem pocklington (N : Z) (cs : list (Z * Z * Z)) :
  Forall (fun c => Z.prime (fst (fst c))) cs ->
  pock_check N cs = true -> Z.prime N.
Proof.
  intros Hps Hc. unfold pock_check in Hc.
  rewrite !andb_true_iff, !Z.ltb_lt in Hc. destruct Hc as ((HN & Hcs) & HF).
  split; [ exact HN | ].
  intros m Hm Hd.
  destruct (composite_small_divisor N m Hm Hd) as (r & Hr & HrN & Hrr).
  pose proof (pock_factor_divides N r cs HN Hr HrN Hps Hcs) as HFr.
  pose proof (Z.prime_ge_2 r Hr) as Hr2.
  assert (HFle : Z.abs (pock_factor cs) <= Z.abs (r - 1))
    by (apply Z.absle_divide; [ exact HFr | lia ]).
  assert (Z.abs (pock_factor cs) * Z.abs (pock_factor cs)
          = pock_factor cs * pock_factor cs) by lia.
  nia.
Qed.

(** Trial division decides primality of small numbers. *)
Lemma no_divisor_spec (fuel : nat) (d n : Z) :
  0 < d -> no_divisor fuel d n = true ->
  forall k, d <= k -> k * k <= n -> ~ (k | n).
Proof.
  revert d. induction fuel as [| fuel IH]; intros d Hd H k Hk Hkk Hdiv;
    cbn [no_divisor] in H.
  - destruct (Z.ltb_spec n (d * d)); [ nia | discriminate ].
  - destruct (Z.ltb_spec n (d * d)); [ nia | ].
    destruct (Z.eqb_spec (n mod d) 0) as [| Hnz]; [ discriminate | ].
    destruct (Z.eq_dec k d) as [-> | Hne].
    + apply Hnz. apply Z.mod_divide; [ lia | exact Hdiv ].
    + apply (IH (d + 1) ltac:(lia) H k); [ lia | exact Hkk | exact Hdiv ].
Qed.

Lemma small_prime_spec (n : Z) : small_prime n = true -> Z.prime n.
Proof.
  unfold small_prime. rewrite andb_true_iff, Z.ltb_lt. intros [Hn Hnd].
  split; [ exact Hn | ].
  intros m Hm Hd.
  destruct (composite_small_divisor n m Hm Hd) as (r & Hr & Hrn & Hrr).
  pose proof (Z.prime_ge_2 r Hr).
  exact (no_divisor_spec 2000 2 n ltac:(lia) Hnd r ltac:(lia) Hrr Hrn).
Qed.

(** The chain of certificates below [2^255 - 19]: each prime [n] comes
    with prime factors of [n - 1] whose product exceeds the square root
    of [n]. *)

Ltac certified_factors :=
  repeat first [ apply Forall_nil | apply Forall_cons; cbn [fst] ].

Ltac small_prime_tac := apply small_prime_spec; vm_compute; reflexivity.

Lemma prime_8574133 : Z.prime 8574133.
Proof.
  apply (pocklington _ [(991, 1, 2); (103, 1, 2)]).
  - certified_factors; small_prime_tac.
  - vm_compute. reflexivity.
Qed.

Lemma prime_1919519569386763 : Z.prime 1919519569386763.
Proof.
  apply (pocklington _ [(8574133, 1, 2); (127, 1, 2)]).
  - certified_factors; [ exact prime_8574133 | small_prime_tac ].
  - vm_compute. reflexivity.
Qed.

Lemma prime_2773320623 : Z.prime 2773320623.
Proof.
  apply (pocklington _ [(569003, 1, 2)]).
  - certified_factors; small_prime_tac.
  - vm_compute. reflexivity.
Qed.

Lemma prime_72106336199 : Z.prime 72106336199.
Proof.
  apply (pocklington _ [(2773320623, 1, 2)]).
  - certified_factors; exact prime_2773320623.
  - vm_compute. reflexivity.
Qed.

Lemma prime_31757755568855353 : Z.prime 31757755568855353.
Proof.
  apply (pocklington _ [(430751, 1, 2); (4153, 1, 2)]).
  - certified_factors; small_prime_tac.
  - vm_compute. reflexivity.
Qed.

Lemma prime_75445702479781427272750846543864801 :
  Z.prime 75445702479781427272750846543864801.
Proof.
  apply (pocklington _ [(1919519569386763, 1, 2); (72106336199, 1, 2)]).
  - certified_factors;
      [ exact prime_1919519569386763 | exact prime_72106336199 ].
  - vm_compute. reflexivity.
Qed.

Lemma prime_74058212732561358302231226437062788676166966415465897661863160754340907 :
  Z.prime 74058212732561358302231226437062788676166966415465897661863160754340907.
Proof.
  apply (pocklington _ [(75445702479781427272750846543864801, 1, 2);
                        (31757755568855353, 1, 2)]).
  - certified_factors;
      [ exact prime_75445702479781427272750846543864801
      | exact prime_31757755568855353 ].
  - vm_compute. reflexivity.
Qed.

Theorem prime_p25519 : Z.prime p25519.
Proof.
  apply (pocklington _
           [(74058212732561358302231226437062788676166966415465897661863160754340907, 1, 2)]).
  - certified_factors;
    exact prime_74058212732561358302231226437062788676166966415465897661863160754340907.
  - vm_compute. reflexivity.
Qed.

(* ------------------------------------------------------------------ *)
(** ** Field elements in GF(p) *)

Lemma p25519_ge_2 : 2 <= p25519.
Proof. apply Z.prime_ge_2, prime_p25519. Qed.

Lemma fval_feval (f : limbs) : fval f = Zmod.of_Z p25519 (feval f).
Proof. unfold fval, feval. symmetry. apply Zmod.of_Z_mod. Qed.

Lemma to_Z_fval (f : limbs) : Zmod.to_Z (fval f) = feval f.
Proof. unfold fval, feval. apply Zmod.to_Z_of_Z. Qed.

Lemma fval_eq_iff (f g : limbs) : fval f = fval g <-> feval f = feval g.
Proof. unfold fval, feval. apply Zmod.of_Z_inj. Qed.

Lemma fval_mul (f g : limbs) :
  loose f -> loose g ->
  fval (fiat_25519_carry_mul f g) = Zmod.mul (fval f) (fval g).
Proof.
  intros Hf Hg. rewrite fval_feval, feval_mul by assumption.
  rewrite Zmod.of_Z_mod, Zmod.of_Z_mul, <- !fval_feval. reflexivity.
Qed.

Lemma fval_square (f : limbs) :
  loose f -> fval (fiat_25519_carry_square f) = Zmod.mul (fval f) (fval f).
Proof. intros Hf. unfold fiat_25519_carry_square. apply fval_mul; exact Hf. Qed.

Lemma fval_add (f g : limbs) :
  tight f -> tight g -> fval (fiat_25519_add f g) = Zmod.add (fval f) (fval g).
Proof.
  intros Hf Hg. rewrite fval_feval, feval_add by assumption.
  rewrite Zmod.of_Z_mod, Zmod.of_Z_add, <- !fval_feval. reflexivity.
Qed.

Lemma fval_sub (f g : limbs) :
  tight f -> tight g -> fval (fiat_25519_sub f g) = Zmod.sub (fval f) (fval g).
Proof.
  intros Hf Hg. rewrite fval_feval, feval_sub by assumption.
  rewrite Zmod.of_Z_mod, Zmod.of_Z_sub, <- !fval_feval. reflexivity.
Qed.

Lemma fval_opp (f : limbs) :
  tight f -> fval (fiat_25519_opp f) = Zmod.opp (fval f).
Proof.
  intros Hf. rewrite fval_feval, feval_opp by assumption.
  rewrite Zmod.of_Z_mod, Zmod.of_Z_opp, <- !fval_feval. reflexivity.
Qed.

Lemma fval_carry (f : limbs) : loose f -> fval (fiat_25519_carry f) = fval f.
Proof. intros Hf. apply fval_eq_iff, feval_carry, Hf. Qed.

Lemma fval_fe_0 : fval fe_0 = Zmod.zero.
Proof. apply Zmod.of_Z_0. Qed.

Lemma fval_fe_1 : fval fe_1 = Zmod.one.
Proof. apply Zmod.of_Z_1. Qed.

Lemma fval_pow (f : limbs) (e : Z) :
  0 <= e -> Zmod.of_Z p25519 (feval f ^ e mod p25519) = Zmod.pow (fval f) e.
Proof.
  intros He. rewrite Zmod.of_Z_mod, Zmod.of_Z_pow by exact He.
  rewrite <- fval_feval. reflexivity.
Qed.

Lemma fval_invert_pow (z : fe) :
  tight z -> fval (fe_invert z) = Zmod.pow (fval z) (p25519 - 2).
Proof.
  intros Hz. destruct (fe_invert_spec z Hz) as (_ & E).
  rewrite fval_feval, E. apply fval_pow. reflexivity || (unfold p25519; lia).
Qed.

Lemma fval_invert (z : fe) :
  tight z -> fval z <> Zmod.zero -> fval (fe_invert z) = Zmod.inv (fval z).
Proof.
  intros Hz Hnz. rewrite fval_invert_pow by exact Hz.
  apply Zmod.fermat_inv; [ exact Hnz | exact prime_p25519 ].
Qed.

Lemma tight_invert (z : fe) : tight z -> tight (fe_invert z).
Proof. intros Hz. apply (fe_invert_spec z Hz). Qed.

Lemma fval_pow22523 (z : fe) :
  loose z -> fval (fe_pow22523 z) = Zmod.pow (fval z) ((p25519 - 5) / 8).
Proof.
  intros Hz. destruct (fe_pow22523_spec z Hz) as (_ & E).
  rewrite fval_feval, E. apply fval_pow. vm_compute. discriminate.
Qed.

Lemma tight_pow22523 (z : fe) : loose z -> tight (fe_pow22523 z).
Proof. intros Hz. apply (fe_pow22523_spec z Hz). Qed.

Lemma fe_tobytes_eq (f : fe) : fe_tobytes f = le_encode 32 (feval f).
Proof. reflexivity. Qed.

(** The zero test. *)
Lemma fe_isnonzero_spec (f : fe_loose) :
  loose f -> fe_isnonzero f = if Zmod.eqb (fval f) Zmod.zero then 0 else 1.
Proof.
  intros Hf. unfold fe_isnonzero. rewrite fe_tobytes_eq. unfold fe_carry.
  rewrite feval_carry by exact Hf.
  pose proof (feval_range f) as R.
  rewrite memcmp_zero32_encode by (unfold p25519 in R; lia).
  destruct (Zmod.eqb_spec (fval f) Zmod.zero) as [E | N].
  - apply (f_equal Zmod.to_Z) in E. rewrite to_Z_fval, Zmod.to_Z_0 in E.
    rewrite E. reflexivity.
  - destruct (Z.eqb_spec (feval f) 0) as [E | _]; [ | reflexivity ].
    exfalso. apply N. apply Zmod.to_Z_inj. rewrite to_Z_fval, Zmod.to_Z_0.
    exact E.
Qed.

(** The sign test. *)
Lemma fe_isnegative_spec (f : fe) : fe_isnegative f = fsign (fval f).
Proof.
  unfold fe_isnegative, fsign. rewrite fe_tobytes_eq, to_Z_fval.
  change (le_encode 32 (feval f)) with (le_encode (S 31) (feval f)).
  rewrite nth_0_le_encode, land_1_mod.
  generalize (feval f). intros n. Z.div_mod_to_equations. lia.
Qed.

(* ------------------------------------------------------------------ *)
(** ** Contracts of the field functions of [ed25519.c] *)

Lemma fe_mul_ok (f g : limbs) :
  loose f -> loose g ->
  tight (fe_mul_impl f g) /\ fval (fe_mul_impl f g) = Zmod.mul (fval f) (fval g).
Proof.
  intros Hf Hg. unfold fe_mul_impl. split; [ apply tight_mul | apply fval_mul ]; assumption.
Qed.

Lemma fe_sq_ok (f : limbs) :
  loose f ->
  tight (fe_sq_tt f) /\ fval (fe_sq_tt f) = Zmod.mul (fval f) (fval f).
Proof.
  intros Hf. unfold fe_sq_tt. split; [ apply tight_square | apply fval_square ]; assumption.
Qed.

Lemma fe_mul_ltt_ok (f g : limbs) :
  loose f -> loose g ->
  tight (fe_mul_ltt f g) /\ fval (fe_mul_ltt f g) = Zmod.mul (fval f) (fval g).
Proof. exact (fe_mul_ok f g). Qed.

Lemma fe_mul_llt_ok (f g : limbs) :
  loose f -> loose g ->
  tight (fe_mul_llt f g) /\ fval (fe_mul_llt f g) = Zmod.mul (fval f) (fval g).
Proof. exact (fe_mul_ok f g). Qed.

Lemma fe_mul_ttt_ok (f g : limbs) :
  loose f -> loose g ->
  tight (fe_mul_ttt f g) /\ fval (fe_mul_ttt f g) = Zmod.mul (fval f) (fval g).
Proof. exact (fe_mul_ok f g). Qed.

Lemma fe_mul_tlt_ok (f g : limbs) :
  loose f -> loose g ->
  tight (fe_mul_tlt f g) /\ fval (fe_mul_tlt f g) = Zmod.mul (fval f) (fval g).
Proof. exact (fe_mul_ok f g). Qed.

Lemma fe_mul_ttl_ok (f g : limbs) :
  loose f -> loose g ->
  tight (fe_mul_ttl f g) /\ fval (fe_mul_ttl f g) = Zmod.mul (fval f) (fval g).
Proof. exact (fe_mul_ok f g). Qed.

Lemma fe_mul_tll_ok (f g : limbs) :
  loose f -> loose g ->
  tight (fe_mul_tll f g) /\ fval (fe_mul_tll f g) = Zmod.mul (fval f) (fval g).
Proof. exact (fe_mul_ok f g). Qed.

Lemma fe_sq_tl_ok (f : limbs) :
  loose f ->
  tight (fe_sq_tl f) /\ fval (fe_sq_tl f) = Zmod.mul (fval f) (fval f).
Proof. exact (fe_sq_ok f). Qed.

Lemma fe_add_ok (f g : limbs) :
  tight f -> tight g ->
  loose (fe_add f g) /\ fval (fe_add f g) = Zmod.add (fval f) (fval g).
Proof.
  intros Hf Hg. unfold fe_add. split; [ apply loose_add | apply fval_add ]; assumption.
Qed.

Lemma fe_sub_ok (f g : limbs) :
  tight f -> tight g ->
  loose (fe_sub f g) /\ fval (fe_sub f g) = Zmod.sub (fval f) (fval g).
Proof.
  intros Hf Hg. unfold fe_sub. split; [ apply loose_sub | apply fval_sub ]; assumption.
Qed.

Lemma fe_neg_ok (f : limbs) :
  tight f -> loose (fe_neg f) /\ fval (fe_neg f) = Zmod.opp (fval f).
Proof.
  intros Hf. unfold fe_neg. split; [ apply loose_opp | apply fval_opp ]; assumption.
Qed.

Lemma fe_carry_ok (f : limbs) :
  loose f -> tight (fe_carry f) /\ fval (fe_carry f) = fval f.
Proof.
  intros Hf. unfold fe_carry. split; [ apply tight_carry | apply fval_carry ]; assumption.
Qed.

Lemma fe_pow22523_ok (f : limbs) :
  loose f ->
  tight (fe_pow22523 f) /\
  fval (fe_pow22523 f) = Zmod.pow (fval f) ((p25519 - 5) / 8).
Proof.
  intros Hf. split; [ apply tight_pow22523 | apply fval_pow22523 ]; assumption.
Qed.

Lemma fe_invert_ok (f : limbs) :
  tight f ->
  tight (fe_invert f) /\ fval (fe_invert f) = Zmod.pow (fval f) (p25519 - 2).
Proof.
  intros Hf. split; [ apply tight_invert | apply fval_invert_pow ]; assumption.
Qed.

Lemma fe_sq2_ok (f : limbs) :
  loose f ->
  tight (fe_sq2_tt f) /\
  fval (fe_sq2_tt f)
  = Zmod.add (Zmod.mul (fval f) (fval f)) (Zmod.mul (fval f) (fval f)).
Proof.
  intros Hf. unfold fe_sq2_tt.
  destruct (fe_sq_ok f Hf) as (T1 & E1).
  destruct (fe_add_ok _ _ T1 T1) as (L2 & E2).
  destruct (fe_carry_ok _ L2) as (T3 & E3).
  split; [ exact T3 | ]. rewrite E3, E2, E1. reflexivity.
Qed.

Create HintDb fe_bounds.

#[export] Hint Resolve tight_loose tight_fe_1 tight_fe_0 tight_d tight_d2
  tight_sqrtm1 : fe_bounds.

Ltac fe_bounds := solve [ auto with fe_bounds ].

(** The contract of one call, by the function called. *)
Ltac fe_contract A :=
  lazymatch A with
  | fe_mul_ttt ?a ?b => constr:(fe_mul_ttt_ok a b)
  | fe_mul_ttl ?a ?b => constr:(fe_mul_ttl_ok a b)
  | fe_mul_tlt ?a ?b => constr:(fe_mul_tlt_ok a b)
  | fe_mul_tll ?a ?b => constr:(fe_mul_tll_ok a b)
  | fe_mul_ltt ?a ?b => constr:(fe_mul_ltt_ok a b)
  | fe_mul_llt ?a ?b => constr:(fe_mul_llt_ok a b)
  | fe_sq_tt ?a => constr:(fe_sq_ok a)
  | fe_sq_tl ?a => constr:(fe_sq_tl_ok a)
  | fe_sq2_tt ?a => constr:(fe_sq2_ok a)
  | fe_add ?a ?b => constr:(fe_add_ok a b)
  | fe_sub ?a ?b => constr:(fe_sub_ok a b)
  | fe_neg ?a => constr:(fe_neg_ok a)
  | fe_carry ?a => constr:(fe_carry_ok a)
  | fe_pow22523 ?a => constr:(fe_pow22523_ok a)
  | fe_invert ?a => constr:(fe_invert_ok a)
  end.

(** Name the result of a call and record its bounds and its value. *)
Ltac fe_call t A :=
  let B := fresh "B" t in
  let E := fresh "E" t in
  let c := fe_contract A in
  first
    [ destruct (c ltac:(fe_bounds) ltac:(fe_bounds)) as (B & E)
    | destruct (c ltac:(fe_bounds)) as (B & E) ];
  set (t := A) in *; clearbody t.

(** Peel the outermost [let] of the program under a predicate. *)
Ltac fe_let :=
  lazymatch goal with
  | |- ?R (let t := fe_1 in @?K t) => change (R (K fe_1)); cbv beta
  | |- ?R (let t := (fun x => _) in _) => cbv zeta
  | |- ?R (let t := ?A in @?K t) =>
      let t' := fresh "t_" t in
      change (R (K A)); cbv beta;
      fe_call t' A
  end.

(* ------------------------------------------------------------------ *)
(** ** Algebra in GF(p) *)

Add Ring GF_ring : (Zmod.ring_theory p25519).
Add Field GF_field : (Zmod.field_theory p25519 prime_p25519).

Lemma sqrt_m1_square : Zmod.mul sqrt_m1 sqrt_m1 = Zmod.opp Zmod.one.
Proof. apply Zmod.to_Z_inj. vm_compute. reflexivity. Qed.

Lemma on_curve_iff (x y : GF) :
  on_curve x y <-> Zmod.mul (decode_v y) (Zmod.mul x x) = decode_u y.
Proof.
  unfold on_curve, decode_u, decode_v.
  set (l := Zmod.add (Zmod.opp (Zmod.mul x x)) (Zmod.mul y y)).
  set (r := Zmod.add Zmod.one
              (Zmod.mul curve_d (Zmod.mul (Zmod.mul x x) (Zmod.mul y y)))).
  set (a := Zmod.mul (Zmod.add (Zmod.mul curve_d (Zmod.mul y y)) Zmod.one)
              (Zmod.mul x x)).
  set (b := Zmod.sub (Zmod.mul y y) Zmod.one).
  assert (E : Zmod.sub a b = Zmod.sub r l) by (unfold a, b, r, l; ring).
  rewrite <- (Zmod.sub_eq_0_iff a b), E, Zmod.sub_eq_0_iff.
  split; intros H; symmetry; exact H.
Qed.

Lemma fix_sign_square (x : GF) (sign : Z) :
  Zmod.mul (fix_sign x sign) (fix_sign x sign) = Zmod.mul x x.
Proof. unfold fix_sign. destruct (fsign x =? sign); ring. Qed.

(** What the specified decoding accepts is a point of the curve. *)
Lemma decode_spec_on_curve (s : list Z) (x y : GF) :
  decode_spec s = Some (x, y) -> y = decode_y s /\ on_curve x y.
Proof.
  unfold decode_spec. cbv zeta.
  remember (decode_y s) as y0 eqn:Ey0.
  remember (decode_candidate y0) as x0 eqn:Ex0.
  remember (decode_sign s) as sg eqn:Esg.
  remember (decode_u y0) as u0 eqn:Eu0.
  remember (decode_v y0) as w0 eqn:Ew0.
  remember (fix_sign x0 sg) as xa eqn:Exa.
  remember (fix_sign (Zmod.mul x0 sqrt_m1) sg) as xb eqn:Exb.
  clear Ex0 Esg.
  destruct (Zmod.eqb_spec (Zmod.mul w0 (Zmod.mul x0 x0)) u0) as [E1 | N1].
  - intros [= <- <-]. split; [ reflexivity | ].
    apply on_curve_iff. rewrite Exa, fix_sign_square, <- Ew0, <- Eu0. exact E1.
  - destruct (Zmod.eqb_spec (Zmod.mul w0 (Zmod.mul x0 x0)) (Zmod.opp u0))
      as [E2 | N2]; [ | discriminate ].
    intros [= <- <-]. split; [ reflexivity | ].
    apply on_curve_iff. rewrite Exb, fix_sign_square, <- Ew0, <- Eu0.
    transitivity (Zmod.opp (Zmod.mul w0 (Zmod.mul x0 x0))).
    + transitivity (Zmod.mul (Zmod.mul w0 (Zmod.mul x0 x0))
                      (Zmod.mul sqrt_m1 sqrt_m1)); [ ring | ].
      rewrite sqrt_m1_square. ring.
    + rewrite E2. ring.
Qed.

(** The sign fix-up and the product [T = X * Y] at the end of decoding. *)
Lemma decode_fixup_ok (hX hY : fe) (sign : Z) :
  tight hX -> tight hY ->
  let hX' :=
    if negb (fe_isnegative hX =? sign) then fe_carry (fe_neg hX) else hX in
  tight hX' /\ fval hX' = fix_sign (fval hX) sign /\
  tight (fe_mul_ttt hX' hY) /\
  fval (fe_mul_ttt hX' hY) = Zmod.mul (fix_sign (fval hX) sign) (fval hY).
Proof.
  intros BX BY hX'.
  assert (H : tight hX' /\ fval hX' = fix_sign (fval hX) sign).
  { unfold hX', fix_sign. rewrite fe_isnegative_spec.
    destruct (fsign (fval hX) =? sign); cbn [negb].
    - split; [ exact BX | reflexivity ].
    - destruct (fe_neg_ok hX BX) as (B1 & E1).
      destruct (fe_carry_ok _ B1) as (B2 & E2).
      split; [ exact B2 | rewrite E2, E1; reflexivity ]. }
  destruct H as (B & E).
  destruct (fe_mul_ttt_ok hX' hY (tight_loose _ B) (tight_loose _ BY)) as (B3 & E3).
  rewrite E in E3. auto.
Qed.

Lemma decode_refines (h : ge_p3) (s : list Z) :
  bytes32 s -> decode_ok s (x25519_ge_frombytes_vartime h s).
Proof.
  intros Hs. destruct (fe_frombytes_some s Hs) as (hY & EY & CY & VY).
  apply canonical_tight in CY.
  cbv beta delta [x25519_ge_frombytes_vartime]. rewrite EY. cbv beta iota.
  repeat fe_let.
  assert (Hy : fval hY = decode_y s)
    by (unfold fval, decode_y; rewrite VY; reflexivity).
  assert (Hu : fval t_u = decode_u (decode_y s))
    by (rewrite Et_u, Et_v, Et_v3, fval_fe_1, Hy; reflexivity).
  assert (Hv : fval t_v0 = decode_v (decode_y s))
    by (rewrite Et_v0, Et_vxx, Et_v3, fval_fe_1, Hy; unfold decode_v, curve_d; ring).
  assert (Hx : fval t_hX4 = decode_candidate (decode_y s)).
  { unfold decode_candidate. cbv zeta. rewrite <- Hu, <- Hv.
    assert (E3 : fval t_v2 = Zmod.mul (Zmod.mul (fval t_v0) (fval t_v0)) (fval t_v0))
      by (rewrite Et_v2, Et_v1; reflexivity).
    assert (E7 : fval t_hX1
                 = Zmod.mul (fval t_u) (Zmod.mul (Zmod.mul (fval t_v2) (fval t_v2)) (fval t_v0)))
      by (rewrite Et_hX1, Et_hX0, Et_hX; ring).
    rewrite Et_hX4, Et_hX3, Et_hX2, E7, <- E3.
    generalize (Zmod.pow
                  (Zmod.mul (fval t_u) (Zmod.mul (Zmod.mul (fval t_v2) (fval t_v2)) (fval t_v0)))
                  ((p25519 - 5) / 8)).
    intros w. ring. }
  assert (Hvxx : fval t_vxx1
                 = Zmod.mul (decode_v (decode_y s))
                     (Zmod.mul (decode_candidate (decode_y s))
                        (decode_candidate (decode_y s))))
    by (rewrite Et_vxx1, Et_vxx0, Hx, Hv; ring).
  unfold decode_ok, decode_spec. cbv zeta.
  rewrite <- Hvxx, <- Hu, <- Hx.
  rewrite fe_isnonzero_spec by exact Bt_check. rewrite Et_check.
  destruct (fe_add_ok t_vxx1 t_u Bt_vxx1 Bt_u) as (Bc0 & Ec0).
  rewrite (fe_isnonzero_spec _ Bc0), Ec0.
  fold (decode_sign s).
  pose proof (decode_fixup_ok t_hX4 hY (decode_sign s) Bt_hX4 CY) as F1.
  destruct (fe_mul_ttt_ok t_hX4 sqrtm1 (tight_loose _ Bt_hX4) (tight_loose _ tight_sqrtm1))
    as (B5 & E5).
  pose proof (decode_fixup_ok (fe_mul_ttt t_hX4 sqrtm1) hY (decode_sign s) B5 CY) as F2.
  cbv zeta in F1, F2. rewrite E5 in F2. fold sqrt_m1 in F2.
  destruct F1 as (F1a & F1b & F1c & F1d). destruct F2 as (F2a & F2b & F2c & F2d).
  rewrite <- Hy.
  destruct (Zmod.eqb_spec (fval t_vxx1) (fval t_u)) as [E1 | N1].
  - assert (Z1 : Zmod.sub (fval t_vxx1) (fval t_u) = Zmod.zero)
      by (apply Zmod.sub_eq_0_iff; exact E1).
    rewrite Z1, Zmod.eqb_refl. cbn [Z.eqb negb].
    eexists. split; [ reflexivity | ]. cbn [p3_X p3_Y p3_Z p3_T].
    exact (conj F1b (conj eq_refl (conj eq_refl (conj F1d (conj F1a (conj CY F1c)))))).
  - destruct (Zmod.eqb_spec (Zmod.sub (fval t_vxx1) (fval t_u)) Zmod.zero) as [Z1 | _].
    { exfalso. apply N1. apply Zmod.sub_eq_0_iff. exact Z1. }
    cbn [Z.eqb negb].
    destruct (Zmod.eqb_spec (fval t_vxx1) (Zmod.opp (fval t_u))) as [E2 | N2].
    + assert (Z2 : Zmod.add (fval t_vxx1) (fval t_u) = Zmod.zero)
        by (rewrite E2; ring).
      rewrite Z2, Zmod.eqb_refl. cbn [Z.eqb negb].
      eexists. split; [ reflexivity | ]. cbn [p3_X p3_Y p3_Z p3_T].
      exact (conj F2b (conj eq_refl (conj eq_refl (conj F2d (conj F2a (conj CY F2c)))))).
    + destruct (Zmod.eqb_spec (Zmod.add (fval t_vxx1) (fval t_u)) Zmod.zero) as [Z2 | _].
      { exfalso. apply N2.
        transitivity (Zmod.sub (Zmod.add (fval t_vxx1) (fval t_u)) (fval t_u)); [ ring | ].
        rewrite Z2. ring. }
      cbn [Z.eqb negb]. eexists. reflexivity.
Qed.

(* ------------------------------------------------------------------ *)
(** ** Point encoding *)

Lemma bytes_eq_by_decode (s t : list Z) :
  Forall is_byte s -> Forall is_byte t -> length s = length t ->
  le_decode s = le_decode t -> s = t.
Proof.
  intros Hs Ht Hl E.
  rewrite <- (le_encode_decode s Hs), <- (le_encode_decode t Ht), Hl, E.
  reflexivity.
Qed.

Lemma nth_le_encode (i n : nat) (x : Z) :
  (i < n)%nat -> nth i (le_encode n x) 0 = (x / 256 ^ Z.of_nat i) mod 256.
Proof.
  revert n x. induction i as [| i IH]; intros [| n] x H; try lia.
  - cbn [le_encode nth]. change (256 ^ Z.of_nat 0) with 1. rewrite Z.div_1_r.
    reflexivity.
  - cbn [le_encode nth]. rewrite IH by lia.
    rewrite Nat2Z.inj_succ, Z.pow_succ_r, Z.div_div by lia. reflexivity.
Qed.

Lemma top_byte_small (y : Z) :
  0 <= y < 2 ^ 255 ->
  0 <= nth 31 (le_encode 32 y) 0 < 128 /\
  nth 31 (le_encode 32 y) 0 = y / 2 ^ 248.
Proof.
  intros Hy. rewrite nth_le_encode by lia.
  change (256 ^ Z.of_nat 31) with (2 ^ 248).
  assert (0 <= y / 2 ^ 248 < 128).
  { split; [ apply Z.div_pos; lia | apply Z.div_lt_upper_bound; lia ]. }
  rewrite Z.mod_small by lia. lia.
Qed.

(** Setting byte 31 of the encoding of [y < 2^255] to [b31 + 128 sign]
    encodes [y + 2^255 sign]. *)
Lemma set_top_encode (f : Z -> Z) (y sign : Z) :
  0 <= y < 2 ^ 255 -> 0 <= sign <= 1 ->
  f (nth 31 (le_encode 32 y) 0) = nth 31 (le_encode 32 y) 0 + 128 * sign ->
  (forall b, is_byte (f b)) ->
  map_nth 31 f (le_encode 32 y) = le_encode 32 (y + 2 ^ 255 * sign).
Proof.
  intros Hy Hs Hf Hb.
  apply bytes_eq_by_decode.
  - apply map_nth_bytes; [ intros b _; apply Hb | apply le_encode_bytes ].
  - apply le_encode_bytes.
  - rewrite map_nth_length, !le_encode_length. reflexivity.
  - rewrite map_nth_decode by (rewrite le_encode_length; lia).
    rewrite Hf, !le_decode_encode.
    change (256 ^ Z.of_nat 32) with (2 ^ 256).
    change (256 ^ Z.of_nat 31) with (2 ^ 248).
    rewrite !Z.mod_small by lia. lia.
Qed.

Lemma xor_sign_encode (y sign : Z) :
  0 <= y < 2 ^ 255 -> 0 <= sign <= 1 ->
  xor_sign (le_encode 32 y) sign = le_encode 32 (y + 2 ^ 255 * sign).
Proof.
  intros Hy Hs. unfold xor_sign.
  destruct (top_byte_small y Hy) as (Hb & _).
  apply set_top_encode; try assumption.
  - set (b := nth 31 (le_encode 32 y) 0) in *. clearbody b.
    assert (Hc : sign = 0 \/ sign = 1) by lia.
    destruct Hc as [-> | ->]; cbn [Z.shiftl Pos.iter].
    + rewrite Z.lxor_0_r. unfold u8. rewrite Z.mod_small by lia. lia.
    + change (Z.shiftl 1 7) with 0x80.
      rewrite <- Z.add_nocarry_lxor by (apply land_80_zero; lia).
      unfold u8. rewrite Z.mod_small by lia. lia.
  - intros b. unfold u8, is_byte. apply Z.mod_pos_bound. lia.
Qed.

Lemma fsign_range (x : GF) : 0 <= fsign x <= 1.
Proof.
  unfold fsign. pose proof (Z.mod_pos_bound (Zmod.to_Z x) 2 ltac:(lia)). lia.
Qed.

Lemma GF_to_Z_range (x : GF) : 0 <= Zmod.to_Z x < 2 ^ 255.
Proof.
  pose proof (Zmod.unsigned_pos_bound x p25519_pos) as R. revert R.
  generalize (Zmod.to_Z x). intros z R. unfold p25519 in R. lia.
Qed.

Lemma encode_spec_closed (x y : GF) :
  encode_spec x y = le_encode 32 (Zmod.to_Z y + 2 ^ 255 * fsign x).
Proof.
  unfold encode_spec.
  pose proof (GF_to_Z_range y) as Hy. pose proof (fsign_range x) as Hs.
  destruct (top_byte_small _ Hy) as (Hb & _).
  apply set_top_encode; try assumption.
  - rewrite Z.mod_small by lia. reflexivity.
  - intros b. unfold is_byte.
    pose proof (Z.mod_pos_bound b 128 ltac:(lia)). lia.
Qed.

(** Both encoders, on the projective coordinates. *)
Lemma tobytes_xyz (X Y Z : fe) :
  tight X -> tight Y -> tight Z -> fval Z <> Zmod.zero ->
  xor_sign (fe_tobytes (fe_mul_ttt Y (fe_invert Z)))
           (fe_isnegative (fe_mul_ttt X (fe_invert Z)))
  = encode_spec (Zmod.mdiv (fval X) (fval Z)) (Zmod.mdiv (fval Y) (fval Z)).
Proof.
  intros BX BY BZ HZ.
  destruct (fe_invert_ok Z BZ) as (Br & _).
  pose proof (fval_invert Z BZ HZ) as Er.
  destruct (fe_mul_ttt_ok X _ (tight_loose _ BX) (tight_loose _ Br)) as (Bx & Ex).
  destruct (fe_mul_ttt_ok Y _ (tight_loose _ BY) (tight_loose _ Br)) as (By & Ey).
  rewrite Er, Zmod.mul_inv_r in Ex, Ey.
  rewrite fe_tobytes_eq, fe_isnegative_spec, <- to_Z_fval, Ex, Ey.
  rewrite xor_sign_encode by (apply GF_to_Z_range || apply fsign_range).
  symmetry. apply encode_spec_closed.
Qed.

(* ------------------------------------------------------------------ *)
(** ** The curve: [d] is not a square, the addition law is complete *)

Lemma GF_one_neq_zero : (Zmod.one : GF) <> Zmod.zero.
Proof. apply Zmod.one_neq_zero. vm_compute. discriminate. Qed.

Lemma GF_mul_zero (a b : GF) : Zmod.mul a b = Zmod.zero -> a = Zmod.zero \/ b = Zmod.zero.
Proof. apply Zmod.mul_0_iff_prime. exact prime_p25519. Qed.

Lemma GF_mul_nonzero (a b : GF) :
  a <> Zmod.zero -> b <> Zmod.zero -> Zmod.mul a b <> Zmod.zero.
Proof. intros Ha Hb H. destruct (GF_mul_zero a b H); contradiction. Qed.

Lemma GF_pow_value (x : GF) (e : Z) :
  0 <= e -> Zmod.to_Z (Zmod.pow x e) = powmod (Zmod.to_Z x) e p25519.
Proof.
  intros He. rewrite Zmod.to_Z_pow_nonneg_r, powmod_spec by exact He. reflexivity.
Qed.

Lemma curve_d_euler : Zmod.pow curve_d ((p25519 - 1) / 2) = Zmod.opp Zmod.one.
Proof.
  apply Zmod.to_Z_inj. rewrite GF_pow_value by (vm_compute; discriminate).
  vm_compute. reflexivity.
Qed.

Lemma curve_d_nonsquare (t : GF) : Zmod.mul t t <> curve_d.
Proof.
  intros E.
  assert (Ht : t <> Zmod.zero).
  { intros ->. rewrite Zmod.mul_0_l in E.
    apply (f_equal Zmod.to_Z) in E. vm_compute in E. discriminate. }
  pose proof curve_d_euler as H. rewrite <- E in H.
  rewrite Zmod.pow_mul_l_nonneg in H by (vm_compute; discriminate).
  rewrite <- Zmod.pow_add_r_nonneg in H by (vm_compute; discriminate).
  change ((p25519 - 1) / 2 + (p25519 - 1) / 2) with (Z.pred p25519) in H.
  rewrite (Zmod.fermat_nz t Ht prime_p25519) in H.
  apply (f_equal Zmod.to_Z) in H. vm_compute in H. discriminate.
Qed.

Lemma curve_d_ratio_nonsquare (a b : GF) :
  b <> Zmod.zero -> Zmod.mul a a <> Zmod.mul curve_d (Zmod.mul b b).
Proof.
  intros Hb E. apply (curve_d_nonsquare (Zmod.mdiv a b)).
  transitivity (Zmod.mdiv (Zmod.mul a a) (Zmod.mul b b)).
  - field. exact Hb.
  - rewrite E. field. exact Hb.
Qed.

Lemma GF_eq_dec (a b : GF) : a = b \/ a <> b.
Proof. destruct (Zmod.eqb_spec a b); [ left | right ]; assumption. Qed.

(** The identity behind completeness, with [s = 1] or [s = -1]. *)
Lemma edwards_square_identity (i e dd x1 y1 x2 y2 s : GF) :
  (i * i = - GF1 -> s * s = GF1 -> e * e = GF1 ->
   e = dd * ((x1 * x2) * (y1 * y2)) ->
   - (x1 * x1) + y1 * y1 = GF1 + dd * ((x1 * x1) * (y1 * y1)) ->
   - (x2 * x2) + y2 * y2 = GF1 + dd * ((x2 * x2) * (y2 * y2)) ->
   (i * x1 + s * (e * y1)) * (i * x1 + s * (e * y1))
   = dd * (((x1 * y1) * (i * x2 + s * y2)) * ((x1 * y1) * (i * x2 + s * y2))))%Zmod.
Proof.
  intros Hi Hs He Ee C1 C2.
  transitivity (((i * i) * (x1 * x1) + (s * s) * (e * e) * (y1 * y1))
                + (GF1 + GF1) * s * i * x1 * y1 * e)%Zmod; [ ring | ].
  rewrite Hi, Hs, He.
  transitivity ((- (x1 * x1) + y1 * y1) + (GF1 + GF1) * s * i * x1 * y1 * e)%Zmod;
    [ ring | ].
  rewrite C1. symmetry.
  transitivity (dd * (x1 * x1) * (y1 * y1) * ((i * i) * (x2 * x2) + (s * s) * (y2 * y2))
                + (GF1 + GF1) * s * i * x1 * y1 * (dd * ((x1 * x2) * (y1 * y2))))%Zmod;
    [ ring | ].
  rewrite Hi, Hs, <- Ee.
  transitivity (dd * (x1 * x1) * (y1 * y1) * (- (x2 * x2) + y2 * y2)
                + (GF1 + GF1) * s * i * x1 * y1 * e)%Zmod; [ ring | ].
  rewrite C2.
  transitivity ((dd * ((x1 * x1) * (y1 * y1))
                 + (dd * ((x1 * x2) * (y1 * y2))) * (dd * ((x1 * x2) * (y1 * y2))))
                + (GF1 + GF1) * s * i * x1 * y1 * e)%Zmod; [ ring | ].
  rewrite <- Ee, He. ring.
Qed.

(** No two points of the curve have [(d x1 x2 y1 y2)^2 = 1]. *)
Lemma edwards_no_exception (x1 y1 x2 y2 e : GF) :
  on_curve x1 y1 -> on_curve x2 y2 ->
  e = Zmod.mul curve_d (Zmod.mul (Zmod.mul x1 x2) (Zmod.mul y1 y2)) ->
  Zmod.mul e e <> Zmod.one.
Proof.
  unfold on_curve. intros C1 C2 Ee He.
  pose proof sqrt_m1_square as Hi. set (i := sqrt_m1) in *. clearbody i.
  set (dd := curve_d) in *.
  assert (Hd := curve_d_ratio_nonsquare). fold dd in Hd. clearbody dd.
  assert (S1 : (GF1 * GF1 = GF1 :> GF)%Zmod) by ring.
  assert (S2 : ((- GF1) * (- GF1) = GF1 :> GF)%Zmod) by ring.
  pose proof (edwards_square_identity i e dd x1 y1 x2 y2 _ Hi S1 He Ee C1 C2) as K1.
  pose proof (edwards_square_identity i e dd x1 y1 x2 y2 _ Hi S2 He Ee C1 C2) as K2.
  assert (Hxy : Zmod.mul x1 y1 <> Zmod.zero).
  { intros Z0. apply GF_one_neq_zero. rewrite <- He.
    assert (E0 : e = Zmod.zero).
    { rewrite Ee.
      transitivity (dd * (x2 * y2) * (x1 * y1))%Zmod; [ ring | ].
      rewrite Z0. ring. }
    rewrite E0. ring. }
  destruct (GF_eq_dec (i * x2 + GF1 * y2)%Zmod Zmod.zero) as [Z1 | N1].
  - destruct (GF_eq_dec (i * x2 + (- GF1) * y2)%Zmod Zmod.zero) as [Z2 | N2].
    + assert (Y0 : Zmod.mul (Zmod.add Zmod.one Zmod.one) y2 = Zmod.zero).
      { transitivity ((i * x2 + GF1 * y2) - (i * x2 + (- GF1) * y2))%Zmod; [ ring | ].
        rewrite Z1, Z2. ring. }
      apply GF_one_neq_zero. rewrite <- He.
      destruct (GF_mul_zero _ _ Y0) as [Y | Y].
      * apply (f_equal Zmod.to_Z) in Y. vm_compute in Y. discriminate.
      * assert (E0 : e = Zmod.zero) by (rewrite Ee, Y; ring).
        rewrite E0. ring.
    + exact (Hd _ _ (GF_mul_nonzero _ _ Hxy N2) K2).
  - exact (Hd _ _ (GF_mul_nonzero _ _ Hxy N1) K1).
Qed.

(** Completeness: the denominators of the addition law do not vanish on
    the curve. *)
Lemma edwards_complete (x1 y1 x2 y2 : GF) :
  on_curve x1 y1 -> on_curve x2 y2 ->
  let e := Zmod.mul curve_d (Zmod.mul (Zmod.mul x1 x2) (Zmod.mul y1 y2)) in
  Zmod.add Zmod.one e <> Zmod.zero /\ Zmod.sub Zmod.one e <> Zmod.zero.
Proof.
  intros C1 C2 e.
  pose proof (edwards_no_exception x1 y1 x2 y2 e C1 C2 eq_refl) as H.
  clearbody e. split; intros Z0; apply H.
  - assert (E : e = Zmod.opp Zmod.one)
      by (transitivity (Zmod.sub (Zmod.add Zmod.one e) Zmod.one);
          [ ring | rewrite Z0; ring ]).
    rewrite E. ring.
  - assert (E : e = Zmod.one)
      by (transitivity (Zmod.sub Zmod.one (Zmod.sub Zmod.one e));
          [ ring | rewrite Z0; ring ]).
    rewrite E. ring.
Qed.

(* ------------------------------------------------------------------ *)
(** ** Addition and subtraction of group elements *)

Lemma GF_two_neq_zero : Zmod.add Zmod.one Zmod.one <> (Zmod.zero : GF).
Proof. intros H. apply (f_equal Zmod.to_Z) in H. vm_compute in H. discriminate. Qed.

Lemma fval_d2 : fval d2 = Zmod.add curve_d curve_d.
Proof. apply Zmod.to_Z_inj. vm_compute. reflexivity. Qed.

(** The [T] coordinate of an extended point. *)
Lemma p3_repr_T (h : ge_p3) (x y : GF) :
  p3_repr h (x, y) ->
  fval (p3_T h) = Zmod.mul (fval (p3_Z h)) (Zmod.mul x y).
Proof.
  intros (HZ & EX & EY & ET). cbn [fst snd] in *.
  apply (Zmod.mul_cancel_l_prime (fval (p3_Z h))); [ exact prime_p25519 | exact HZ | ].
  rewrite <- ET, EX, EY. ring.
Qed.

(** The formulas of the addition, on field elements. *)
Lemma add_formulas (Z1 z2 x1 y1 x2 y2 : GF) :
  Z1 <> Zmod.zero -> z2 <> Zmod.zero ->
  on_curve x1 y1 -> on_curve x2 y2 ->
  let A := ((Z1 * y1 + Z1 * x1) * (z2 * (y2 + x2)))%Zmod in
  let B := ((Z1 * y1 - Z1 * x1) * (z2 * (y2 - x2)))%Zmod in
  let C := (((curve_d + curve_d) * (z2 * (x2 * y2))) * (Z1 * (x1 * y1)))%Zmod in
  let D := (Z1 * z2 + Z1 * z2)%Zmod in
  (D + C <> Zmod.zero /\ D - C <> Zmod.zero /\
   A - B = (D + C) * fst (ed_add (x1, y1) (x2, y2)) /\
   A + B = (D - C) * snd (ed_add (x1, y1) (x2, y2)))%Zmod.
Proof.
  intros HZ1 Hz2 C1 C2 A B C D.
  destruct (edwards_complete x1 y1 x2 y2 C1 C2) as (Dp & Dm).
  cbv zeta in Dp, Dm. unfold ed_add. cbn [fst snd].
  set (e := Zmod.mul curve_d (Zmod.mul (Zmod.mul x1 x2) (Zmod.mul y1 y2))) in *.
  set (two := (Zmod.add Zmod.one Zmod.one : GF)).
  assert (H2 : (two * (Z1 * z2))%Zmod <> Zmod.zero)
    by (apply GF_mul_nonzero; [ exact GF_two_neq_zero | apply GF_mul_nonzero; assumption ]).
  assert (EDp : (D + C = (two * (Z1 * z2)) * (Zmod.one + e))%Zmod)
    by (unfold D, C, e, two; ring).
  assert (EDm : (D - C = (two * (Z1 * z2)) * (Zmod.one - e))%Zmod)
    by (unfold D, C, e, two; ring).
  rewrite EDp, EDm.
  split; [ apply GF_mul_nonzero; assumption | ].
  split; [ apply GF_mul_nonzero; assumption | ].
  unfold A, B, two. split; field; assumption.
Qed.

Ltac ge_projections :=
  cbv beta iota delta [p3_X p3_Y p3_Z p3_T p2_X p2_Y p2_Z YplusX YminusX
                       cached_Z T2d yplusx yminusx xy2d
                       p1p1_X p1p1_Y p1p1_Z p1p1_T].

Lemma x25519_ge_add_values (p : ge_p3) (q : ge_cached) :
  p3_bounded p -> cached_bounded q -> add_values p q (x25519_ge_add p q).
Proof.
  intros (BX & BY & BZ & BT) (BP & BM & BZq & BTq).
  destruct p as [X Y Z T]. destruct q as [Yp Ym Zq Tq].
  cbn [p3_X p3_Y p3_Z p3_T YplusX YminusX cached_Z T2d] in *.
  cbv beta delta [x25519_ge_add]. ge_projections.
  repeat fe_let.
  unfold add_values, p1p1_bounded. ge_projections. cbv zeta.
  rewrite Et_rX0, Et_rY0, Et_rZ, Et_rT0, Et_trZ0, Et_rT, Et_trX, Et_trT, Et_trZ, Et_trY, Et_rX, Et_rY.
  auto 10.
Qed.

Lemma x25519_ge_sub_quiet_values (p : ge_p3) (q : ge_cached) :
  p3_bounded p -> cached_bounded q -> sub_values p q (x25519_ge_sub_quiet p q).
Proof.
  intros (BX & BY & BZ & BT) (BP & BM & BZq & BTq).
  destruct p as [X Y Z T]. destruct q as [Yp Ym Zq Tq].
  cbn [p3_X p3_Y p3_Z p3_T YplusX YminusX cached_Z T2d] in *.
  cbv beta delta [x25519_ge_sub_quiet]. ge_projections.
  repeat fe_let.
  unfold sub_values, p1p1_bounded. ge_projections. cbv zeta.
  rewrite Et_rX0, Et_rY0, Et_rZ, Et_rT0, Et_trZ0, Et_rT, Et_trX, Et_trT, Et_trZ, Et_trY, Et_rX, Et_rY.
  auto 10.
Qed.

(** The two blocks of [printf] calls do not touch the result. *)
Lemma x25519_ge_sub_result (p : ge_p3) (q : ge_cached) :
  fst (x25519_ge_sub p q) = x25519_ge_sub_quiet p q.
Proof. reflexivity. Qed.

Lemma on_curve_neg (x y : GF) : on_curve x y -> on_curve (Zmod.opp x) y.
Proof.
  unfold on_curve. intros H.
  transitivity (- (x * x) + y * y)%Zmod; [ ring | ].
  rewrite H. ring.
Qed.

Lemma x25519_ge_add_ok (p : ge_p3) (q : ge_cached) (x1 y1 x2 y2 : GF) :
  p3_bounded p -> cached_bounded q ->
  p3_repr p (x1, y1) -> cached_repr q (x2, y2) ->
  on_curve x1 y1 -> on_curve x2 y2 ->
  p1p1_bounded (x25519_ge_add p q) /\
  p1p1_repr (x25519_ge_add p q) (ed_add (x1, y1) (x2, y2)).
Proof.
  intros Bp Bq Hp Hq C1 C2.
  destruct (x25519_ge_add_values p q Bp Bq) as (Br & VX & VY & VZ & VT).
  split; [ exact Br | ].
  pose proof (p3_repr_T p x1 y1 Hp) as ET.
  destruct Hp as (HZ & EX & EY & _). destruct Hq as (HZq & EP & EM & ETq).
  cbn [fst snd] in *.
  destruct (add_formulas (fval (p3_Z p)) (fval (cached_Z q)) x1 y1 x2 y2 HZ HZq C1 C2)
    as (NZ & NT & FX & FY).
  unfold p1p1_repr. rewrite VX, VY, VZ, VT, ETq, ET, EP, EM, EX, EY.
  auto.
Qed.

Lemma x25519_ge_sub_quiet_ok (p : ge_p3) (q : ge_cached) (x1 y1 x2 y2 : GF) :
  p3_bounded p -> cached_bounded q ->
  p3_repr p (x1, y1) -> cached_repr q (x2, y2) ->
  on_curve x1 y1 -> on_curve x2 y2 ->
  p1p1_bounded (x25519_ge_sub_quiet p q) /\
  p1p1_repr (x25519_ge_sub_quiet p q) (ed_sub (x1, y1) (x2, y2)).
Proof.
  intros Bp Bq Hp Hq C1 C2.
  destruct (x25519_ge_sub_quiet_values p q Bp Bq) as (Br & VX & VY & VZ & VT).
  split; [ exact Br | ].
  pose proof (p3_repr_T p x1 y1 Hp) as ET.
  destruct Hp as (HZ & EX & EY & _). destruct Hq as (HZq & EP & EM & ETq).
  cbn [fst snd] in *.
  destruct (add_formulas (fval (p3_Z p)) (fval (cached_Z q)) x1 y1 (Zmod.opp x2) y2
              HZ HZq C1 (on_curve_neg _ _ C2)) as (NZ & NT & FX & FY).
  unfold ed_sub, ed_neg. cbn [fst snd].
  set (R := ed_add (x1, y1) (Zmod.opp x2, y2)) in *. clearbody R.
  unfold p1p1_repr. rewrite VX, VY, VZ, VT, ETq, ET, EP, EM, EX, EY.
  set (Z1 := fval (p3_Z p)) in *. set (z2 := fval (cached_Z q)) in *.
  clearbody Z1 z2.
  assert (ED1 : (Z1 * z2 + Z1 * z2
                 - (curve_d + curve_d) * (z2 * (x2 * y2)) * (Z1 * (x1 * y1))
                 = Z1 * z2 + Z1 * z2
                   + (curve_d + curve_d) * (z2 * (- x2 * y2)) * (Z1 * (x1 * y1)))%Zmod)
    by ring.
  assert (ED2 : (Z1 * z2 + Z1 * z2
                 + (curve_d + curve_d) * (z2 * (x2 * y2)) * (Z1 * (x1 * y1))
                 = Z1 * z2 + Z1 * z2
                   - (curve_d + curve_d) * (z2 * (- x2 * y2)) * (Z1 * (x1 * y1)))%Zmod)
    by ring.
  rewrite ED1, ED2.
  split; [ exact NZ | ]. split; [ exact NT | ].
  split; [ rewrite <- FX | rewrite <- FY ]; ring.
Qed.

(** Subtracting [q] is adding [q] with [YplusX] and [YminusX] swapped and
    [T2d] negated. *)
Lemma x25519_ge_sub_quiet_as_add (p : ge_p3) (q q' : ge_cached) :
  p3_bounded p -> cached_bounded q -> cached_bounded q' ->
  YplusX q' = YminusX q -> YminusX q' = YplusX q -> cached_Z q' = cached_Z q ->
  fval (T2d q') = Zmod.opp (fval (T2d q)) ->
  p1p1_same (x25519_ge_sub_quiet p q) (x25519_ge_add p q').
Proof.
  intros Bp Bq Bq' EP EM EZ ET.
  destruct (x25519_ge_sub_quiet_values p q Bp Bq) as (_ & VX & VY & VZ & VT).
  destruct (x25519_ge_add_values p q' Bp Bq') as (_ & WX & WY & WZ & WT).
  unfold p1p1_same. rewrite VX, VY, VZ, VT, WX, WY, WZ, WT, EP, EM, EZ, ET.
  repeat split; ring.
Qed.

(* ------------------------------------------------------------------ *)
(** ** Field serialization *)

Lemma GF_neq_by_value (a b : GF) : Zmod.to_Z a <> Zmod.to_Z b -> a <> b.
Proof. intros H E. apply H. rewrite E. reflexivity. Qed.

Ltac bytes32_tac :=
  split; [ reflexivity | repeat constructor; unfold is_byte; lia ].

(** C5, as stated, fails: the 32-byte string [ed ff ... ff 7f] (the prime
    [p] itself, top bit zero) decodes and re-encodes to the all-zero
    string. *)
Lemma fe_roundtrip_counterexample :
  ~ (forall s : list Z,
        bytes32 s -> Z.land (nth 31 s 0) 0x80 = 0 ->
        option_map fe_tobytes (fe_frombytes_strict s) = Some s).
Proof.
  intros H. specialize (H bytes_of_p ltac:(bytes32_tac) eq_refl).
  vm_compute in H. discriminate H.
Qed.

(** C5 (amended): for every 32-byte string [s] whose top bit is zero,
    [fe_tobytes (fe_frombytes_strict s)] is the canonical encoding of the
    value of [s] modulo [p]; it is [s] again exactly when the value of [s]
    is below [p]. *)
Theorem fe_roundtrip_canonical (s : list Z) :
  bytes32 s -> Z.land (nth 31 s 0) 0x80 = 0 ->
  option_map fe_tobytes (fe_frombytes_strict s)
  = Some (le_encode 32 (le_decode s mod p25519)) /\
  (option_map fe_tobytes (fe_frombytes_strict s) = Some s
   <-> le_decode s < p25519).
Proof.
  intros Hs Htop.
  pose proof (proj1 (strict_assert_iff s Hs) Htop) as Hlt.
  pose proof (le_decode_range s (proj2 Hs)) as R.
  rewrite (fe_frombytes_strict_some s Hs Hlt). cbn [option_map].
  rewrite fe_tobytes_eq. unfold feval.
  rewrite fiat_25519_from_bytes_eval by lia.
  split; [ reflexivity | ].
  pose proof (Z.mod_pos_bound (le_decode s) p25519 p25519_pos) as M.
  split.
  - intros E.
    apply (f_equal (fun o => match o with Some t => le_decode t | None => 0 end)) in E.
    cbv beta iota in E. rewrite le_decode_encode in E.
    change (256 ^ Z.of_nat 32) with (2 ^ 256) in E.
    rewrite (Z.mod_small (le_decode s mod p25519) (2 ^ 256)) in E
      by (unfold p25519 in *; lia).
    lia.
  - intros Hp. rewrite Z.mod_small by lia.
    replace 32%nat with (length s) by (apply Hs).
    rewrite le_encode_decode by apply Hs. reflexivity.
Qed.

Lemma fe_roundtrip_canonical_witness :
  bytes32 sample_bytes /\ Z.land (nth 31 sample_bytes 0) 0x80 = 0 /\
  option_map fe_tobytes (fe_frombytes_strict sample_bytes) = Some sample_bytes.
Proof.
  assert (Hs : bytes32 sample_bytes) by (unfold sample_bytes; bytes32_tac).
  split; [ exact Hs | split; [ reflexivity | ] ].
  apply (proj2 (fe_roundtrip_canonical sample_bytes Hs eq_refl)).
  vm_compute. reflexivity.
Defined.

(** C7: for every 32-byte input [s], [fe_frombytes s] is
    [fe_frombytes_strict] on [s] with byte 31 masked by [0x7f]; the
    assertion of [fe_frombytes_strict] holds on the masked copy, so the
    call returns, and the result is the tight element whose limbs hold the
    value of [s] with bit 255 cleared. *)
Theorem fe_frombytes_total (s : list Z) :
  bytes32 s ->
  let s_copy := map_nth 31 (fun b => Z.land b 0x7f) s in
  fe_frombytes s = fe_frombytes_strict s_copy /\
  Z.land (nth 31 s_copy 0) 0x80 = 0 /\
  exists h, fe_frombytes s = Some h /\ tight h /\ canonical_limbs h /\
            eval h = le_decode s mod 2 ^ 255.
Proof.
  intros Hs s_copy. split; [ reflexivity | ].
  split.
  - apply (strict_assert_iff s_copy (masked_bytes32 s Hs)).
    unfold s_copy. rewrite (le_decode_mask_top s Hs).
    apply Z.mod_pos_bound. lia.
  - destruct (fe_frombytes_some s Hs) as (h & E & C & V).
    exists h. auto using canonical_tight.
Qed.

Lemma fe_frombytes_total_witness :
  bytes32 ff_bytes /\
  exists h, fe_frombytes ff_bytes = Some h /\ tight h /\ canonical_limbs h /\
            eval h = le_decode ff_bytes mod 2 ^ 255.
Proof.
  assert (Hs : bytes32 ff_bytes) by (unfold ff_bytes; cbn [repeat]; bytes32_tac).
  split; [ exact Hs | ].
  exact (proj2 (proj2 (fe_frombytes_total ff_bytes Hs))).
Defined.

(* ------------------------------------------------------------------ *)
(** ** Inversion and the zero test *)

(** C6: for every tight [a] that is not zero modulo [p],
    [fe_mul_ttt a (fe_invert a)] represents 1; [fe_invert] runs the
    addition chain of [fe_loose_invert], which computes [a^(p-2)]. *)
Theorem fe_invert_correct (a : fe) :
  tight a -> fval a <> Zmod.zero ->
  fval (fe_mul_ttt a (fe_invert a)) = Zmod.one /\
  tight (fe_mul_ttt a (fe_invert a)) /\
  fe_invert a = fe_loose_invert (fe_copy_lt a) /\
  fval (fe_invert a) = Zmod.pow (fval a) (p25519 - 2).
Proof.
  intros Ha Hnz.
  destruct (fe_invert_ok a Ha) as (Bi & Ei).
  destruct (fe_mul_ttt_ok a _ (tight_loose _ Ha) (tight_loose _ Bi)) as (Bm & Em).
  split; [ | split; [ exact Bm | split; [ reflexivity | exact Ei ] ] ].
  rewrite Em, (fval_invert a Ha Hnz).
  apply Zmod.mul_inv_same_r_prime; [ exact prime_p25519 | exact Hnz ].
Qed.

Lemma fe_invert_correct_witness :
  tight d /\ fval d <> Zmod.zero /\
  fval (fe_mul_ttt d (fe_invert d)) = Zmod.one.
Proof.
  assert (Hnz : fval d <> Zmod.zero)
    by (apply GF_neq_by_value; vm_compute; discriminate).
  split; [ exact tight_d | split; [ exact Hnz | ] ].
  exact (proj1 (fe_invert_correct d tight_d Hnz)).
Defined.

Lemma le_encode_zero_iff (x : Z) :
  0 <= x < 2 ^ 256 -> (le_encode 32 x = repeat 0 32 <-> x = 0).
Proof.
  intros Hx. split.
  - intros E. apply (le_encode_inj 32 x 0); [ exact Hx | cbn; lia | exact E ].
  - intros ->. reflexivity.
Qed.

(** C8: for loose [f], [fe_isnonzero f] is 0 exactly when [f] represents
    zero modulo [p], and 1 otherwise; the answer is that of comparing the
    encoding of [fe_carry f] with 32 zero bytes, and it is the same for
    any two loose representations of one value. *)
Theorem fe_isnonzero_correct (f g : fe_loose) :
  loose f -> loose g ->
  (fe_isnonzero f = 0 <-> fval f = Zmod.zero) /\
  (fe_isnonzero f = 1 <-> fval f <> Zmod.zero) /\
  (fe_isnonzero f = 0 <-> fe_tobytes (fe_carry f) = repeat 0 32) /\
  (fval f = fval g -> fe_isnonzero f = fe_isnonzero g).
Proof.
  intros Hf Hg.
  pose proof (fe_isnonzero_spec f Hf) as Ef.
  pose proof (fe_isnonzero_spec g Hg) as Eg.
  assert (H0 : fe_isnonzero f = 0 <-> fval f = Zmod.zero).
  { rewrite Ef. destruct (Zmod.eqb_spec (fval f) Zmod.zero); split; intros;
      first [ assumption | reflexivity | discriminate | contradiction ]. }
  split; [ exact H0 | ]. split; [ | split ].
  - rewrite Ef. destruct (Zmod.eqb_spec (fval f) Zmod.zero); split; intros;
      first [ assumption | reflexivity | discriminate | contradiction ].
  - rewrite H0, fe_tobytes_eq. unfold fe_carry. rewrite (feval_carry f Hf).
    pose proof (feval_range f) as R.
    rewrite le_encode_zero_iff by (unfold p25519 in R; lia).
    rewrite <- to_Z_fval. apply iff_sym, Zmod.to_Z_0_iff.
  - intros E. rewrite Ef, Eg, E. reflexivity.
Qed.

Lemma fe_isnonzero_correct_witness :
  loose zero_by_sub /\ loose fe_0 /\ fe_isnonzero zero_by_sub = fe_isnonzero fe_0.
Proof.
  assert (Hf : loose zero_by_sub) by (apply looseb_spec; reflexivity).
  assert (H0 : loose fe_0) by (apply looseb_spec; reflexivity).
  split; [ exact Hf | split; [ exact H0 | ] ].
  apply (proj2 (proj2 (proj2 (fe_isnonzero_correct zero_by_sub fe_0 Hf H0)))).
  apply Zmod.to_Z_inj. vm_compute. reflexivity.
Defined.

(* ------------------------------------------------------------------ *)
(** ** Point decoding *)

Lemma some_pair_inj (A B : Type) (a c : A) (b d : B) :
  Some (a, b) = Some (c, d) -> a = c /\ b = d.
Proof. intros H. injection H as -> ->. split; reflexivity. Qed.

Lemma decode_ok_some (s : list Z) (r : option (Z * ge_p3)) (x y : GF) :
  decode_spec s = Some (x, y) -> decode_ok s r ->
  exists h', r = Some (1, h') /\ fval (p3_X h') = x /\ fval (p3_Y h') = y /\
             p3_Z h' = fe_1 /\ fval (p3_T h') = Zmod.mul x y /\
             tight (p3_X h') /\ tight (p3_Y h') /\ tight (p3_T h').
Proof. unfold decode_ok. intros ->. exact (fun H => H). Qed.

Lemma decode_ok_none (s : list Z) (r : option (Z * ge_p3)) :
  decode_spec s = None -> decode_ok s r -> exists h', r = Some (0, h').
Proof. unfold decode_ok. intros ->. exact (fun H => H). Qed.

Lemma decode_spec_cases (s : list Z) :
  (exists x y, decode_spec s = Some (x, y)) \/ decode_spec s = None.
Proof. destruct (decode_spec s) as [[x y] |]; eauto. Qed.

(** C2: for every 32-byte input, [x25519_ge_frombytes_vartime] returns
    what the specified decoding [decode_spec] yields: [y] from the low 255
    bits, the sign from bit 7 of byte 31, the candidate root, acceptance
    when [v x^2] is [u] or [-u], the sign fix-up; on success the point is
    on the curve with [Z = 1] and [T = X Y]; it returns 0 when the
    specified decoding rejects, and so whenever no [x] has [v x^2 = u]. *)
Theorem x25519_ge_frombytes_vartime_spec (h : ge_p3) (s : list Z) :
  bytes32 s ->
  (forall x y : GF,
      decode_spec s = Some (x, y) ->
      exists h', x25519_ge_frombytes_vartime h s = Some (1, h') /\
                 fval (p3_X h') = x /\ fval (p3_Y h') = y /\
                 fval (p3_Z h') = Zmod.one /\
                 fval (p3_T h') = Zmod.mul x y /\
                 on_curve x y) /\
  (decode_spec s = None ->
   exists h', x25519_ge_frombytes_vartime h s = Some (0, h')) /\
  ((forall x : GF,
       Zmod.mul (decode_v (decode_y s)) (Zmod.mul x x) <> decode_u (decode_y s)) ->
   exists h', x25519_ge_frombytes_vartime h s = Some (0, h')).
Proof.
  intros Hs. pose proof (decode_refines h s Hs) as R.
  destruct (decode_spec_cases s) as [(x0 & y0 & Ed) | Ed].
  - destruct (decode_spec_on_curve s x0 y0 Ed) as (Ey & Hc).
    destruct (decode_ok_some _ _ _ _ Ed R) as (h' & Er & EX & EY & EZ & ET & _).
    assert (E1 : fval (p3_Z h') = Zmod.one) by (rewrite EZ; exact fval_fe_1).
    split; [ | split ].
    + intros x y E. rewrite Ed in E.
      destruct (some_pair_inj _ _ _ _ _ _ E) as (<- & <-).
      exact (ex_intro _ h' (conj Er (conj EX (conj EY (conj E1 (conj ET Hc)))))).
    + intros E. rewrite Ed in E. discriminate E.
    + intros Hno. exfalso. apply (Hno x0). rewrite <- Ey.
      exact (proj1 (on_curve_iff x0 y0) Hc).
  - pose proof (decode_ok_none _ _ Ed R) as R0.
    split; [ | split ].
    + intros x y E. rewrite Ed in E. discriminate E.
    + intros _. exact R0.
    + intros _. exact R0.
Qed.

Lemma x25519_ge_frombytes_vartime_spec_witness :
  bytes32 junk_bytes /\
  (decode_spec junk_bytes = None ->
   exists h', x25519_ge_frombytes_vartime ge_p3_0 junk_bytes = Some (0, h')).
Proof.
  assert (Hs : bytes32 junk_bytes) by (unfold junk_bytes; cbn [repeat]; bytes32_tac).
  exact (conj Hs
           (proj1 (proj2 (x25519_ge_frombytes_vartime_spec ge_p3_0 junk_bytes Hs)))).
Defined.

(** C9: when [x25519_ge_frombytes_vartime] returns 1, the [Z] of the
    output is the field element 1 of [fe_1], limb for limb, and
    [X * Y = Z * T]. *)
Theorem x25519_ge_frombytes_vartime_post (h h' : ge_p3) (s : list Z) :
  bytes32 s ->
  x25519_ge_frombytes_vartime h s = Some (1, h') ->
  p3_Z h' = fe_1 /\
  Zmod.mul (fval (p3_X h')) (fval (p3_Y h'))
  = Zmod.mul (fval (p3_Z h')) (fval (p3_T h')) /\
  p3_bounded h'.
Proof.
  intros Hs Er. pose proof (decode_refines h s Hs) as R.
  destruct (decode_spec_cases s) as [(x & y & Ed) | Ed].
  - destruct (decode_ok_some _ _ _ _ Ed R)
      as (h'' & Er' & EX & EY & EZ & ET & BX & BY & BT).
    rewrite Er in Er'.
    destruct (some_pair_inj _ _ _ _ _ _ Er') as (_ & <-).
    split; [ exact EZ | ]. split.
    + rewrite EZ, fval_fe_1, ET, EX, EY. ring.
    + unfold p3_bounded. rewrite EZ.
      exact (conj BX (conj BY (conj tight_fe_1 BT))).
  - destruct (decode_ok_none _ _ Ed R) as (h'' & Er').
    rewrite Er in Er'. discriminate Er'.
Qed.

Lemma x25519_ge_frombytes_vartime_post_witness :
  bytes32 base_bytes /\
  x25519_ge_frombytes_vartime ge_p3_0 base_bytes = Some (1, decoded_base) /\
  p3_Z decoded_base = fe_1.
Proof.
  assert (Hs : bytes32 base_bytes) by (unfold base_bytes; cbn [repeat]; bytes32_tac).
  assert (E : x25519_ge_frombytes_vartime ge_p3_0 base_bytes = Some (1, decoded_base))
    by (vm_compute; reflexivity).
  exact (conj Hs (conj E
           (proj1 (x25519_ge_frombytes_vartime_post ge_p3_0 decoded_base base_bytes Hs E)))).
Defined.

(* ------------------------------------------------------------------ *)
(** ** Point encoding *)

(** C3: for every projective point with [Z <> 0], and every extended
    point with [Z <> 0], the 32 bytes are the canonical encoding of
    [Y/Z] with the top bit of byte 31 set to the sign of [X/Z]; the two
    encoders give the same bytes on points with the same [X/Z] and
    [Y/Z]. *)
Theorem ge_tobytes_spec (h : ge_p2) (g : ge_p3) :
  p2_bounded h -> p3_bounded g ->
  fval (p2_Z h) <> Zmod.zero -> fval (p3_Z g) <> Zmod.zero ->
  x25519_ge_tobytes h
  = encode_spec (Zmod.mdiv (fval (p2_X h)) (fval (p2_Z h)))
                (Zmod.mdiv (fval (p2_Y h)) (fval (p2_Z h))) /\
  ge_p3_tobytes g
  = encode_spec (Zmod.mdiv (fval (p3_X g)) (fval (p3_Z g)))
                (Zmod.mdiv (fval (p3_Y g)) (fval (p3_Z g))) /\
  (Zmod.mdiv (fval (p2_X h)) (fval (p2_Z h))
   = Zmod.mdiv (fval (p3_X g)) (fval (p3_Z g)) ->
   Zmod.mdiv (fval (p2_Y h)) (fval (p2_Z h))
   = Zmod.mdiv (fval (p3_Y g)) (fval (p3_Z g)) ->
   x25519_ge_tobytes h = ge_p3_tobytes g).
Proof.
  intros (BX & BY & BZ) (CX & CY & CZ & _) HZ GZ.
  assert (E1 := tobytes_xyz _ _ _ BX BY BZ HZ).
  assert (E2 := tobytes_xyz _ _ _ CX CY CZ GZ).
  change (x25519_ge_tobytes h
          = encode_spec (Zmod.mdiv (fval (p2_X h)) (fval (p2_Z h)))
              (Zmod.mdiv (fval (p2_Y h)) (fval (p2_Z h)))) in E1.
  change (ge_p3_tobytes g
          = encode_spec (Zmod.mdiv (fval (p3_X g)) (fval (p3_Z g)))
              (Zmod.mdiv (fval (p3_Y g)) (fval (p3_Z g)))) in E2.
  split; [ exact E1 | split; [ exact E2 | ] ].
  intros Ex Ey. rewrite E1, E2, Ex, Ey. reflexivity.
Qed.

(** The top bit of an encoding is the sign, the rest the value. *)
Lemma encode_spec_value (x y : GF) :
  le_decode (encode_spec x y) = Zmod.to_Z y + 2 ^ 255 * fsign x.
Proof.
  rewrite encode_spec_closed, le_decode_encode.
  pose proof (GF_to_Z_range y). pose proof (fsign_range x).
  change (256 ^ Z.of_nat 32) with (2 ^ 256). apply Z.mod_small. lia.
Qed.

Lemma GF_nonzero_by_value (a : GF) : Zmod.to_Z a <> 0 -> a <> Zmod.zero.
Proof. intros H E. apply H. rewrite E. reflexivity. Qed.

Lemma p3_bounded_decoded_base : p3_bounded decoded_base.
Proof. repeat split; vm_compute; discriminate. Qed.

Lemma ge_tobytes_spec_witness :
  p2_bounded (ge_p3_to_p2 decoded_base) /\ p3_bounded decoded_base /\
  fval (p2_Z (ge_p3_to_p2 decoded_base)) <> Zmod.zero /\
  fval (p3_Z decoded_base) <> Zmod.zero /\
  x25519_ge_tobytes (ge_p3_to_p2 decoded_base) = ge_p3_tobytes decoded_base.
Proof.
  pose proof p3_bounded_decoded_base as B3.
  assert (B2 : p2_bounded (ge_p3_to_p2 decoded_base))
    by (destruct B3 as (a & b & c & _); exact (conj a (conj b c))).
  assert (N : fval (p3_Z decoded_base) <> Zmod.zero)
    by (apply GF_nonzero_by_value; vm_compute; discriminate).
  refine (conj B2 (conj B3 (conj N (conj N _)))).
  exact (proj2 (proj2 (ge_tobytes_spec (ge_p3_to_p2 decoded_base) decoded_base
                         B2 B3 N N)) eq_refl eq_refl).
Defined.

(* ------------------------------------------------------------------ *)
(** ** Subtraction and the cached identity *)

(** C4: for an extended point [p] and a cached point [q] of the curve,
    [x25519_ge_sub p q] is a completed point that represents [P - Q]; it
    has the field elements of [x25519_ge_add p q'] for the cached point
    [q'] that is [q] with [YplusX] and [YminusX] swapped and [T2d]
    negated, and [q'] represents [-Q]; the result is that of the function
    with the two blocks of [printf] calls removed. *)
Theorem x25519_ge_sub_spec (p : ge_p3) (q q' : ge_cached) (x1 y1 x2 y2 : GF) :
  p3_bounded p -> cached_bounded q -> cached_bounded q' ->
  p3_repr p (x1, y1) -> cached_repr q (x2, y2) ->
  on_curve x1 y1 -> on_curve x2 y2 ->
  YplusX q' = YminusX q -> YminusX q' = YplusX q -> cached_Z q' = cached_Z q ->
  fval (T2d q') = Zmod.opp (fval (T2d q)) ->
  p1p1_repr (fst (x25519_ge_sub p q)) (ed_sub (x1, y1) (x2, y2)) /\
  p1p1_bounded (fst (x25519_ge_sub p q)) /\
  p1p1_same (fst (x25519_ge_sub p q)) (x25519_ge_add p q') /\
  cached_repr q' (ed_neg (x2, y2)) /\
  fst (x25519_ge_sub p q) = x25519_ge_sub_quiet p q.
Proof.
  intros Bp Bq Bq' Hp Hq C1 C2 EP EM EZ ET.
  rewrite x25519_ge_sub_result.
  destruct (x25519_ge_sub_quiet_ok p q x1 y1 x2 y2 Bp Bq Hp Hq C1 C2) as (Br & Hr).
  split; [ exact Hr | ]. split; [ exact Br | ].
  split; [ exact (x25519_ge_sub_quiet_as_add p q q' Bp Bq Bq' EP EM EZ ET) | ].
  split; [ | reflexivity ].
  destruct Hq as (HZq & VP & VM & VT). cbn [fst snd] in *.
  unfold cached_repr, ed_neg. cbn [fst snd]. rewrite EP, EM, EZ, ET, VP, VM, VT.
  split; [ exact HZq | ]. repeat split; ring.
Qed.

Lemma GF_eq_by_value (a b : GF) : Zmod.to_Z a = Zmod.to_Z b -> a = b.
Proof. apply Zmod.to_Z_inj. Qed.

Lemma cached_bounded_0 : cached_bounded ge_cached_0.
Proof. repeat split; vm_compute; discriminate. Qed.

Lemma cached_repr_0 : cached_repr ge_cached_0 ed_zero.
Proof.
  unfold cached_repr, ed_zero. cbn [fst snd ge_cached_0 cached_Z YplusX YminusX T2d].
  unfold fe_loose_1, fe_loose_0. fold fe_1. fold fe_0. fold limbs_0. fold fe_0.
  change (Limbs 0 0 0 0 0 0 0 0 0 0) with fe_0.
  rewrite fval_fe_1, fval_fe_0.
  split; [ exact GF_one_neq_zero | ]. repeat split; ring.
Qed.

Lemma on_curve_zero : on_curve Zmod.zero Zmod.one.
Proof. unfold on_curve. ring. Qed.

Lemma p3_bounded_0 : p3_bounded ge_p3_0.
Proof. repeat split; vm_compute; discriminate. Qed.

Lemma p3_repr_0 : p3_repr ge_p3_0 ed_zero.
Proof.
  unfold p3_repr, ed_zero. cbn [fst snd ge_p3_0 p3_X p3_Y p3_Z p3_T].
  rewrite fval_fe_1, fval_fe_0.
  split; [ exact GF_one_neq_zero | ]. repeat split; ring.
Qed.

(** C10: [ge_cached_0] is [(1, 1, 1, 0)], the cached form of the neutral
    element [(0, 1)], and adding it to an extended point with [Z <> 0]
    gives a completed point that represents the same affine point. *)
Theorem ge_cached_0_identity (p : ge_p3) (x y : GF) :
  p3_bounded p -> p3_repr p (x, y) ->
  ge_cached_0 = Ge_cached fe_1 fe_1 fe_1 fe_0 /\
  fval fe_1 = Zmod.one /\ fval fe_0 = Zmod.zero /\
  cached_repr ge_cached_0 ed_zero /\
  p1p1_bounded (x25519_ge_add p ge_cached_0) /\
  p1p1_repr (x25519_ge_add p ge_cached_0) (x, y).
Proof.
  intros Bp Hp.
  split; [ reflexivity | ]. split; [ exact fval_fe_1 | ].
  split; [ exact fval_fe_0 | ]. split; [ exact cached_repr_0 | ].
  destruct (x25519_ge_add_values p ge_cached_0 Bp cached_bounded_0)
    as (Br & VX & VY & VZ & VT).
  split; [ exact Br | ].
  destruct Hp as (HZ & EX & EY & _). cbn [fst snd] in *.
  unfold p1p1_repr. cbn [fst snd].
  rewrite VX, VY, VZ, VT. cbn [ge_cached_0 YplusX YminusX cached_Z T2d].
  change fe_loose_1 with fe_1. change fe_loose_0 with fe_0.
  rewrite fval_fe_1, fval_fe_0, EX, EY.
  set (Z1 := fval (p3_Z p)) in *. clearbody Z1.
  assert (N : (Z1 * 1 + Z1 * 1)%Zmod <> Zmod.zero).
  { replace (Z1 * 1 + Z1 * 1)%Zmod with ((1 + 1) * Z1)%Zmod by ring.
    apply GF_mul_nonzero; [ exact GF_two_neq_zero | exact HZ ]. }
  split; [ | split ].
  - replace (Z1 * 1 + Z1 * 1 + 0 * fval (p3_T p))%Zmod
      with (Z1 * 1 + Z1 * 1)%Zmod by ring. exact N.
  - replace (Z1 * 1 + Z1 * 1 - 0 * fval (p3_T p))%Zmod
      with (Z1 * 1 + Z1 * 1)%Zmod by ring. exact N.
  - split; ring.
Qed.

(* ------------------------------------------------------------------ *)
(** ** Further properties of the field functions *)

(** One limb of [fe_cmov] under an all-ones mask. *)
Lemma cmov_limb_ones (x y : Z) :
  0 <= x < 2 ^ 32 -> 0 <= y < 2 ^ 32 ->
  Z.lxor x (Z.land (Z.lxor x y) (2 ^ 32 - 1)) = y.
Proof.
  intros Hx Hy. change (2 ^ 32 - 1) with (Z.ones 32).
  apply Z.bits_inj'. intros n Hn.
  rewrite Z.lxor_spec, Z.land_spec, Z.lxor_spec, Z.testbit_ones_nonneg by lia.
  destruct (Z.ltb_spec n 32) as [Hlt | Hge].
  - rewrite andb_true_r. destruct (Z.testbit x n), (Z.testbit y n); reflexivity.
  - rewrite andb_false_r, xorb_false_r.
    assert (B : forall z, 0 <= z < 2 ^ 32 -> Z.testbit z n = false).
    { intros z Hz. destruct (Z.eq_dec z 0) as [-> | Hnz]; [ apply Z.bits_0 | ].
      apply Z.bits_above_log2; [ lia | ].
      assert (Z.log2 z < 32) by (apply Z.log2_lt_pow2; lia). lia. }
    rewrite (B x Hx), (B y Hy). reflexivity.
Qed.

Lemma cmov_limb_zero (x y : Z) : Z.lxor x (Z.land (Z.lxor x y) 0) = x.
Proof. rewrite Z.land_0_r. apply Z.lxor_0_r. Qed.

(** X1: [fe_cmov] is a selection: on limbs that fit [uint32_t], it leaves
    [f] as it is when [b = 0] and replaces it by [g], limb for limb, when
    [b = 1]. *)
Theorem fe_cmov_selects (f g : fe_loose) (b : Z) :
  limbs_u32 f -> limbs_u32 g -> b = 0 \/ b = 1 ->
  fe_cmov f g b = if b =? 0 then f else g.
Proof.
  intros Hf Hg Hb. destruct f as [f0 f1 f2 f3 f4 f5 f6 f7 f8 f9].
  destruct g as [g0 g1 g2 g3 g4 g5 g6 g7 g8 g9].
  unfold limbs_u32, bounded in Hf, Hg. cbn [v0 v1 v2 v3 v4 v5 v6 v7 v8 v9] in Hf, Hg.
  unfold fe_cmov. cbn [v0 v1 v2 v3 v4 v5 v6 v7 v8 v9]. cbv zeta.
  destruct Hb as [-> | ->].
  - change (u32 (0 - 0)) with 0. rewrite !cmov_limb_zero. reflexivity.
  - change (u32 (0 - 1)) with (2 ^ 32 - 1). cbv beta.
    rewrite !cmov_limb_ones by lia. reflexivity.
Qed.

Lemma fe_cmov_selects_witness :
  fe_cmov sample_limbs fe_loose_1 1 = fe_loose_1 /\
  fe_cmov sample_limbs fe_loose_1 0 = sample_limbs.
Proof.
  assert (Hs : limbs_u32 sample_limbs) by (unfold limbs_u32, bounded, sample_limbs; simpl; lia).
  assert (H1 : limbs_u32 fe_loose_1) by (unfold limbs_u32, bounded, fe_loose_1; simpl; lia).
  split.
  - exact (fe_cmov_selects sample_limbs fe_loose_1 1 Hs H1 (or_intror eq_refl)).
  - exact (fe_cmov_selects sample_limbs fe_loose_1 0 Hs H1 (or_introl eq_refl)).
Defined.

(** The sign of the opposite of a field element. *)
Lemma fsign_opp (x : GF) :
  fsign (Zmod.opp x) = if Zmod.eqb x Zmod.zero then 0 else 1 - fsign x.
Proof.
  unfold fsign. rewrite Zmod.unsigned_opp.
  destruct (Zmod.eqb_spec x Zmod.zero) as [-> | Hnz].
  - reflexivity.
  - assert (Hz : Zmod.to_Z x <> 0).
    { intros E. apply Hnz. apply Zmod.to_Z_inj. rewrite E. reflexivity. }
    pose proof (Zmod.unsigned_pos_bound x p25519_pos) as R. revert Hz R.
    generalize (Zmod.to_Z x). intros z Hz R.
    replace (- z mod p25519) with (p25519 - z)
      by (apply Z.mod_unique with (q := -1); lia).
    unfold p25519. Z.div_mod_to_equations. lia.
Qed.

(** X2: negation flips the sign bit of a non-zero field element, and
    leaves that of zero at 0: [fe_isnegative] of the carried [fe_neg f] is
    [1 - fe_isnegative f] unless [f] represents 0. *)
Theorem fe_neg_flips_sign (f : fe) :
  tight f ->
  fe_isnegative (fe_carry (fe_neg f))
  = if fe_isnonzero f =? 0 then 0 else 1 - fe_isnegative f.
Proof.
  intros Hf.
  destruct (fe_neg_ok f Hf) as (Ln & En).
  destruct (fe_carry_ok _ Ln) as (_ & Ec).
  rewrite !fe_isnegative_spec, Ec, En, fsign_opp.
  rewrite (fe_isnonzero_spec f (tight_loose _ Hf)).
  destruct (Zmod.eqb (fval f) Zmod.zero); reflexivity.
Qed.

Lemma fe_neg_flips_sign_witness :
  tight fe_1 /\ fe_isnegative (fe_carry (fe_neg fe_1)) = 0.
Proof.
  split; [ exact tight_fe_1 | ].
  exact (fe_neg_flips_sign fe_1 tight_fe_1).
Defined.

(** X3: [fe_sq2_tt] returns tight limbs that represent twice the square
    of its argument. *)
Theorem fe_sq2_tt_value (f : fe) :
  tight f ->
  tight (fe_sq2_tt f) /\
  feval (fe_sq2_tt f) = (2 * (eval f * eval f)) mod p25519.
Proof.
  intros Hf. destruct (fe_sq2_ok f (tight_loose _ Hf)) as (T & E).
  split; [ exact T | ].
  rewrite <- to_Z_fval, E. unfold fval.
  rewrite <- Zmod.of_Z_mul, <- Zmod.of_Z_add, Zmod.to_Z_of_Z.
  f_equal. ring.
Qed.

Lemma fe_sq2_tt_value_witness :
  tight d /\ feval (fe_sq2_tt d) = (2 * (eval d * eval d)) mod p25519.
Proof.
  split; [ exact tight_d | ].
  exact (proj2 (fe_sq2_tt_value d tight_d)).
Defined.

(** X4: the addition chain of [fe_pow22523] raises its argument to the
    power [2^252 - 3], and returns tight limbs. *)
Theorem fe_pow22523_exponent (z : fe) :
  tight z ->
  tight (fe_pow22523 z) /\
  fval (fe_pow22523 z) = Zmod.pow (fval z) (2 ^ 252 - 3).
Proof.
  intros Hz. destruct (fe_pow22523_ok z (tight_loose _ Hz)) as (T & E).
  split; [ exact T | ]. rewrite E. reflexivity.
Qed.

Lemma fe_pow22523_exponent_witness :
  tight d /\ fval (fe_pow22523 d) = Zmod.pow (fval d) (2 ^ 252 - 3).
Proof.
  split; [ exact tight_d | ].
  exact (proj2 (fe_pow22523_exponent d tight_d)).
Defined.

(** X5: [fe_invert] maps an element that represents 0 to one that
    represents 0, and inverting twice gives back the field element. *)
Theorem fe_invert_involutive (f : fe) :
  tight f ->
  (fval f = Zmod.zero -> fval (fe_invert f) = Zmod.zero) /\
  fval (fe_invert (fe_invert f)) = fval f.
Proof.
  intros Hf.
  destruct (fe_invert_ok f Hf) as (T1 & E1).
  destruct (fe_invert_ok _ T1) as (_ & E2).
  assert (Z0 : forall x : GF, x = Zmod.zero -> Zmod.pow x (p25519 - 2) = Zmod.zero).
  { intros x ->. apply Zmod.pow_0_l. vm_compute. discriminate. }
  split.
  - intros E0. rewrite E1. apply Z0, E0.
  - rewrite E2. destruct (GF_eq_dec (fval f) Zmod.zero) as [E0 | Hnz].
    + rewrite (Z0 _ (eq_trans E1 (Z0 _ E0))). symmetry. exact E0.
    + rewrite E1. rewrite (Zmod.fermat_inv (fval f) Hnz prime_p25519).
      rewrite Zmod.fermat_inv;
        [ | apply Zmod.inv_nz_prime; [ exact prime_p25519 | exact Hnz ]
          | exact prime_p25519 ].
      apply Zmod.inv_inv_prime, prime_p25519.
Qed.

Lemma fe_invert_involutive_witness :
  tight d /\ fval (fe_invert (fe_invert d)) = fval d.
Proof.
  split; [ exact tight_d | ].
  exact (proj2 (fe_invert_involutive d tight_d)).
Defined.

(** X6: [fe_tobytes] writes a canonical encoding: 32 bytes whose
    little-endian value is below [p], the same for two tight limb arrays
    exactly when they represent the same field element. *)
Theorem fe_tobytes_canonical (f g : fe) :
  tight f -> tight g ->
  bytes32 (fe_tobytes f) /\
  le_decode (fe_tobytes f) = feval f /\
  le_decode (fe_tobytes f) < p25519 /\
  (fe_tobytes f = fe_tobytes g <-> fval f = fval g).
Proof.
  intros _ _. rewrite !fe_tobytes_eq.
  pose proof (feval_range f) as Rf. pose proof (feval_range g) as Rg.
  assert (D : forall x, 0 <= x < p25519 -> le_decode (le_encode 32 x) = x).
  { intros x Hx. rewrite le_decode_encode. apply Z.mod_small.
    unfold p25519 in Hx. change (256 ^ Z.of_nat 32) with (2 ^ 256). lia. }
  split; [ split; [ apply le_encode_length | apply le_encode_bytes ] | ].
  split; [ apply D, Rf | ]. split; [ rewrite D by exact Rf; lia | ].
  rewrite fval_eq_iff. split.
  - intros E. rewrite <- (D _ Rf), <- (D _ Rg), E. reflexivity.
  - intros ->. reflexivity.
Qed.

Lemma fe_tobytes_canonical_witness :
  tight d /\ tight fe_1 /\ le_decode (fe_tobytes d) < p25519.
Proof.
  refine (conj tight_d (conj tight_fe_1 _)).
  exact (proj1 (proj2 (proj2 (fe_tobytes_canonical d fe_1 tight_d tight_fe_1)))).
Defined.

(** X7: the assertion of [fe_frombytes_strict] fails exactly on the
    buffers with bit 7 of byte 31 set; on the others the result is
    canonical limbs whose value is the little-endian value of the
    buffer. *)
Theorem fe_frombytes_strict_assert (s : list Z) :
  bytes32 s ->
  (fe_frombytes_strict s = None <-> 128 <= nth 31 s 0) /\
  (nth 31 s 0 < 128 ->
   exists h, fe_frombytes_strict s = Some h /\ canonical_limbs h /\
             eval h = le_decode s).
Proof.
  intros Hs. destruct (le_decode_top s Hs) as (lo & Hlo & E & Hb).
  pose proof (strict_assert_iff s Hs) as A.
  split.
  - split.
    + intros N. destruct (Z_lt_le_dec (nth 31 s 0) 128) as [Hlt | Hge]; [ | exact Hge ].
      rewrite fe_frombytes_strict_some in N by (assumption || lia). discriminate.
    + intros Hge. apply fe_frombytes_strict_none; [ exact Hs | lia ].
  - intros Hlt. exists (fiat_25519_from_bytes s).
    assert (R : 0 <= le_decode s < 2 ^ 255) by lia.
    split; [ apply fe_frombytes_strict_some; [ exact Hs | lia ] | ].
    split; [ apply fiat_25519_from_bytes_canonical
           | apply fiat_25519_from_bytes_eval ]; lia.
Qed.

Lemma fe_frombytes_strict_assert_witness :
  bytes32 ff_bytes /\ fe_frombytes_strict ff_bytes = None.
Proof.
  assert (H : bytes32 ff_bytes).
  { split; [ reflexivity | ]. unfold ff_bytes. apply Forall_forall.
    intros b Hb. apply repeat_spec in Hb. subst b. unfold is_byte. lia. }
  split; [ exact H | ].
  apply (proj2 (proj1 (fe_frombytes_strict_assert ff_bytes H))).
  vm_compute. discriminate.
Defined.

(** X8: decoding what [fe_tobytes] wrote gives canonical limbs that
    represent the same field element. *)
Theorem fe_frombytes_tobytes (f : fe) :
  tight f ->
  exists h, fe_frombytes (fe_tobytes f) = Some h /\ canonical_limbs h /\
            eval h = feval f /\ fval h = fval f.
Proof.
  intros Hf. rewrite fe_tobytes_eq.
  pose proof (feval_range f) as R.
  assert (Hs : bytes32 (le_encode 32 (feval f)))
    by (split; [ apply le_encode_length | apply le_encode_bytes ]).
  destruct (fe_frombytes_some _ Hs) as (h & Eh & Ch & Vh).
  assert (V : eval h = feval f).
  { rewrite Vh, le_decode_encode.
    change (256 ^ Z.of_nat 32) with (2 ^ 256).
    unfold p25519 in R. rewrite (Z.mod_small (feval f) (2 ^ 256)) by lia.
    apply Z.mod_small. lia. }
  exists h. split; [ exact Eh | ]. split; [ exact Ch | ]. split; [ exact V | ].
  rewrite (fval_feval f). unfold fval. rewrite V. reflexivity.
Qed.

Lemma fe_frombytes_tobytes_witness :
  tight d /\
  exists h, fe_frombytes (fe_tobytes d) = Some h /\ canonical_limbs h /\
            eval h = feval d /\ fval h = fval d.
Proof.
  split; [ exact tight_d | ].
  exact (fe_frombytes_tobytes d tight_d).
Defined.

(** X9: the field constants of the file are tight limbs of the values
    their names say: [d = -121665/121666], [d2 = 2 d], and [sqrtm1] is a
    square root of [-1]. *)
Theorem field_constants :
  tight d /\ tight d2 /\ tight sqrtm1 /\
  Zmod.mul (Zmod.of_Z p25519 121666) (fval d) = Zmod.opp (Zmod.of_Z p25519 121665) /\
  fval d2 = Zmod.add (fval d) (fval d) /\
  Zmod.mul (fval sqrtm1) (fval sqrtm1) = Zmod.opp Zmod.one.
Proof.
  split; [ exact tight_d | ]. split; [ exact tight_d2 | ].
  split; [ exact tight_sqrtm1 | ].
  split; [ apply GF_eq_by_value; vm_compute; reflexivity | ].
  split; [ exact fval_d2 | exact sqrt_m1_square ].
Qed.

(* ------------------------------------------------------------------ *)
(** ** Conversions, doubling and mixed addition of group elements *)

(** The curve is closed under the addition law. *)
Lemma edwards_closed_identity (dd x1 y1 x2 y2 c1 c2 : GF) :
  (let e := dd * ((x1 * x2) * (y1 * y2)) in
   let n1 := x1 * y2 + y1 * x2 in
   let n2 := y1 * y2 + x1 * x2 in
   c1 = - (x1 * x1) + y1 * y1 -> c2 = - (x2 * x2) + y2 * y2 ->
   - (n1 * n1) * ((Zmod.one - e) * (Zmod.one - e))
   + (n2 * n2) * ((Zmod.one + e) * (Zmod.one + e))
   - dd * ((n1 * n1) * (n2 * n2))
   = (c1 - c2 * (dd * ((x1 * x1) * (y1 * y1))))
     * (c2 - c1 * (dd * ((x2 * x2) * (y2 * y2)))))%Zmod.
Proof. intros e n1 n2 -> ->. unfold e, n1, n2. ring. Qed.

Lemma ed_add_on_curve (x1 y1 x2 y2 : GF) :
  on_curve x1 y1 -> on_curve x2 y2 ->
  on_curve (fst (ed_add (x1, y1) (x2, y2))) (snd (ed_add (x1, y1) (x2, y2))).
Proof.
  intros C1 C2.
  destruct (edwards_complete x1 y1 x2 y2 C1 C2) as (Dp & Dm). cbv zeta in Dp, Dm.
  pose proof (edwards_closed_identity curve_d x1 y1 x2 y2 _ _ eq_refl eq_refl) as K.
  cbv zeta in K. unfold on_curve in C1, C2. rewrite C1, C2 in K.
  unfold ed_add, on_curve. cbn [fst snd].
  set (dd := curve_d) in *. clearbody dd.
  set (e := (dd * ((x1 * x2) * (y1 * y2)))%Zmod) in *.
  assert (Ee : (dd * ((x1 * x1) * (y1 * y1)) * (dd * ((x2 * x2) * (y2 * y2))) = e * e)%Zmod)
    by (unfold e; ring).
  set (n1 := (x1 * y2 + y1 * x2)%Zmod) in *.
  set (n2 := (y1 * y2 + x1 * x2)%Zmod) in *.
  set (a1 := (dd * ((x1 * x1) * (y1 * y1)))%Zmod) in *.
  set (a2 := (dd * ((x2 * x2) * (y2 * y2)))%Zmod) in *.
  assert (K' : (- (n1 * n1) * ((Zmod.one - e) * (Zmod.one - e))
                + (n2 * n2) * ((Zmod.one + e) * (Zmod.one + e))
                = ((Zmod.one + e) * (Zmod.one + e)) * ((Zmod.one - e) * (Zmod.one - e))
                  + dd * ((n1 * n1) * (n2 * n2)))%Zmod).
  { transitivity ((- (n1 * n1) * ((Zmod.one - e) * (Zmod.one - e))
                   + (n2 * n2) * ((Zmod.one + e) * (Zmod.one + e))
                   - dd * ((n1 * n1) * (n2 * n2)))
                  + dd * ((n1 * n1) * (n2 * n2)))%Zmod; [ ring | ].
    rewrite K.
    transitivity ((Zmod.one - a1 * a2) * (Zmod.one - a1 * a2)
                  + dd * ((n1 * n1) * (n2 * n2)))%Zmod; [ ring | ].
    rewrite Ee. ring. }
  clearbody e n1 n2. clear K Ee C1 C2 a1 a2.
  set (p := (Zmod.one + e)%Zmod) in *. set (m := (Zmod.one - e)%Zmod) in *.
  clearbody p m.
  apply (Zmod.mul_cancel_l_prime ((p * p) * (m * m))%Zmod);
    [ exact prime_p25519 | repeat apply GF_mul_nonzero; assumption | ].
  transitivity (- (n1 * n1) * (m * m) + (n2 * n2) * (p * p))%Zmod;
    [ field; split; assumption | ].
  rewrite K'. field. split; assumption.
Qed.

(** The base point is a point of the curve, and [decoded_base]
    represents it. *)
Lemma on_curve_base : on_curve (fst base_point) (snd base_point).
Proof. unfold on_curve. apply GF_eq_by_value. vm_compute. reflexivity. Qed.

Lemma p3_repr_base : p3_repr decoded_base base_point.
Proof.
  unfold p3_repr.
  split; [ apply GF_nonzero_by_value; vm_compute; discriminate | ].
  repeat split; apply GF_eq_by_value; vm_compute; reflexivity.
Qed.

Lemma p2_bounded_of_p3 (p : ge_p3) : p3_bounded p -> p2_bounded (ge_p3_to_p2 p).
Proof. intros (a & b & c & _). exact (conj a (conj b c)). Qed.

Lemma p2_repr_of_p3 (p : ge_p3) (P : GF * GF) :
  p3_repr p P -> p2_repr (ge_p3_to_p2 p) P.
Proof. intros (a & b & c & _). exact (conj a (conj b c)). Qed.

(** X10: [ge_p3_to_p2] drops [T]: the projective point has the limbs of
    [X], [Y], [Z], represents the same affine point, and is encoded to
    the same bytes. *)
Theorem ge_p3_to_p2_ok (p : ge_p3) (P : GF * GF) :
  p3_bounded p -> p3_repr p P ->
  p2_bounded (ge_p3_to_p2 p) /\ p2_repr (ge_p3_to_p2 p) P /\
  x25519_ge_tobytes (ge_p3_to_p2 p) = ge_p3_tobytes p.
Proof.
  intros Bp Hp.
  split; [ exact (p2_bounded_of_p3 p Bp) | ].
  split; [ exact (p2_repr_of_p3 p P Hp) | reflexivity ].
Qed.

Lemma ge_p3_to_p2_ok_witness :
  p3_bounded decoded_base /\ p3_repr decoded_base base_point /\
  p2_repr (ge_p3_to_p2 decoded_base) base_point.
Proof.
  refine (conj p3_bounded_decoded_base (conj p3_repr_base _)).
  exact (proj1 (proj2 (ge_p3_to_p2_ok decoded_base base_point
                         p3_bounded_decoded_base p3_repr_base))).
Defined.

Lemma p3_to_cached_ok (p : ge_p3) (x y : GF) :
  p3_bounded p -> p3_repr p (x, y) ->
  cached_bounded (x25519_ge_p3_to_cached p) /\
  cached_repr (x25519_ge_p3_to_cached p) (x, y).
Proof.
  intros (BX & BY & BZ & BT) Hp.
  pose proof (p3_repr_T p x y Hp) as ET.
  destruct Hp as (HZ & EX & EY & _). cbn [fst snd] in *.
  destruct p as [X Y Z T]. cbn [p3_X p3_Y p3_Z p3_T] in *.
  unfold x25519_ge_p3_to_cached, cached_bounded, cached_repr. ge_projections.
  cbn [fst snd]. unfold fe_copy_lt.
  destruct (fe_add_ok Y X BY BX) as (B1 & E1).
  destruct (fe_sub_ok Y X BY BX) as (B2 & E2).
  destruct (fe_mul_ltt_ok T d2 (tight_loose _ BT) (tight_loose _ tight_d2)) as (B3 & E3).
  split.
  - repeat split; try (apply B1 || apply B2 || apply (tight_loose _ BZ) || apply (tight_loose _ B3)).
  - rewrite E1, E2, E3, fval_d2, EX, EY, ET.
    split; [ exact HZ | ]. repeat split; ring.
Qed.

(** X11: [x25519_ge_p3_to_cached] gives the cached form
    [(Y+X, Y-X, Z, 2dT)] of the same affine point, within the loose
    bounds. *)
Theorem x25519_ge_p3_to_cached_ok (p : ge_p3) (x y : GF) :
  p3_bounded p -> p3_repr p (x, y) ->
  cached_bounded (x25519_ge_p3_to_cached p) /\
  cached_repr (x25519_ge_p3_to_cached p) (x, y) /\
  fval (YplusX (x25519_ge_p3_to_cached p))
  = Zmod.add (fval (p3_Y p)) (fval (p3_X p)) /\
  fval (YminusX (x25519_ge_p3_to_cached p))
  = Zmod.sub (fval (p3_Y p)) (fval (p3_X p)) /\
  cached_Z (x25519_ge_p3_to_cached p) = p3_Z p /\
  fval (T2d (x25519_ge_p3_to_cached p))
  = Zmod.mul (fval (p3_T p)) (Zmod.add curve_d curve_d).
Proof.
  intros Bp Hp. destruct (p3_to_cached_ok p x y Bp Hp) as (Bc & Hc).
  split; [ exact Bc | ]. split; [ exact Hc | ].
  destruct Bp as (BX & BY & BZ & BT).
  destruct p as [X Y Z T]. cbn [p3_X p3_Y p3_Z p3_T] in *.
  unfold x25519_ge_p3_to_cached. ge_projections.
  destruct (fe_add_ok Y X BY BX) as (_ & E1).
  destruct (fe_sub_ok Y X BY BX) as (_ & E2).
  destruct (fe_mul_ltt_ok T d2 (tight_loose _ BT) (tight_loose _ tight_d2)) as (_ & E3).
  rewrite E1, E2, E3, fval_d2. repeat split; reflexivity.
Qed.

Lemma x25519_ge_p3_to_cached_ok_witness :
  p3_bounded decoded_base /\ p3_repr decoded_base base_point /\
  cached_repr (x25519_ge_p3_to_cached decoded_base) base_point.
Proof.
  refine (conj p3_bounded_decoded_base (conj p3_repr_base _)).
  exact (proj1 (proj2 (x25519_ge_p3_to_cached_ok decoded_base _ _
                         p3_bounded_decoded_base p3_repr_base))).
Defined.

Lemma p1p1_to_p3_ok (r : ge_p1p1) (P : GF * GF) :
  p1p1_bounded r -> p1p1_repr r P ->
  p3_bounded (x25519_ge_p1p1_to_p3 r) /\ p3_repr (x25519_ge_p1p1_to_p3 r) P.
Proof.
  intros (BX & BY & BZ & BT) (HZ & HT & EX & EY).
  destruct r as [X Y Z T]. cbn [p1p1_X p1p1_Y p1p1_Z p1p1_T] in *.
  unfold x25519_ge_p1p1_to_p3, p3_bounded, p3_repr. ge_projections.
  destruct (fe_mul_tll_ok X T BX BT) as (B1 & E1).
  destruct (fe_mul_tll_ok Y Z BY BZ) as (B2 & E2).
  destruct (fe_mul_tll_ok Z T BZ BT) as (B3 & E3).
  destruct (fe_mul_tll_ok X Y BX BY) as (B4 & E4).
  split; [ exact (conj B1 (conj B2 (conj B3 B4))) | ].
  rewrite E1, E2, E3, E4, EX, EY.
  split; [ apply GF_mul_nonzero; assumption | ]. repeat split; ring.
Qed.

(** X12: [x25519_ge_p1p1_to_p3] turns a completed point into an extended
    point of the same affine point: tight limbs, [Z <> 0], and the
    invariant [X Y = Z T]. *)
Theorem x25519_ge_p1p1_to_p3_ok (r : ge_p1p1) (P : GF * GF) :
  p1p1_bounded r -> p1p1_repr r P ->
  p3_bounded (x25519_ge_p1p1_to_p3 r) /\ p3_repr (x25519_ge_p1p1_to_p3 r) P /\
  Zmod.mul (fval (p3_X (x25519_ge_p1p1_to_p3 r))) (fval (p3_Y (x25519_ge_p1p1_to_p3 r)))
  = Zmod.mul (fval (p3_Z (x25519_ge_p1p1_to_p3 r))) (fval (p3_T (x25519_ge_p1p1_to_p3 r))).
Proof.
  intros Br Hr. destruct (p1p1_to_p3_ok r P Br Hr) as (B & H).
  split; [ exact B | ]. split; [ exact H | ]. apply H.
Qed.

(** X13: [x25519_ge_p1p1_to_p2] turns a completed point into a projective
    point of the same affine point, the first three coordinates of what
    [x25519_ge_p1p1_to_p3] returns. *)
Theorem x25519_ge_p1p1_to_p2_ok (r : ge_p1p1) (P : GF * GF) :
  p1p1_bounded r -> p1p1_repr r P ->
  p2_bounded (x25519_ge_p1p1_to_p2 r) /\ p2_repr (x25519_ge_p1p1_to_p2 r) P /\
  x25519_ge_p1p1_to_p2 r = ge_p3_to_p2 (x25519_ge_p1p1_to_p3 r).
Proof.
  intros Br Hr. destruct (p1p1_to_p3_ok r P Br Hr) as (B & H).
  assert (E : x25519_ge_p1p1_to_p2 r = ge_p3_to_p2 (x25519_ge_p1p1_to_p3 r))
    by reflexivity.
  rewrite E.
  split; [ exact (p2_bounded_of_p3 _ B) | ].
  split; [ exact (p2_repr_of_p3 _ P H) | reflexivity ].
Qed.

(** X14: [ge_p1p1_to_cached] gives the cached form of the affine point a
    completed point represents. *)
Theorem ge_p1p1_to_cached_ok (r : ge_p1p1) (x y : GF) :
  p1p1_bounded r -> p1p1_repr r (x, y) ->
  cached_bounded (ge_p1p1_to_cached r) /\ cached_repr (ge_p1p1_to_cached r) (x, y).
Proof.
  intros Br Hr. destruct (p1p1_to_p3_ok r (x, y) Br Hr) as (B & H).
  unfold ge_p1p1_to_cached. cbv zeta. exact (p3_to_cached_ok _ x y B H).
Qed.

Lemma ge_p2_dbl_values (p : ge_p2) : p2_bounded p -> dbl_values p (ge_p2_dbl p).
Proof.
  intros (BX & BY & BZ).
  destruct p as [X Y Z]. cbn [p2_X p2_Y p2_Z] in *.
  cbv beta delta [ge_p2_dbl]. ge_projections.
  repeat fe_let.
  unfold dbl_values, p1p1_bounded. ge_projections. cbv zeta.
  rewrite Et_rX, Et_t0, Et_rY, Et_trZ0, Et_rY0, Et_rT, Et_trZ1, Et_rZ, Et_trT,
    Et_trZ, Et_trX.
  auto 10.
Qed.

(** X15: [ge_p2_dbl] doubles: for a projective point of the curve the
    completed point it returns represents [P + P], within the loose
    bounds. *)
Theorem ge_p2_dbl_ok (p : ge_p2) (x y : GF) :
  p2_bounded p -> p2_repr p (x, y) -> on_curve x y ->
  p1p1_bounded (ge_p2_dbl p) /\
  p1p1_repr (ge_p2_dbl p) (ed_add (x, y) (x, y)).
Proof.
  intros Bp (HZ & EX & EY) C. cbn [fst snd] in *.
  destruct (ge_p2_dbl_values p Bp) as (Br & VX & VY & VZ & VT).
  split; [ exact Br | ].
  destruct (edwards_complete x y x y C C) as (Dp & Dm). cbv zeta in Dp, Dm.
  unfold p1p1_repr, ed_add. cbn [fst snd].
  rewrite VX, VY, VZ, VT, EX, EY.
  unfold on_curve in C.
  set (e := (curve_d * ((x * x) * (y * y)))%Zmod) in *.
  set (Z := fval (p2_Z p)) in *. clearbody Z.
  assert (EZ : (Z * y * (Z * y) - Z * x * (Z * x) = (Z * Z) * (Zmod.one + e))%Zmod).
  { transitivity ((Z * Z) * (- (x * x) + y * y))%Zmod; [ ring | ].
    rewrite C. reflexivity. }
  assert (ET : (Z * Z + Z * Z - (Z * y * (Z * y) - Z * x * (Z * x))
                = (Z * Z) * (Zmod.one - e))%Zmod).
  { rewrite EZ. ring. }
  assert (EY' : (Z * y * (Z * y) + Z * x * (Z * x) = (Z * Z) * (y * y + x * x))%Zmod)
    by ring.
  assert (EX' : ((Z * x + Z * y) * (Z * x + Z * y) - (Z * y * (Z * y) + Z * x * (Z * x))
                 = (Z * Z) * (x * y + y * x))%Zmod) by ring.
  rewrite ET, EX', EY', EZ. clearbody e.
  assert (HZZ : (Z * Z)%Zmod <> Zmod.zero) by (apply GF_mul_nonzero; assumption).
  split; [ apply GF_mul_nonzero; assumption | ].
  split; [ apply GF_mul_nonzero; assumption | ].
  split; field; assumption.
Qed.

Lemma ge_p2_dbl_ok_witness :
  p2_bounded (ge_p3_to_p2 decoded_base) /\
  p2_repr (ge_p3_to_p2 decoded_base) base_point /\
  on_curve (fst base_point) (snd base_point) /\
  p1p1_repr (ge_p2_dbl (ge_p3_to_p2 decoded_base)) (ed_add base_point base_point).
Proof.
  refine (conj (p2_bounded_of_p3 _ p3_bounded_decoded_base)
            (conj (p2_repr_of_p3 _ _ p3_repr_base) (conj on_curve_base _))).
  exact (proj2 (ge_p2_dbl_ok (ge_p3_to_p2 decoded_base) _ _
                  (p2_bounded_of_p3 _ p3_bounded_decoded_base)
                  (p2_repr_of_p3 _ _ p3_repr_base) on_curve_base)).
Defined.

Lemma p1p1_bounded_dbl_base : p1p1_bounded dbl_base.
Proof. repeat split; vm_compute; discriminate. Qed.

Lemma p1p1_repr_dbl_base : p1p1_repr dbl_base dbl_base_point.
Proof.
  unfold p1p1_repr.
  split; [ apply GF_nonzero_by_value; vm_compute; discriminate | ].
  split; [ apply GF_nonzero_by_value; vm_compute; discriminate | ].
  split; apply GF_eq_by_value; vm_compute; reflexivity.
Qed.

Lemma x25519_ge_p1p1_to_p3_ok_witness :
  p1p1_bounded dbl_base /\ p1p1_repr dbl_base dbl_base_point /\
  p3_repr (x25519_ge_p1p1_to_p3 dbl_base) dbl_base_point.
Proof.
  refine (conj p1p1_bounded_dbl_base (conj p1p1_repr_dbl_base _)).
  exact (proj1 (proj2 (x25519_ge_p1p1_to_p3_ok dbl_base dbl_base_point
                         p1p1_bounded_dbl_base p1p1_repr_dbl_base))).
Defined.

Lemma x25519_ge_p1p1_to_p2_ok_witness :
  p1p1_bounded dbl_base /\ p1p1_repr dbl_base dbl_base_point /\
  p2_repr (x25519_ge_p1p1_to_p2 dbl_base) dbl_base_point.
Proof.
  refine (conj p1p1_bounded_dbl_base (conj p1p1_repr_dbl_base _)).
  exact (proj1 (proj2 (x25519_ge_p1p1_to_p2_ok dbl_base dbl_base_point
                         p1p1_bounded_dbl_base p1p1_repr_dbl_base))).
Defined.

Lemma ge_p1p1_to_cached_ok_witness :
  p1p1_bounded dbl_base /\ p1p1_repr dbl_base dbl_base_point /\
  cached_repr (ge_p1p1_to_cached dbl_base) dbl_base_point.
Proof.
  refine (conj p1p1_bounded_dbl_base (conj p1p1_repr_dbl_base _)).
  exact (proj2 (ge_p1p1_to_cached_ok dbl_base _ _
                  p1p1_bounded_dbl_base p1p1_repr_dbl_base)).
Defined.

(* ------------------------------------------------------------------ *)
(** ** Mixed addition and the addition of extended points *)

Lemma ge_madd_values (p : ge_p3) (q : ge_precomp) :
  p3_bounded p -> precomp_bounded q -> madd_values p q (ge_madd p q).
Proof.
  intros (BX & BY & BZ & BT) (BP & BM & BD).
  destruct p as [X Y Z T]. destruct q as [Yp Ym Xy].
  cbn [p3_X p3_Y p3_Z p3_T yplusx yminusx xy2d] in *.
  cbv beta delta [ge_madd]. ge_projections.
  repeat fe_let.
  unfold madd_values, p1p1_bounded. ge_projections. cbv zeta.
  rewrite Et_rX0, Et_rY0, Et_rZ, Et_rT0, Et_trZ0, Et_rT, Et_trT, Et_trZ, Et_trY,
    Et_rX, Et_rY.
  auto 10.
Qed.

Lemma ge_msub_values (p : ge_p3) (q : ge_precomp) :
  p3_bounded p -> precomp_bounded q -> msub_values p q (ge_msub p q).
Proof.
  intros (BX & BY & BZ & BT) (BP & BM & BD).
  destruct p as [X Y Z T]. destruct q as [Yp Ym Xy].
  cbn [p3_X p3_Y p3_Z p3_T yplusx yminusx xy2d] in *.
  cbv beta delta [ge_msub]. ge_projections.
  repeat fe_let.
  unfold msub_values, p1p1_bounded. ge_projections. cbv zeta.
  rewrite Et_rX0, Et_rY0, Et_rZ, Et_rT0, Et_trZ0, Et_rT, Et_trT, Et_trZ, Et_trY,
    Et_rX, Et_rY.
  auto 10.
Qed.

Lemma precomp_bounded_base : precomp_bounded base_precomp.
Proof. repeat split; vm_compute; discriminate. Qed.

Lemma precomp_repr_base : precomp_repr base_precomp base_point.
Proof. repeat split; apply GF_eq_by_value; vm_compute; reflexivity. Qed.

(** X16: [ge_madd] adds a precomputed affine point [(y+x, y-x, 2dxy)] to
    an extended point: for points of the curve the completed point it
    returns represents [P + Q], within the loose bounds. *)
Theorem ge_madd_ok (p : ge_p3) (q : ge_precomp) (x1 y1 x2 y2 : GF) :
  p3_bounded p -> precomp_bounded q ->
  p3_repr p (x1, y1) -> precomp_repr q (x2, y2) ->
  on_curve x1 y1 -> on_curve x2 y2 ->
  p1p1_bounded (ge_madd p q) /\
  p1p1_repr (ge_madd p q) (ed_add (x1, y1) (x2, y2)).
Proof.
  intros Bp Bq Hp (EP & EM & ED) C1 C2.
  destruct (ge_madd_values p q Bp Bq) as (Br & VX & VY & VZ & VT).
  split; [ exact Br | ].
  pose proof (p3_repr_T p x1 y1 Hp) as ET.
  destruct Hp as (HZ & EX & EY & _). cbn [fst snd] in *.
  destruct (add_formulas (fval (p3_Z p)) Zmod.one x1 y1 x2 y2 HZ GF_one_neq_zero C1 C2)
    as (NZ & NT & FX & FY).
  set (R := ed_add (x1, y1) (x2, y2)) in *. clearbody R.
  unfold p1p1_repr. rewrite VX, VY, VZ, VT, ED, ET, EP, EM, EX, EY.
  set (Z1 := fval (p3_Z p)) in *. clearbody Z1.
  set (dd := curve_d) in *. clearbody dd.
  assert (E1 : (Z1 + Z1 + (dd + dd) * (x2 * y2) * (Z1 * (x1 * y1))
                = Z1 * Zmod.one + Z1 * Zmod.one
                  + (dd + dd) * (Zmod.one * (x2 * y2)) * (Z1 * (x1 * y1)))%Zmod) by ring.
  assert (E2 : (Z1 + Z1 - (dd + dd) * (x2 * y2) * (Z1 * (x1 * y1))
                = Z1 * Zmod.one + Z1 * Zmod.one
                  - (dd + dd) * (Zmod.one * (x2 * y2)) * (Z1 * (x1 * y1)))%Zmod) by ring.
  rewrite E1, E2.
  split; [ exact NZ | ]. split; [ exact NT | ].
  split; [ rewrite <- FX | rewrite <- FY ]; ring.
Qed.

Lemma ge_madd_ok_witness :
  p3_bounded decoded_base /\ precomp_bounded base_precomp /\
  p3_repr decoded_base base_point /\ precomp_repr base_precomp base_point /\
  on_curve (fst base_point) (snd base_point) /\
  p1p1_repr (ge_madd decoded_base base_precomp) (ed_add base_point base_point).
Proof.
  refine (conj p3_bounded_decoded_base (conj precomp_bounded_base
            (conj p3_repr_base (conj precomp_repr_base (conj on_curve_base _))))).
  exact (proj2 (ge_madd_ok decoded_base base_precomp _ _ _ _
                  p3_bounded_decoded_base precomp_bounded_base
                  p3_repr_base precomp_repr_base on_curve_base on_curve_base)).
Defined.

(** X17: [ge_msub] subtracts a precomputed affine point from an extended
    point: for points of the curve the completed point it returns
    represents [P - Q], within the loose bounds. *)
Theorem ge_msub_ok (p : ge_p3) (q : ge_precomp) (x1 y1 x2 y2 : GF) :
  p3_bounded p -> precomp_bounded q ->
  p3_repr p (x1, y1) -> precomp_repr q (x2, y2) ->
  on_curve x1 y1 -> on_curve x2 y2 ->
  p1p1_bounded (ge_msub p q) /\
  p1p1_repr (ge_msub p q) (ed_sub (x1, y1) (x2, y2)).
Proof.
  intros Bp Bq Hp (EP & EM & ED) C1 C2.
  destruct (ge_msub_values p q Bp Bq) as (Br & VX & VY & VZ & VT).
  split; [ exact Br | ].
  pose proof (p3_repr_T p x1 y1 Hp) as ET.
  destruct Hp as (HZ & EX & EY & _). cbn [fst snd] in *.
  destruct (add_formulas (fval (p3_Z p)) Zmod.one x1 y1 (Zmod.opp x2) y2
              HZ GF_one_neq_zero C1 (on_curve_neg _ _ C2)) as (NZ & NT & FX & FY).
  unfold ed_sub, ed_neg. cbn [fst snd].
  set (R := ed_add (x1, y1) (Zmod.opp x2, y2)) in *. clearbody R.
  unfold p1p1_repr. rewrite VX, VY, VZ, VT, ED, ET, EP, EM, EX, EY.
  set (Z1 := fval (p3_Z p)) in *. clearbody Z1.
  set (dd := curve_d) in *. clearbody dd.
  assert (E1 : (Z1 + Z1 - (dd + dd) * (x2 * y2) * (Z1 * (x1 * y1))
                = Z1 * Zmod.one + Z1 * Zmod.one
                  + (dd + dd) * (Zmod.one * (- x2 * y2)) * (Z1 * (x1 * y1)))%Zmod) by ring.
  assert (E2 : (Z1 + Z1 + (dd + dd) * (x2 * y2) * (Z1 * (x1 * y1))
                = Z1 * Zmod.one + Z1 * Zmod.one
                  - (dd + dd) * (Zmod.one * (- x2 * y2)) * (Z1 * (x1 * y1)))%Zmod) by ring.
  rewrite E1, E2.
  split; [ exact NZ | ]. split; [ exact NT | ].
  split; [ rewrite <- FX | rewrite <- FY ]; ring.
Qed.

Lemma ge_msub_ok_witness :
  p3_bounded decoded_base /\ precomp_bounded base_precomp /\
  p3_repr decoded_base base_point /\ precomp_repr base_precomp base_point /\
  on_curve (fst base_point) (snd base_point) /\
  p1p1_repr (ge_msub decoded_base base_precomp) (ed_sub base_point base_point).
Proof.
  refine (conj p3_bounded_decoded_base (conj precomp_bounded_base
            (conj p3_repr_base (conj precomp_repr_base (conj on_curve_base _))))).
  exact (proj2 (ge_msub_ok decoded_base base_precomp _ _ _ _
                  p3_bounded_decoded_base precomp_bounded_base
                  p3_repr_base precomp_repr_base on_curve_base on_curve_base)).
Defined.

(** The addition law is commutative, and a point minus itself is the
    neutral element. *)
Lemma ed_add_comm (P Q : GF * GF) : ed_add P Q = ed_add Q P.
Proof.
  destruct P as [x1 y1], Q as [x2 y2]. unfold ed_add.
  replace (Zmod.mul curve_d (Zmod.mul (Zmod.mul x2 x1) (Zmod.mul y2 y1)))
    with (Zmod.mul curve_d (Zmod.mul (Zmod.mul x1 x2) (Zmod.mul y1 y2))) by ring.
  replace (Zmod.add (Zmod.mul x2 y1) (Zmod.mul y2 x1))
    with (Zmod.add (Zmod.mul x1 y2) (Zmod.mul y1 x2)) by ring.
  replace (Zmod.add (Zmod.mul y2 y1) (Zmod.mul x2 x1))
    with (Zmod.add (Zmod.mul y1 y2) (Zmod.mul x1 x2)) by ring.
  reflexivity.
Qed.

Lemma ed_sub_self (x y : GF) : on_curve x y -> ed_sub (x, y) (x, y) = ed_zero.
Proof.
  intros C.
  destruct (edwards_complete x y (Zmod.opp x) y C (on_curve_neg _ _ C)) as (Dp & Dm).
  cbv zeta in Dp, Dm.
  unfold ed_sub, ed_neg, ed_add, ed_zero. cbn [fst snd].
  unfold on_curve in C.
  set (e := Zmod.mul curve_d (Zmod.mul (Zmod.mul x (Zmod.opp x)) (Zmod.mul y y))) in *.
  assert (Ee : (Zmod.one - e = - (x * x) + y * y)%Zmod).
  { rewrite C. unfold e. ring. }
  assert (N0 : (x * y + y * - x = Zmod.zero)%Zmod) by ring.
  assert (N1 : (y * y + x * - x = Zmod.one - e)%Zmod) by (rewrite Ee; ring).
  rewrite N0, N1. clearbody e.
  f_equal; field; assumption.
Qed.

(** X18: adding two extended points through the cached form:
    [x25519_ge_p1p1_to_p3 (x25519_ge_add p (x25519_ge_p3_to_cached q))] is
    an extended point with tight limbs that represents [P + Q], which is
    again a point of the curve; adding in the other order represents the
    same affine point. *)
Theorem ge_add_extended (p q : ge_p3) (x1 y1 x2 y2 : GF) :
  p3_bounded p -> p3_bounded q ->
  p3_repr p (x1, y1) -> p3_repr q (x2, y2) ->
  on_curve x1 y1 -> on_curve x2 y2 ->
  let r := x25519_ge_p1p1_to_p3 (x25519_ge_add p (x25519_ge_p3_to_cached q)) in
  let r' := x25519_ge_p1p1_to_p3 (x25519_ge_add q (x25519_ge_p3_to_cached p)) in
  let S := ed_add (x1, y1) (x2, y2) in
  p3_bounded r /\ p3_repr r S /\ on_curve (fst S) (snd S) /\
  p3_bounded r' /\ p3_repr r' S.
Proof.
  intros Bp Bq Hp Hq C1 C2 r r' S.
  destruct (p3_to_cached_ok q x2 y2 Bq Hq) as (Bcq & Hcq).
  destruct (p3_to_cached_ok p x1 y1 Bp Hp) as (Bcp & Hcp).
  destruct (x25519_ge_add_ok p _ x1 y1 x2 y2 Bp Bcq Hp Hcq C1 C2) as (B1 & H1).
  destruct (x25519_ge_add_ok q _ x2 y2 x1 y1 Bq Bcp Hq Hcp C2 C1) as (B2 & H2).
  rewrite (ed_add_comm (x2, y2) (x1, y1)) in H2. fold S in H1, H2.
  destruct (p1p1_to_p3_ok _ S B1 H1) as (B3 & H3).
  destruct (p1p1_to_p3_ok _ S B2 H2) as (B4 & H4).
  split; [ exact B3 | ]. split; [ exact H3 | ].
  split; [ exact (ed_add_on_curve x1 y1 x2 y2 C1 C2) | ].
  split; [ exact B4 | exact H4 ].
Qed.

Lemma ge_add_extended_witness :
  p3_bounded decoded_base /\ p3_bounded ge_p3_0 /\
  p3_repr decoded_base base_point /\ p3_repr ge_p3_0 ed_zero /\
  on_curve (fst base_point) (snd base_point) /\ on_curve Zmod.zero Zmod.one /\
  p3_repr (x25519_ge_p1p1_to_p3
             (x25519_ge_add decoded_base (x25519_ge_p3_to_cached ge_p3_0)))
          (ed_add base_point ed_zero).
Proof.
  refine (conj p3_bounded_decoded_base (conj p3_bounded_0 (conj p3_repr_base
            (conj p3_repr_0 (conj on_curve_base (conj on_curve_zero _)))))).
  exact (proj1 (proj2 (ge_add_extended decoded_base ge_p3_0 _ _ _ _
                         p3_bounded_decoded_base p3_bounded_0
                         p3_repr_base p3_repr_0 on_curve_base on_curve_zero))).
Defined.

(** X19: doubling agrees with adding a point to itself: [ge_p2_dbl] on
    the projective form of [p] and [x25519_ge_add] of [p] and its own
    cached form represent the same affine point. *)
Theorem ge_p2_dbl_as_add (p : ge_p3) (x y : GF) :
  p3_bounded p -> p3_repr p (x, y) -> on_curve x y ->
  exists S : GF * GF,
    p1p1_repr (ge_p2_dbl (ge_p3_to_p2 p)) S /\
    p1p1_repr (x25519_ge_add p (x25519_ge_p3_to_cached p)) S /\
    on_curve (fst S) (snd S).
Proof.
  intros Bp Hp C. exists (ed_add (x, y) (x, y)).
  destruct (p3_to_cached_ok p x y Bp Hp) as (Bc & Hc).
  destruct (x25519_ge_add_ok p _ x y x y Bp Bc Hp Hc C C) as (_ & H1).
  destruct (ge_p2_dbl_values (ge_p3_to_p2 p) (p2_bounded_of_p3 p Bp))
    as (_ & VX & VY & VZ & VT).
  split; [ | split; [ exact H1 | exact (ed_add_on_curve x y x y C C) ] ].
  destruct H1 as (NZ & NT & EX & EY).
  destruct (x25519_ge_add_values p _ Bp Bc) as (_ & WX & WY & WZ & WT).
  destruct Hc as (_ & EP & EM & ED).
  pose proof (p3_repr_T p x y Hp) as ET.
  destruct Hp as (HZ & PX & PY & _). cbn [fst snd] in *.
  set (S := ed_add (x, y) (x, y)) in *. clearbody S.
  rewrite WX, EP, EM in EX. rewrite WY, EP, EM in EY.
  rewrite WZ, ED, ET in NZ. rewrite WT, ED, ET in NT.
  rewrite WZ, ED, ET in EX. rewrite WT, ED, ET in EY.
  rewrite PX, PY in EX, EY.
  change (cached_Z (x25519_ge_p3_to_cached p)) with (p3_Z p) in *.
  unfold p1p1_repr. rewrite VX, VY, VZ, VT.
  change (p2_X (ge_p3_to_p2 p)) with (p3_X p).
  change (p2_Y (ge_p3_to_p2 p)) with (p3_Y p).
  change (p2_Z (ge_p3_to_p2 p)) with (p3_Z p).
  rewrite PX, PY. unfold on_curve in C.
  set (Z := fval (p3_Z p)) in *. clearbody Z.
  set (dd := curve_d) in *. clearbody dd.
  set (two := (Zmod.add Zmod.one Zmod.one : GF)).
  assert (H2 : two <> Zmod.zero) by exact GF_two_neq_zero.
  assert (KZ : (Z * Z + Z * Z + (dd + dd) * (Z * (x * y)) * (Z * (x * y))
                = two * (Z * y * (Z * y) - Z * x * (Z * x)))%Zmod).
  { transitivity (two * ((Z * Z) * (Zmod.one + dd * ((x * x) * (y * y)))))%Zmod;
      [ unfold two; ring | ].
    rewrite <- C. ring. }
  assert (KT : (Z * Z + Z * Z - (dd + dd) * (Z * (x * y)) * (Z * (x * y))
                = two * (Z * Z + Z * Z - (Z * y * (Z * y) - Z * x * (Z * x))))%Zmod).
  { transitivity (two * ((Z * Z + Z * Z)
                         - (Z * Z) * (Zmod.one + dd * ((x * x) * (y * y)))))%Zmod;
      [ unfold two; ring | ].
    rewrite <- C. ring. }
  rewrite KZ in NZ, EX. rewrite KT in NT, EY.
  split; [ intros E0; apply NZ; rewrite E0; ring | ].
  split; [ intros E0; apply NT; rewrite E0; ring | ].
  split; apply (Zmod.mul_cancel_l_prime two); try exact prime_p25519; try exact H2.
  - transitivity ((Z * y + Z * x) * (Z * (y + x)) - (Z * y - Z * x) * (Z * (y - x)))%Zmod;
      [ unfold two; ring | ].
    rewrite EX. ring.
  - transitivity ((Z * y + Z * x) * (Z * (y + x)) + (Z * y - Z * x) * (Z * (y - x)))%Zmod;
      [ unfold two; ring | ].
    rewrite EY. ring.
Qed.

Lemma ge_p2_dbl_as_add_witness :
  p3_bounded decoded_base /\ p3_repr decoded_base base_point /\
  on_curve (fst base_point) (snd base_point) /\
  exists S : GF * GF,
    p1p1_repr (ge_p2_dbl (ge_p3_to_p2 decoded_base)) S /\
    p1p1_repr (x25519_ge_add decoded_base (x25519_ge_p3_to_cached decoded_base)) S /\
    on_curve (fst S) (snd S).
Proof.
  refine (conj p3_bounded_decoded_base (conj p3_repr_base (conj on_curve_base _))).
  exact (ge_p2_dbl_as_add decoded_base _ _
           p3_bounded_decoded_base p3_repr_base on_curve_base).
Defined.

(** X20: subtracting a point from itself gives the neutral element:
    [x25519_ge_sub] of [p] and its own cached form represents [(0, 1)]. *)
Theorem x25519_ge_sub_self (p : ge_p3) (x y : GF) :
  p3_bounded p -> p3_repr p (x, y) -> on_curve x y ->
  p1p1_repr (fst (x25519_ge_sub p (x25519_ge_p3_to_cached p))) ed_zero /\
  fval (p1p1_X (fst (x25519_ge_sub p (x25519_ge_p3_to_cached p)))) = Zmod.zero.
Proof.
  intros Bp Hp C.
  destruct (p3_to_cached_ok p x y Bp Hp) as (Bc & Hc).
  rewrite x25519_ge_sub_result.
  destruct (x25519_ge_sub_quiet_ok p _ x y x y Bp Bc Hp Hc C C) as (_ & H).
  rewrite (ed_sub_self x y C) in H.
  split; [ exact H | ].
  destruct H as (_ & _ & EX & _). rewrite EX. unfold ed_zero. cbn [fst]. ring.
Qed.

Lemma x25519_ge_sub_self_witness :
  p3_bounded decoded_base /\ p3_repr decoded_base base_point /\
  on_curve (fst base_point) (snd base_point) /\
  p1p1_repr (fst (x25519_ge_sub decoded_base (x25519_ge_p3_to_cached decoded_base)))
            ed_zero.
Proof.
  refine (conj p3_bounded_decoded_base (conj p3_repr_base (conj on_curve_base _))).
  exact (proj1 (x25519_ge_sub_self decoded_base _ _
                  p3_bounded_decoded_base p3_repr_base on_curve_base)).
Defined.

Lemma precomp_bounded_0 : precomp_bounded ge_precomp_0.
Proof. repeat split; vm_compute; discriminate. Qed.

(** X29: [ge_precomp_0] is [(1, 1, 0)], the precomputed form of the
    neutral element [(0, 1)]; [ge_madd] and [ge_msub] with it give
    completed points that represent the affine point of the extended
    point, whether that point is on the curve or not. *)
Theorem ge_precomp_0_identity (p : ge_p3) (x y : GF) :
  p3_bounded p -> p3_repr p (x, y) ->
  precomp_repr ge_precomp_0 ed_zero /\
  p1p1_repr (ge_madd p ge_precomp_0) (x, y) /\
  p1p1_repr (ge_msub p ge_precomp_0) (x, y).
Proof.
  intros Bp Hp.
  assert (V1 : fval fe_loose_1 = Zmod.one) by exact fval_fe_1.
  assert (V0 : fval fe_loose_0 = Zmod.zero) by exact fval_fe_0.
  split.
  - unfold precomp_repr, ed_zero. cbn [fst snd ge_precomp_0 yplusx yminusx xy2d].
    rewrite V1, V0. repeat split; ring.
  - destruct (ge_madd_values p ge_precomp_0 Bp precomp_bounded_0)
      as (_ & VX & VY & VZ & VT).
    destruct (ge_msub_values p ge_precomp_0 Bp precomp_bounded_0)
      as (_ & WX & WY & WZ & WT).
    destruct Hp as (HZ & EX & EY & _). cbn [fst snd] in *.
    cbn [ge_precomp_0 yplusx yminusx xy2d] in *.
    unfold p1p1_repr. cbn [fst snd].
    rewrite VX, VY, VZ, VT, WX, WY, WZ, WT, V1, V0, EX, EY.
    set (Z1 := fval (p3_Z p)) in *. clearbody Z1.
    set (T1 := fval (p3_T p)). clearbody T1.
    assert (N : (Z1 + Z1)%Zmod <> Zmod.zero).
    { replace (Z1 + Z1)%Zmod with ((Zmod.one + Zmod.one) * Z1)%Zmod by ring.
      apply GF_mul_nonzero; [ exact GF_two_neq_zero | exact HZ ]. }
    assert (Ep : (Z1 + Z1 + Zmod.zero * T1 = Z1 + Z1)%Zmod) by ring.
    assert (Em : (Z1 + Z1 - Zmod.zero * T1 = Z1 + Z1)%Zmod) by ring.
    rewrite Ep, Em.
    split; (split; [ exact N | split; [ exact N | split; ring ] ]).
Qed.

Lemma ge_precomp_0_identity_witness :
  p3_bounded decoded_base /\ p3_repr decoded_base base_point /\
  p1p1_repr (ge_madd decoded_base ge_precomp_0) base_point.
Proof.
  refine (conj p3_bounded_decoded_base (conj p3_repr_base _)).
  exact (proj1 (proj2 (ge_precomp_0_identity decoded_base _ _
                         p3_bounded_decoded_base p3_repr_base))).
Defined.

(* ------------------------------------------------------------------ *)
(** ** Encoding followed by decoding, and back *)

(** [v = d y^2 + 1] does not vanish, since [d] is not a square. *)
Lemma decode_v_nonzero (y : GF) : decode_v y <> Zmod.zero.
Proof.
  unfold decode_v. intros E.
  destruct (GF_eq_dec y Zmod.zero) as [Hy | Hy].
  - apply GF_one_neq_zero. rewrite <- E, Hy. ring.
  - apply (curve_d_ratio_nonsquare sqrt_m1 y Hy). rewrite sqrt_m1_square.
    transitivity (Zmod.sub (Zmod.add (Zmod.mul curve_d (Zmod.mul y y)) Zmod.one)
                           Zmod.one); [ rewrite E; ring | ring ].
Qed.

(** The sign fix-up picks the root with the given sign. *)
Lemma fix_sign_root (b x : GF) :
  Zmod.mul b b = Zmod.mul x x -> fix_sign b (fsign x) = x.
Proof.
  intros E. rewrite <- !Zmod.pow_2_r in E.
  apply (Zmod.square_roots_opp_prime prime_p25519) in E.
  unfold fix_sign. destruct E as [-> | ->].
  - rewrite Z.eqb_refl. reflexivity.
  - rewrite fsign_opp. destruct (Zmod.eqb_spec x Zmod.zero) as [E0 | Hnz].
    + rewrite E0. change (fsign Zmod.zero) with 0. cbn [Z.eqb]. ring.
    + pose proof (fsign_range x) as R.
      destruct (Z.eqb_spec (1 - fsign x) (fsign x)) as [E1 | _]; [ lia | ring ].
Qed.

Lemma fsign_fix_sign (b : GF) (sign : Z) :
  0 <= sign <= 1 -> fix_sign b sign <> Zmod.zero -> fsign (fix_sign b sign) = sign.
Proof.
  intros Hs. unfold fix_sign.
  destruct (Z.eqb_spec (fsign b) sign) as [E | N]; [ intros _; exact E | ].
  intros Hnz. rewrite fsign_opp.
  destruct (Zmod.eqb_spec b Zmod.zero) as [E0 | _].
  - exfalso. apply Hnz. rewrite E0. ring.
  - pose proof (fsign_range b). lia.
Qed.

(** The candidate root: with [v x^2 = u] for some [x], the candidate
    [b = u v^3 (u v^7)^((p-5)/8)] has [v b^2 = u] or [v b^2 = -u]. *)
Lemma candidate_power (w : GF) :
  w <> Zmod.zero -> (exists z, w = Zmod.mul z z) ->
  let t := Zmod.mul w (Zmod.mul (Zmod.pow w ((p25519 - 5) / 8))
                                (Zmod.pow w ((p25519 - 5) / 8))) in
  t = Zmod.one \/ t = Zmod.opp Zmod.one.
Proof.
  intros Hw (z & Ez) t.
  assert (Hz : z <> Zmod.zero).
  { intros E0. apply Hw. rewrite Ez, E0. ring. }
  apply (Zmod.square_roots_1_prime prime_p25519).
  assert (Et : t = Zmod.pow w ((p25519 - 1) / 4)).
  { unfold t. rewrite <- Zmod.pow_add_r_nonneg by (vm_compute; discriminate).
    rewrite <- Zmod.pow_succ_nonneg_r by (vm_compute; discriminate).
    reflexivity. }
  rewrite Et, <- Zmod.pow_mul_r_nonneg by (vm_compute; discriminate).
  change ((p25519 - 1) / 4 * 2) with ((p25519 - 1) / 2).
  rewrite Ez, Zmod.pow_mul_l_nonneg by (vm_compute; discriminate).
  rewrite <- Zmod.pow_add_r_nonneg by (vm_compute; discriminate).
  change ((p25519 - 1) / 2 + (p25519 - 1) / 2) with (Z.pred p25519).
  apply Zmod.fermat_nz; [ exact Hz | exact prime_p25519 ].
Qed.

Lemma candidate_square (y x : GF) :
  Zmod.mul (decode_v y) (Zmod.mul x x) = decode_u y ->
  let b := decode_candidate y in
  Zmod.mul (decode_v y) (Zmod.mul b b) = decode_u y \/
  Zmod.mul (decode_v y) (Zmod.mul b b) = Zmod.opp (decode_u y).
Proof.
  intros E. pose proof (decode_v_nonzero y) as Hv.
  unfold decode_candidate. cbv zeta.
  set (u := decode_u y) in *. set (v := decode_v y) in *. clearbody u v.
  set (w := Zmod.mul u (Zmod.mul (Zmod.mul (Zmod.mul (Zmod.mul v v) v)
                                           (Zmod.mul (Zmod.mul v v) v)) v)).
  set (P := Zmod.pow w ((p25519 - 5) / 8)).
  assert (K : (v * (u * (v * v * v) * P * (u * (v * v * v) * P))
               = u * (w * (P * P)))%Zmod) by (unfold w; ring).
  rewrite K.
  destruct (GF_eq_dec x Zmod.zero) as [Hx | Hx].
  - left. assert (U0 : u = Zmod.zero) by (rewrite <- E, Hx; ring).
    rewrite U0. ring.
  - assert (Hw : w <> Zmod.zero).
    { unfold w. rewrite <- E. repeat apply GF_mul_nonzero; assumption. }
    assert (Sq : exists z, w = Zmod.mul z z).
    { exists (v * v * v * v * x)%Zmod. unfold w. rewrite <- E. ring. }
    destruct (candidate_power w Hw Sq) as [T | T]; cbv zeta in T; fold P in T;
      rewrite T; [ left | right ]; ring.
Qed.

(** The specified decoding accepts every point of the curve whose sign
    is the sign bit of the buffer. *)
Lemma decode_spec_complete (s : list Z) (x : GF) :
  on_curve x (decode_y s) -> fsign x = decode_sign s ->
  decode_spec s = Some (x, decode_y s).
Proof.
  intros C0 Hs. pose proof (proj1 (on_curve_iff x (decode_y s)) C0) as C. clear C0.
  pose proof (candidate_square (decode_y s) x C) as K. cbv zeta in K.
  pose proof (decode_v_nonzero (decode_y s)) as Hv.
  unfold decode_spec. cbv zeta. rewrite <- Hs.
  remember (decode_y s) as y0 eqn:Ey0.
  remember (decode_candidate y0) as b eqn:Eb.
  remember (decode_u y0) as u0 eqn:Eu0.
  remember (decode_v y0) as w0 eqn:Ew0.
  clear Ey0 Eb Eu0 Ew0 Hs.
  assert (R1 : Zmod.mul w0 (Zmod.mul b b) = u0 -> fix_sign b (fsign x) = x).
  { intros E1. apply fix_sign_root.
    apply (Zmod.mul_cancel_l_prime w0); [ exact prime_p25519 | exact Hv | ].
    rewrite E1, C. reflexivity. }
  assert (R2 : Zmod.mul w0 (Zmod.mul b b) = Zmod.opp u0 ->
               fix_sign (Zmod.mul b sqrt_m1) (fsign x) = x).
  { intros E2. apply fix_sign_root.
    apply (Zmod.mul_cancel_l_prime w0); [ exact prime_p25519 | exact Hv | ].
    transitivity (Zmod.mul (Zmod.mul w0 (Zmod.mul b b)) (Zmod.mul sqrt_m1 sqrt_m1));
      [ ring | ].
    rewrite sqrt_m1_square, E2, C. ring. }
  destruct (Zmod.eqb_spec (Zmod.mul w0 (Zmod.mul b b)) u0) as [E1 | N1].
  - rewrite (R1 E1). reflexivity.
  - destruct (Zmod.eqb_spec (Zmod.mul w0 (Zmod.mul b b)) (Zmod.opp u0)) as [E2 | N2].
    + rewrite (R2 E2). reflexivity.
    + exfalso. destruct K as [K | K]; [ exact (N1 K) | exact (N2 K) ].
Qed.

(** What the specified decoding accepts has the sign of the buffer,
    unless [x = 0]. *)
Lemma decode_spec_sign (s : list Z) (x y : GF) :
  decode_spec s = Some (x, y) ->
  exists b, x = fix_sign b (decode_sign s).
Proof.
  unfold decode_spec. cbv zeta.
  remember (decode_y s) as y0 eqn:Ey0.
  remember (decode_candidate y0) as x0 eqn:Ex0.
  remember (decode_sign s) as sg eqn:Esg.
  remember (decode_u y0) as u0 eqn:Eu0.
  remember (decode_v y0) as w0 eqn:Ew0.
  remember (fix_sign x0 sg) as xa eqn:Exa.
  remember (fix_sign (Zmod.mul x0 sqrt_m1) sg) as xb eqn:Exb.
  clear Ex0 Esg Ey0 Eu0 Ew0.
  destruct (Zmod.eqb (Zmod.mul w0 (Zmod.mul x0 x0)) u0).
  - intros E. destruct (some_pair_inj _ _ _ _ _ _ E) as (<- & _).
    exists x0. exact Exa.
  - destruct (Zmod.eqb (Zmod.mul w0 (Zmod.mul x0 x0)) (Zmod.opp u0));
      [ | discriminate ].
    intros E. destruct (some_pair_inj _ _ _ _ _ _ E) as (<- & _).
    exists (Zmod.mul x0 sqrt_m1). exact Exb.
Qed.

(** The encoding of a point: a 32-byte buffer that holds [y] in the low
    255 bits and the sign of [x] in the top bit. *)
Lemma encode_spec_bytes32 (x y : GF) : bytes32 (encode_spec x y).
Proof.
  rewrite encode_spec_closed.
  split; [ apply le_encode_length | apply le_encode_bytes ].
Qed.

Lemma decode_y_encode (x y : GF) : decode_y (encode_spec x y) = y.
Proof.
  unfold decode_y. rewrite encode_spec_value.
  pose proof (GF_to_Z_range y) as Ry. pose proof (fsign_range x) as Rs.
  replace ((Zmod.to_Z y + 2 ^ 255 * fsign x) mod 2 ^ 255) with (Zmod.to_Z y).
  - apply Zmod.of_Z_to_Z.
  - apply Z.mod_unique with (q := fsign x); lia.
Qed.

Lemma decode_sign_value (s : list Z) :
  bytes32 s ->
  0 <= decode_sign s <= 1 /\
  le_decode s = le_decode s mod 2 ^ 255 + 2 ^ 255 * decode_sign s /\
  (decode_sign s = 0 <-> nth 31 s 0 < 128).
Proof.
  intros Hs. destruct (le_decode_top s Hs) as (lo & Hlo & E & Hb).
  unfold decode_sign. rewrite Z.shiftr_div_pow2 by lia. rewrite E.
  generalize dependent (nth 31 s 0). intros b _ Hb.
  change (2 ^ 7) with 128. Z.div_mod_to_equations. lia.
Qed.

Lemma decode_sign_encode (x y : GF) : decode_sign (encode_spec x y) = fsign x.
Proof.
  destruct (decode_sign_value _ (encode_spec_bytes32 x y)) as (R & E & _).
  rewrite encode_spec_value in E.
  pose proof (GF_to_Z_range y) as Ry. pose proof (fsign_range x) as Rs.
  revert R E. generalize (decode_sign (encode_spec x y)). intros sg R E.
  Z.div_mod_to_equations. lia.
Qed.

(** The encoders on a point with [Z <> 0]. *)
Lemma ge_p3_tobytes_repr (h : ge_p3) (x y : GF) :
  p3_bounded h -> p3_repr h (x, y) -> ge_p3_tobytes h = encode_spec x y.
Proof.
  intros (BX & BY & BZ & _) (HZ & EX & EY & _). cbn [fst snd] in *.
  unfold ge_p3_tobytes. cbv zeta. rewrite (tobytes_xyz _ _ _ BX BY BZ HZ).
  rewrite EX, EY. f_equal; field; exact HZ.
Qed.

(** X21: decoding the encoding of a point of the curve succeeds and gives
    the point back: [x25519_ge_frombytes_vartime] on what [ge_p3_tobytes]
    wrote returns 1 with an extended point, [Z = 1], that represents the
    same affine point. *)
Theorem ge_frombytes_tobytes (h0 h : ge_p3) (x y : GF) :
  p3_bounded h -> p3_repr h (x, y) -> on_curve x y ->
  exists h',
    x25519_ge_frombytes_vartime h0 (ge_p3_tobytes h) = Some (1, h') /\
    p3_bounded h' /\ p3_repr h' (x, y) /\ p3_Z h' = fe_1.
Proof.
  intros Bh Hh C. rewrite (ge_p3_tobytes_repr h x y Bh Hh).
  pose proof (decode_refines h0 _ (encode_spec_bytes32 x y)) as R.
  assert (Ed : decode_spec (encode_spec x y) = Some (x, y)).
  { pose proof (decode_spec_complete (encode_spec x y) x) as K.
    rewrite decode_y_encode, decode_sign_encode in K. exact (K C eq_refl). }
  destruct (decode_ok_some _ _ _ _ Ed R)
    as (h' & Er & EX & EY & EZ & ET & BX & BY & BT).
  exists h'. split; [ exact Er | ].
  split; [ unfold p3_bounded; rewrite EZ; exact (conj BX (conj BY (conj tight_fe_1 BT))) | ].
  split; [ | exact EZ ].
  unfold p3_repr. cbn [fst snd]. rewrite EZ, fval_fe_1, EX, EY, ET.
  split; [ exact GF_one_neq_zero | ]. repeat split; ring.
Qed.

Lemma ge_frombytes_tobytes_witness :
  p3_bounded decoded_base /\ p3_repr decoded_base base_point /\
  on_curve (fst base_point) (snd base_point) /\
  exists h',
    x25519_ge_frombytes_vartime ge_p3_0 (ge_p3_tobytes decoded_base) = Some (1, h') /\
    p3_bounded h' /\ p3_repr h' base_point /\ p3_Z h' = fe_1.
Proof.
  refine (conj p3_bounded_decoded_base (conj p3_repr_base (conj on_curve_base _))).
  exact (ge_frombytes_tobytes ge_p3_0 decoded_base _ _
           p3_bounded_decoded_base p3_repr_base on_curve_base).
Defined.

(** Encoding what was decoded gives the buffer back exactly for the
    canonical buffers. *)
Lemma reencode_iff (h0 h' : ge_p3) (s : list Z) :
  bytes32 s ->
  x25519_ge_frombytes_vartime h0 s = Some (1, h') ->
  (ge_p3_tobytes h' = s <->
   le_decode s mod 2 ^ 255 < p25519 /\
   (fval (p3_X h') = Zmod.zero -> nth 31 s 0 < 128)).
Proof.
  intros Hs Er. pose proof (decode_refines h0 s Hs) as R.
  destruct (decode_spec_cases s) as [(x & y & Ed) | Ed].
  2:{ destruct (decode_ok_none _ _ Ed R) as (h'' & Er').
      rewrite Er in Er'. discriminate Er'. }
  destruct (decode_ok_some _ _ _ _ Ed R)
    as (h'' & Er' & EX & EY & EZ & ET & BX & BY & BT).
  rewrite Er in Er'. destruct (some_pair_inj _ _ _ _ _ _ Er') as (_ & <-).
  assert (Bh : p3_bounded h')
    by (unfold p3_bounded; rewrite EZ; exact (conj BX (conj BY (conj tight_fe_1 BT)))).
  assert (Hh : p3_repr h' (x, y)).
  { unfold p3_repr. cbn [fst snd]. rewrite EZ, fval_fe_1, EX, EY, ET.
    split; [ exact GF_one_neq_zero | ]. repeat split; ring. }
  rewrite (ge_p3_tobytes_repr h' x y Bh Hh), EX.
  destruct (decode_spec_on_curve s x y Ed) as (Ey & _).
  destruct (decode_spec_sign s x y Ed) as (b & Ex).
  destruct (decode_sign_value s Hs) as (Rs & Es & Hs0).
  assert (Hsign : x <> Zmod.zero -> fsign x = decode_sign s)
    by (intros Hnz; rewrite Ex in Hnz |- *; apply fsign_fix_sign; assumption).
  assert (Vy : Zmod.to_Z y = (le_decode s mod 2 ^ 255) mod p25519)
    by (rewrite Ey; unfold decode_y; apply Zmod.to_Z_of_Z).
  pose proof (GF_to_Z_range y) as Ry. pose proof (fsign_range x) as Rx.
  pose proof (Z.mod_pos_bound (le_decode s) (2 ^ 255) ltac:(lia)) as Rl.
  pose proof (Z.mod_pos_bound (le_decode s mod 2 ^ 255) p25519 p25519_pos) as Rp.
  destruct Hs as (Hlen & Hb).
  assert (Q : encode_spec x y = s <->
              Zmod.to_Z y + 2 ^ 255 * fsign x = le_decode s).
  { split.
    - intros E. rewrite <- E. symmetry. apply encode_spec_value.
    - intros E. apply bytes_eq_by_decode.
      + apply encode_spec_bytes32.
      + exact Hb.
      + rewrite Hlen. apply encode_spec_bytes32.
      + rewrite encode_spec_value. exact E. }
  rewrite Q. clear Q.
  destruct (GF_eq_dec x Zmod.zero) as [E0 | Hnz].
  - assert (S0 : fsign x = 0) by (rewrite E0; reflexivity).
    rewrite S0. split.
    + intros E. split; [ lia | ]. intros _. apply Hs0. lia.
    + intros (Hlt & Hz). rewrite (proj2 Hs0 (Hz E0)) in Es.
      rewrite Vy, Z.mod_small by lia. lia.
  - rewrite (Hsign Hnz). split.
    + intros E. split; [ lia | ]. intros E0. contradiction.
    + intros (Hlt & _). rewrite Vy, Z.mod_small by lia. lia.
Qed.

(** X22: encoding what was decoded gives the buffer back for the
    canonical buffers: when [x25519_ge_frombytes_vartime] returns 1 on a
    buffer whose low 255 bits are below [p] and whose sign bit is clear
    when [x = 0], [ge_p3_tobytes] of its output is that buffer. *)
Theorem ge_tobytes_frombytes (h0 h' : ge_p3) (s : list Z) :
  bytes32 s ->
  x25519_ge_frombytes_vartime h0 s = Some (1, h') ->
  le_decode s mod 2 ^ 255 < p25519 ->
  (fval (p3_X h') = Zmod.zero -> nth 31 s 0 < 128) ->
  ge_p3_tobytes h' = s.
Proof.
  intros Hs Er Hlt Hz. apply (reencode_iff h0 h' s Hs Er). exact (conj Hlt Hz).
Qed.

Lemma base_x_nonzero : fval (p3_X decoded_base) = Zmod.zero -> nth 31 base_bytes 0 < 128.
Proof. intros _. vm_compute. reflexivity. Qed.

Lemma ge_tobytes_frombytes_witness :
  bytes32 base_bytes /\
  x25519_ge_frombytes_vartime ge_p3_0 base_bytes = Some (1, decoded_base) /\
  le_decode base_bytes mod 2 ^ 255 < p25519 /\
  ge_p3_tobytes decoded_base = base_bytes.
Proof.
  assert (Hs : bytes32 base_bytes) by (unfold base_bytes; cbn [repeat]; bytes32_tac).
  assert (E : x25519_ge_frombytes_vartime ge_p3_0 base_bytes = Some (1, decoded_base))
    by (vm_compute; reflexivity).
  assert (L : le_decode base_bytes mod 2 ^ 255 < p25519) by (vm_compute; reflexivity).
  refine (conj Hs (conj E (conj L _))).
  exact (ge_tobytes_frombytes ge_p3_0 decoded_base base_bytes Hs E L base_x_nonzero).
Defined.

(** X23: the decoder accepts encodings that are not canonical: a buffer
    it accepts with [x = 0] and the sign bit set, or with low 255 bits
    that are [p] or more, is never what [ge_p3_tobytes] writes for the
    decoded point. *)
Theorem ge_frombytes_noncanonical (h0 h' : ge_p3) (s : list Z) :
  bytes32 s ->
  x25519_ge_frombytes_vartime h0 s = Some (1, h') ->
  (fval (p3_X h') = Zmod.zero /\ 128 <= nth 31 s 0) \/
  p25519 <= le_decode s mod 2 ^ 255 ->
  ge_p3_tobytes h' <> s.
Proof.
  intros Hs Er Hn E.
  apply (reencode_iff h0 h' s Hs Er) in E.
  destruct E as (Hlt & Hz). destruct Hn as [(E0 & Hge) | Hge]; [ | lia ].
  specialize (Hz E0). lia.
Qed.

Lemma ge_frombytes_noncanonical_witness :
  bytes32 signed_zero_bytes /\
  x25519_ge_frombytes_vartime ge_p3_0 signed_zero_bytes
  = Some (1, decoded_signed_zero) /\
  ge_p3_tobytes decoded_signed_zero <> signed_zero_bytes.
Proof.
  assert (Hs : bytes32 signed_zero_bytes)
    by (unfold signed_zero_bytes; cbn [repeat app]; bytes32_tac).
  assert (E : x25519_ge_frombytes_vartime ge_p3_0 signed_zero_bytes
              = Some (1, decoded_signed_zero)) by (vm_compute; reflexivity).
  assert (N : fval (p3_X decoded_signed_zero) = Zmod.zero /\
              128 <= nth 31 signed_zero_bytes 0).
  { split; [ apply GF_eq_by_value; vm_compute; reflexivity
           | vm_compute; discriminate ]. }
  refine (conj Hs (conj E _)).
  exact (ge_frombytes_noncanonical ge_p3_0 decoded_signed_zero signed_zero_bytes
           Hs E (or_introl N)).
Defined.

(* ------------------------------------------------------------------ *)
(** ** [hexify] of [test.c] *)

Lemma byte_cases (P : Z -> bool) :
  forallb P (map Z.of_nat (seq 0 256)) = true ->
  forall b, is_byte b -> P b = true.
Proof.
  intros H b Hb. rewrite forallb_forall in H. apply H.
  apply in_map_iff. exists (Z.to_nat b). unfold is_byte in Hb.
  split; [ lia | ]. apply in_seq. lia.
Qed.

Lemma nibbles (b : Z) :
  is_byte b ->
  u8 (Z.shiftr (Z.land b 0xF0) 4) = b / 16 /\ u8 (Z.land b 0x0F) = b mod 16.
Proof.
  intros Hb.
  pose proof (byte_cases
    (fun b => (u8 (Z.shiftr (Z.land b 0xF0) 4) =? b / 16)
              && (u8 (Z.land b 0x0F) =? b mod 16))
    ltac:(vm_compute; reflexivity) b Hb) as H.
  cbv beta in H. apply andb_true_iff in H. destruct H as (H1 & H2).
  split; apply Z.eqb_eq; assumption.
Qed.

Lemma byte_of_hex_byte (b : Z) : is_byte b -> byte_of_hex (hex_byte b) = b.
Proof.
  intros Hb. apply Z.eqb_eq.
  exact (byte_cases (fun b => byte_of_hex (hex_byte b) =? b)
           ltac:(vm_compute; reflexivity) b Hb).
Qed.

Lemma hexes_length (l : list Z) : length (hexes l) = (2 * length l)%nat.
Proof.
  induction l as [| b l IH]; [ reflexivity | ].
  change (hexes (b :: l)) with (hex_byte b ++ hexes l)%list.
  rewrite length_app, IH. cbn [hex_byte length]. lia.
Qed.

Lemma hexes_inj (l l' : list Z) :
  Forall is_byte l -> Forall is_byte l' -> hexes l = hexes l' -> l = l'.
Proof.
  intros Hl. revert l'. induction Hl as [| b l Hb Hl IH]; intros l' Hl' E.
  - destruct l' as [| b' l']; [ reflexivity | discriminate E ].
  - destruct Hl' as [| b' l' Hb' Hl']; [ discriminate E | ].
    cbn [hexes flat_map hex_byte app] in E.
    injection E as E1 E2 E3.
    assert (Eb : hex_byte b = hex_byte b')
      by (unfold hex_byte; f_equal; [ exact E1 | f_equal; exact E2 ]).
    apply (f_equal byte_of_hex) in Eb. rewrite !byte_of_hex_byte in Eb by assumption.
    rewrite Eb. f_equal. apply IH; assumption.
Qed.

Lemma put_some (buf w : list ascii) (c : ascii) :
  (length w < length buf)%nat -> put buf w c = Some (w ++ [c])%list.
Proof.
  intros H. unfold put. destruct (Nat.ltb_spec (length w) (length buf)); [ reflexivity | lia ].
Qed.

Lemma skipn_cons_nth (l : list Z) (i : nat) :
  (i < length l)%nat -> skipn i l = nth i l 0 :: skipn (S i) l.
Proof.
  revert i. induction l as [| a l IH]; intros [| i] H; cbn [length] in H; try lia.
  - reflexivity.
  - cbn [skipn nth]. rewrite IH by lia. reflexivity.
Qed.

Section HexifyLoop.

Variables (inp : list Z) (in_size : Z) (buf : list ascii) (out_size : Z).
Hypothesis Hbytes : Forall is_byte inp.
Hypothesis Hin : 0 < in_size <= Z.of_nat (length inp).
Hypothesis Hsmall : in_size < 2 ^ 30.
Hypothesis Hout : 0 < out_size <= Z.of_nat (length buf).

(** The number of bytes converted. *)
Variable n : Z.
Hypothesis Hn : n = hexify_count in_size out_size.

Lemma hexify_count_range : 0 <= n <= in_size /\ 2 * n + 1 <= out_size.
Proof.
  rewrite Hn. unfold hexify_count. split; Z.div_mod_to_equations; lia.
Qed.

Lemma hexify_guard (i : Z) :
  0 <= i <= n ->
  (i <? in_size) && (size_t (size_t (i * 2) + (2 + 1)) <=? out_size) = (i <? n).
Proof.
  intros Hi. pose proof hexify_count_range as R. unfold size_t.
  rewrite (Z.mod_small (i * 2)) by lia. rewrite Z.mod_small by lia.
  pose proof Hn as Hn'. unfold hexify_count in Hn'.
  destruct (Z.ltb_spec i in_size), (Z.leb_spec (i * 2 + (2 + 1)) out_size),
    (Z.ltb_spec i n);
    cbn [andb]; try reflexivity; exfalso; Z.div_mod_to_equations; lia.
Qed.

Lemma hexify_loop_spec (fuel : nat) :
  forall (i : Z) (w : list ascii),
    0 <= i <= n -> n - i <= Z.of_nat fuel -> Z.of_nat (length w) = 2 * i ->
    hexify_loop fuel inp in_size buf out_size i w (2 * i)
    = Some ((w ++ hexes (firstn (Z.to_nat (n - i)) (skipn (Z.to_nat i) inp)))%list,
            2 * n).
Proof.
  pose proof hexify_count_range as R.
  induction fuel as [| fuel IH]; intros i w Hi Hf Hw.
  - assert (i = n) by lia. subst i.
    cbn [hexify_loop]. rewrite hexify_guard, Z.ltb_irrefl by lia.
    rewrite Z.sub_diag. cbn [Z.to_nat firstn hexes flat_map]. rewrite app_nil_r.
    reflexivity.
  - cbn [hexify_loop]. rewrite hexify_guard by lia.
    destruct (Z.ltb_spec i n) as [Hlt | Hge].
    + assert (Hil : (Z.to_nat i < length inp)%nat) by lia.
      rewrite (nth_error_nth' inp 0 Hil).
      set (b := nth (Z.to_nat i) inp 0).
      assert (Hb : is_byte b).
      { rewrite Forall_forall in Hbytes. apply Hbytes. apply nth_In. exact Hil. }
      destruct (nibbles b Hb) as (N1 & N2). cbv zeta. rewrite N1, N2.
      rewrite put_some by lia.
      rewrite put_some by (rewrite length_app; cbn [length]; lia).
      assert (Ei : size_t (i + 1) = i + 1) by (unfold size_t; apply Z.mod_small; lia).
      rewrite Ei. replace (2 * i + 2) with (2 * (i + 1)) by lia.
      rewrite IH by (rewrite ?length_app; cbn [length]; lia).
      f_equal. f_equal.
      replace (Z.to_nat (n - i)) with (S (Z.to_nat (n - (i + 1)))) by lia.
      rewrite (skipn_cons_nth inp (Z.to_nat i) Hil). fold b.
      replace (S (Z.to_nat i)) with (Z.to_nat (i + 1)) by lia.
      cbn [firstn hexes flat_map]. unfold hex_byte at 2.
      rewrite <- !app_assoc. reflexivity.
    + assert (i = n) by lia. subst i.
      rewrite Z.sub_diag. cbn [Z.to_nat firstn hexes flat_map]. rewrite app_nil_r.
      reflexivity.
Qed.

Lemma hexify_spec :
  hexify inp in_size buf out_size
  = Some (2 * n, (hexes (firstn (Z.to_nat n) inp)
                  ++ Ascii.zero :: skipn (Z.to_nat (2 * n + 1)) buf)%list).
Proof.
  pose proof hexify_count_range as R. unfold hexify.
  destruct (Z.eqb_spec in_size 0) as [E | _]; [ lia | ].
  destruct (Z.eqb_spec out_size 0) as [E | _]; [ lia | ]. cbn [orb].
  pose proof (hexify_loop_spec (Z.to_nat in_size) 0 [] ltac:(lia) ltac:(lia) eq_refl) as L.
  change (2 * 0) with 0 in L. rewrite L. clear L.
  rewrite Z.sub_0_r. cbn [Z.to_nat skipn app].
  set (w := hexes (firstn (Z.to_nat n) inp)).
  assert (Lw : length w = Z.to_nat (2 * n)).
  { unfold w. rewrite hexes_length, length_firstn. lia. }
  rewrite put_some by lia. rewrite length_app, Lw. cbn [length].
  replace (Z.to_nat (2 * n) + 1)%nat with (Z.to_nat (2 * n + 1)) by lia.
  rewrite <- app_assoc. reflexivity.
Qed.

End HexifyLoop.

(** X24: on an input of byte values with [0 <= in_size <= |in|],
    [in_size < 2^30] and [0 <= out_size <= |out|], [hexify] returns and
    never loads or stores outside of its buffers.  When [in_size = 0] or
    [out_size = 0] it returns 0 and leaves [out] as it was, with no NUL
    stored.  Otherwise what it leaves in [out] is the hexadecimal digits
    of the first [n] input bytes, a terminating NUL, and the old contents
    beyond, where [n] is the smaller of [in_size] and
    [(out_size - 1) / 2]; it returns [2 n]. *)
Theorem hexify_result (inp : list Z) (in_size : Z) (buf : list ascii) (out_size : Z) :
  Forall is_byte inp ->
  0 <= in_size <= Z.of_nat (length inp) -> in_size < 2 ^ 30 ->
  0 <= out_size <= Z.of_nat (length buf) ->
  let n := hexify_count in_size out_size in
  hexify inp in_size buf out_size
  = if (in_size =? 0) || (out_size =? 0) then Some (0, buf)
    else Some (2 * n, (hexes (firstn (Z.to_nat n) inp)
                       ++ Ascii.zero :: skipn (Z.to_nat (2 * n + 1)) buf)%list).
Proof.
  intros Hb Hi Hs Ho n.
  destruct (Z.eqb_spec in_size 0) as [E | N]; cbn [orb].
  - unfold hexify. rewrite E. reflexivity.
  - destruct (Z.eqb_spec out_size 0) as [E' | N'].
    + unfold hexify. rewrite E'. change (0 =? 0) with true.
      rewrite orb_true_r. reflexivity.
    + exact (hexify_spec inp in_size buf out_size Hb ltac:(lia) Hs ltac:(lia)
               n eq_refl).
Qed.

Lemma sample_input_bytes : Forall is_byte sample_input.
Proof. unfold sample_input, is_byte. repeat constructor; lia. Qed.

Lemma hexify_result_witness :
  hexify sample_input 5 sample_buffer 8
  = Some (6, ["3"; "5"; "3"; "9"; "3"; "2"; Ascii.zero; "x"]%char) /\
  hexify sample_input 0 sample_buffer 8 = Some (0, sample_buffer) /\
  hexify sample_input 5 sample_buffer 0 = Some (0, sample_buffer).
Proof.
  split; [ | split ].
  - exact (hexify_result sample_input 5 sample_buffer 8 sample_input_bytes
             ltac:(cbn; lia) ltac:(lia) ltac:(cbn; lia)).
  - exact (hexify_result sample_input 0 sample_buffer 8 sample_input_bytes
             ltac:(cbn; lia) ltac:(lia) ltac:(cbn; lia)).
  - exact (hexify_result sample_input 5 sample_buffer 0 sample_input_bytes
             ltac:(cbn; lia) ltac:(lia) ltac:(cbn; lia)).
Defined.

(** X25: on an input of byte values with [0 < in_size <= |in|],
    [in_size < 2^30] and [0 < out_size <= |out|], [hexify] stays within
    [out_size]: the buffer keeps its length, the count returned is even,
    at most [2 in_size] and below [out_size], it is below [2^31] and so
    fits an [int], the character at that index is NUL, and everything
    beyond it is left as it was. *)
Theorem hexify_in_bounds (inp : list Z) (in_size : Z) (buf : list ascii) (out_size : Z) :
  Forall is_byte inp ->
  0 < in_size <= Z.of_nat (length inp) -> in_size < 2 ^ 30 ->
  0 < out_size <= Z.of_nat (length buf) ->
  exists r buf',
    hexify inp in_size buf out_size = Some (r, buf') /\
    length buf' = length buf /\
    0 <= r <= 2 * in_size /\ r < out_size /\ r < 2 ^ 31 /\ r mod 2 = 0 /\
    nth (Z.to_nat r) buf' "x"%char = Ascii.zero /\
    skipn (Z.to_nat (r + 1)) buf' = skipn (Z.to_nat (r + 1)) buf.
Proof.
  intros Hb Hi Hs Ho.
  pose proof (hexify_spec inp in_size buf out_size Hb Hi Hs Ho _ eq_refl) as E.
  assert (R : 0 <= hexify_count in_size out_size <= in_size /\
              2 * hexify_count in_size out_size + 1 <= out_size)
    by (unfold hexify_count; split; Z.div_mod_to_equations; lia).
  set (n := hexify_count in_size out_size) in *.
  set (w := hexes (firstn (Z.to_nat n) inp)) in *.
  assert (Lw : length w = Z.to_nat (2 * n)).
  { unfold w. rewrite hexes_length, length_firstn. lia. }
  eexists. eexists. split; [ exact E | ].
  split; [ rewrite length_app; cbn [length]; rewrite length_skipn, Lw; lia | ].
  split; [ lia | ]. split; [ lia | ]. split; [ lia | ].
  split; [ rewrite Z.mul_comm; apply Z.mod_mul; lia | ].
  split.
  - rewrite app_nth2 by lia. rewrite Lw, Nat.sub_diag. reflexivity.
  - replace (Z.to_nat (2 * n + 1)) with (length w + 1)%nat by lia.
    rewrite skipn_app, Nat.add_comm.
    rewrite skipn_all2 by lia.
    replace (1 + length w - length w)%nat with 1%nat by lia.
    reflexivity.
Qed.

Lemma hexify_in_bounds_witness :
  exists r buf',
    hexify sample_input 5 sample_buffer 8 = Some (r, buf') /\
    length buf' = length sample_buffer /\
    0 <= r <= 2 * 5 /\ r < 8 /\ r < 2 ^ 31 /\ r mod 2 = 0 /\
    nth (Z.to_nat r) buf' "x"%char = Ascii.zero /\
    skipn (Z.to_nat (r + 1)) buf' = skipn (Z.to_nat (r + 1)) sample_buffer.
Proof.
  exact (hexify_in_bounds sample_input 5 sample_buffer 8 sample_input_bytes
           ltac:(cbn; lia) ltac:(lia) ltac:(cbn; lia)).
Defined.

(** X26: on an input of byte values with [0 < in_size <= |in|],
    [in_size < 2^30] and [0 < out_size <= |out|], [hexify] truncates
    without telling: it returns [2 in_size], the whole input converted,
    exactly when [out_size] is at least [2 in_size + 1]; with less room
    the call still succeeds and returns [2 ((out_size - 1) / 2)]. *)
Theorem hexify_truncates (inp : list Z) (in_size : Z) (buf : list ascii) (out_size : Z) :
  Forall is_byte inp ->
  0 < in_size <= Z.of_nat (length inp) -> in_size < 2 ^ 30 ->
  0 < out_size <= Z.of_nat (length buf) ->
  exists r buf',
    hexify inp in_size buf out_size = Some (r, buf') /\
    (r = 2 * in_size <-> 2 * in_size + 1 <= out_size) /\
    (out_size < 2 * in_size + 1 -> r = 2 * ((out_size - 1) / 2)).
Proof.
  intros Hb Hi Hs Ho.
  pose proof (hexify_spec inp in_size buf out_size Hb Hi Hs Ho _ eq_refl) as E.
  eexists. eexists. split; [ exact E | ].
  unfold hexify_count. split; [ split | ]; intros H; Z.div_mod_to_equations; lia.
Qed.

Lemma hexify_truncates_witness :
  exists r buf',
    hexify sample_input 5 sample_buffer 8 = Some (r, buf') /\
    (r = 2 * 5 <-> 2 * 5 + 1 <= 8) /\
    (8 < 2 * 5 + 1 -> r = 2 * ((8 - 1) / 2)).
Proof.
  exact (hexify_truncates sample_input 5 sample_buffer 8 sample_input_bytes
           ltac:(cbn; lia) ltac:(lia) ltac:(cbn; lia)).
Defined.

(** X27: the digits determine the bytes: two inputs of the same size
    that [hexify] converts in full to the same buffer contents have the
    same first [in_size] bytes. *)
Theorem hexify_injective (inp inp' : list Z) (in_size : Z) (buf buf' : list ascii)
    (out_size : Z) :
  Forall is_byte inp -> Forall is_byte inp' ->
  0 < in_size <= Z.of_nat (length inp) -> in_size <= Z.of_nat (length inp') ->
  in_size < 2 ^ 30 ->
  2 * in_size + 1 <= out_size ->
  out_size <= Z.of_nat (length buf) -> out_size <= Z.of_nat (length buf') ->
  hexify inp in_size buf out_size = hexify inp' in_size buf' out_size ->
  firstn (Z.to_nat in_size) inp = firstn (Z.to_nat in_size) inp'.
Proof.
  intros Hb Hb' Hi Hi' Hs Hroom Ho Ho' E.
  rewrite (hexify_spec inp in_size buf out_size Hb Hi Hs ltac:(lia) _ eq_refl) in E.
  rewrite (hexify_spec inp' in_size buf' out_size Hb' ltac:(lia) Hs ltac:(lia) _ eq_refl) in E.
  assert (En : hexify_count in_size out_size = in_size)
    by (unfold hexify_count; Z.div_mod_to_equations; lia).
  rewrite En in E. injection E as E.
  apply (f_equal (firstn (Z.to_nat (2 * in_size)))) in E.
  rewrite !firstn_app in E.
  rewrite !hexes_length, !length_firstn in E.
  replace (Z.to_nat (2 * in_size) - 2 * Nat.min (Z.to_nat in_size) (length inp))%nat
    with 0%nat in E by lia.
  replace (Z.to_nat (2 * in_size) - 2 * Nat.min (Z.to_nat in_size) (length inp'))%nat
    with 0%nat in E by lia.
  cbn [firstn] in E. rewrite !app_nil_r in E.
  assert (F : forall l : list Z,
             (length l <= Z.to_nat in_size)%nat ->
             firstn (Z.to_nat (2 * in_size)) (hexes l) = hexes l)
    by (intros l Hl; apply firstn_all2; rewrite hexes_length; lia).
  rewrite (F (firstn (Z.to_nat in_size) inp)) in E by (rewrite length_firstn; lia).
  rewrite (F (firstn (Z.to_nat in_size) inp')) in E by (rewrite length_firstn; lia).
  apply hexes_inj in E; [ exact E | | ]; apply Forall_firstn_bytes; assumption.
Qed.

Lemma hexify_injective_witness :
  firstn (Z.to_nat 3) sample_input = firstn (Z.to_nat 3) (firstn 3 sample_input ++ [0]).
Proof.
  assert (B : Forall is_byte (firstn 3 sample_input ++ [0]))
    by (unfold sample_input, is_byte; cbn; repeat constructor; lia).
  exact (hexify_injective sample_input (firstn 3 sample_input ++ [0]) 3
           sample_buffer sample_buffer 8 sample_input_bytes B
           ltac:(cbn; lia) ltac:(cbn; lia) ltac:(lia) ltac:(lia)
           ltac:(cbn; lia) ltac:(cbn; lia) ltac:(vm_compute; reflexivity)).
Defined.

(* ------------------------------------------------------------------ *)
(** ** What [x25519_ge_sub] prints *)

Lemma as_int_small (x : Z) : 0 <= x < 2 ^ 28 -> as_int x = x.
Proof.
  intros H. unfold as_int. rewrite Z.mod_small by lia.
  destruct (Z.ltb_spec x (2 ^ 31)); [ reflexivity | lia ].
Qed.

Lemma print_limbs_ints (f : limbs) (n : Z) :
  loose f -> In (OutInt n) (print_limbs f) -> 0 <= n < 2 ^ 28.
Proof.
  intros Hf H. unfold loose, bounded in Hf.
  unfold print_limbs in H. cbn [flat_map app In] in H.
  repeat (destruct H as [H | H]; [ try discriminate H | ]);
    try contradiction;
    injection H as <-; rewrite as_int_small; lia.
Qed.

Lemma print_limbs_length (f : limbs) : length (print_limbs f) = 20%nat.
Proof. reflexivity. Qed.

Lemma x25519_ge_sub_prints (p : ge_p3) (q : ge_cached) :
  p3_bounded p -> cached_bounded q -> sub_output p q (x25519_ge_sub p q).
Proof.
  intros (BX & BY & BZ & BT) (BP & BM & BZq & BTq).
  destruct p as [X Y Z T]. destruct q as [Yp Ym Zq Tq].
  cbn [p3_X p3_Y p3_Z p3_T YplusX YminusX cached_Z T2d] in *.
  cbv beta delta [x25519_ge_sub]. ge_projections.
  repeat fe_let. cbv zeta.
  unfold sub_output. ge_projections. cbn [snd].
  exists t_rT, (fe_carry t_rT).
  destruct (fe_carry_ok t_rT Bt_rT) as (Bc & Ec).
  split; [ reflexivity | ].
  split; [ exact Bt_rT | ]. split; [ exact Bc | ]. split; [ reflexivity | ].
  split; [ exact Ec | ]. rewrite Et_rT, Et_trX. reflexivity.
Qed.

(** X28: the debugging output of [x25519_ge_sub]: a line [BEFORE:] with
    the ten limbs of [2 Z_p Z_q] before the carry and a line [AFTER:]
    with its ten limbs after the carry, 44 items in all; on bounded
    inputs every number printed is non-negative and below [2^28], so
    [%d] shows the limbs themselves. *)
Theorem x25519_ge_sub_output (p : ge_p3) (q : ge_cached) :
  p3_bounded p -> cached_bounded q ->
  sub_output p q (x25519_ge_sub p q) /\
  length (snd (x25519_ge_sub p q)) = 44%nat /\
  (forall n, In (OutInt n) (snd (x25519_ge_sub p q)) -> 0 <= n < 2 ^ 28).
Proof.
  intros Bp Bq. pose proof (x25519_ge_sub_prints p q Bp Bq) as H.
  split; [ exact H | ].
  destruct H as (a & b & E & La & Tb & _).
  rewrite E. split.
  - rewrite !length_app, !print_limbs_length. reflexivity.
  - intros n Hn. rewrite !in_app_iff in Hn. cbn [In] in Hn.
    destruct Hn as [[[H | []] | [H | [H | []]]] | [[H | []] | [H | [H | []]]]];
      try discriminate H.
    + exact (print_limbs_ints a n La H).
    + exact (print_limbs_ints b n (tight_loose _ Tb) H).
Qed.

Lemma x25519_ge_sub_output_witness :
  p3_bounded decoded_base /\ cached_bounded ge_cached_0 /\
  length (snd (x25519_ge_sub decoded_base ge_cached_0)) = 44%nat.
Proof.
  refine (conj p3_bounded_decoded_base (conj cached_bounded_0 _)).
  exact (proj1 (proj2 (x25519_ge_sub_output decoded_base ge_cached_0
                         p3_bounded_decoded_base cached_bounded_0))).
Defined.

(* ------------------------------------------------------------------ *)
(** ** Subtraction and the cached identity at the base point *)

Lemma cached_bounded_double_base : cached_bounded double_base_cached.
Proof. repeat split; vm_compute; discriminate. Qed.

Lemma cached_bounded_double_base_neg : cached_bounded double_base_cached_neg.
Proof. repeat split; vm_compute; discriminate. Qed.

Lemma cached_repr_double_base : cached_repr double_base_cached dbl_base_point.
Proof.
  destruct (p1p1_to_p3_ok dbl_base dbl_base_point
              p1p1_bounded_dbl_base p1p1_repr_dbl_base) as (B & H).
  exact (proj2 (p3_to_cached_ok _ _ _ B H)).
Qed.

Lemma on_curve_double_base : on_curve (fst dbl_base_point) (snd dbl_base_point).
Proof. unfold on_curve. apply GF_eq_by_value. vm_compute. reflexivity. Qed.

Lemma double_base_neg_T2d :
  fval (T2d double_base_cached_neg) = Zmod.opp (fval (T2d double_base_cached)).
Proof. apply GF_eq_by_value. vm_compute. reflexivity. Qed.

Lemma double_base_neg_differs :
  YplusX double_base_cached_neg <> YplusX double_base_cached /\
  T2d double_base_cached_neg <> T2d double_base_cached /\
  fval (T2d double_base_cached) <> Zmod.zero /\
  fst dbl_base_point <> Zmod.zero /\ fst base_point <> Zmod.zero.
Proof.
  split; [ intros E; apply (f_equal v0) in E; vm_compute in E; discriminate E | ].
  split; [ intros E; apply (f_equal v0) in E; vm_compute in E; discriminate E | ].
  repeat split; apply GF_nonzero_by_value; vm_compute; discriminate.
Qed.

Lemma x25519_ge_sub_spec_witness :
  p3_bounded decoded_base /\ cached_bounded double_base_cached /\
  cached_bounded double_base_cached_neg /\
  p3_repr decoded_base base_point /\
  cached_repr double_base_cached dbl_base_point /\
  on_curve (fst base_point) (snd base_point) /\
  on_curve (fst dbl_base_point) (snd dbl_base_point) /\
  YplusX double_base_cached_neg = YminusX double_base_cached /\
  YminusX double_base_cached_neg = YplusX double_base_cached /\
  cached_Z double_base_cached_neg = cached_Z double_base_cached /\
  fval (T2d double_base_cached_neg) = Zmod.opp (fval (T2d double_base_cached)) /\
  (YplusX double_base_cached_neg <> YplusX double_base_cached /\
   T2d double_base_cached_neg <> T2d double_base_cached /\
   fval (T2d double_base_cached) <> Zmod.zero /\
   fst dbl_base_point <> Zmod.zero /\ fst base_point <> Zmod.zero) /\
  (p1p1_repr (fst (x25519_ge_sub decoded_base double_base_cached))
     (ed_sub (fst base_point, snd base_point)
             (fst dbl_base_point, snd dbl_base_point)) /\
   p1p1_bounded (fst (x25519_ge_sub decoded_base double_base_cached)) /\
   p1p1_same (fst (x25519_ge_sub decoded_base double_base_cached))
             (x25519_ge_add decoded_base double_base_cached_neg) /\
   cached_repr double_base_cached_neg
     (ed_neg (fst dbl_base_point, snd dbl_base_point)) /\
   fst (x25519_ge_sub decoded_base double_base_cached)
   = x25519_ge_sub_quiet decoded_base double_base_cached).
Proof.
  refine (conj p3_bounded_decoded_base (conj cached_bounded_double_base
            (conj cached_bounded_double_base_neg (conj p3_repr_base
            (conj cached_repr_double_base (conj on_curve_base
            (conj on_curve_double_base (conj eq_refl (conj eq_refl (conj eq_refl
            (conj double_base_neg_T2d (conj double_base_neg_differs _)))))))))))).
  exact (x25519_ge_sub_spec decoded_base double_base_cached double_base_cached_neg
           (fst base_point) (snd base_point)
           (fst dbl_base_point) (snd dbl_base_point)
           p3_bounded_decoded_base cached_bounded_double_base
           cached_bounded_double_base_neg
           p3_repr_base cached_repr_double_base
           on_curve_base on_curve_double_base
           eq_refl eq_refl eq_refl double_base_neg_T2d).
Defined.

Lemma ge_cached_0_identity_witness :
  p3_bounded decoded_base /\ p3_repr decoded_base base_point /\
  (fst base_point <> Zmod.zero /\ fval (p3_T decoded_base) <> Zmod.zero) /\
  (ge_cached_0 = Ge_cached fe_1 fe_1 fe_1 fe_0 /\
   fval fe_1 = Zmod.one /\ fval fe_0 = Zmod.zero /\
   cached_repr ge_cached_0 ed_zero /\
   p1p1_bounded (x25519_ge_add decoded_base ge_cached_0) /\
   p1p1_repr (x25519_ge_add decoded_base ge_cached_0)
             (fst base_point, snd base_point)).
Proof.
  assert (N : fst base_point <> Zmod.zero /\ fval (p3_T decoded_base) <> Zmod.zero)
    by (split; apply GF_nonzero_by_value; vm_compute; discriminate).
  refine (conj p3_bounded_decoded_base (conj p3_repr_base (conj N _))).
  exact (ge_cached_0_identity decoded_base (fst base_point) (snd base_point)
           p3_bounded_decoded_base p3_repr_base).
Defined.
